(** * Barnes-Hut simulator: the quadtree builder, the force traversal and the
    integrator of [functions.go], embedded in Rocq.

    Numbers.  The Go code computes on [float64].  The specification states its
    data model over the reals (a vector is "a pair of finite real numbers", a
    mass is a "positive real") and allows for "floating-point order of
    summation", so the embedding takes [float64] to be [R]: every arithmetic
    expression below is the one of the source, read over the reals.

    Memory.  A [*Star] of the program is an address into a store of stars
    (the [Heap]).  The stars of a universe are objects of the store, and the
    leaves of a quadtree point to those very objects.  The pseudo-stars that
    the tree allocates itself ([&Star{...}] in [updateCenterOfMass] and
    [calculateCenterOfMass]) are reachable from one node only, so they are
    kept by value inside that node.

    Control.  [insertStar] recurses on freshly created nodes, so it takes a
    fuel argument; a run answers [Ok], [Panic] (Go's nil dereference and
    index panics) or [OutOfFuel]. *)

From Stdlib Require Import List Reals Lra Lia ZArith Bool Arith Permutation.
Import ListNotations.
Local Open Scope R_scope.

(** ** Results of runs *)

Inductive result (A : Type) : Type :=
| Ok (a : A)
| Panic
| OutOfFuel.
Arguments Ok {A} a.
Arguments Panic {A}.
Arguments OutOfFuel {A}.

Definition bind {A B : Type} (m : result A) (k : A -> result B) : result B :=
  match m with
  | Ok a => k a
  | Panic => Panic
  | OutOfFuel => OutOfFuel
  end.

Notation "x <- m ;; k" := (bind m (fun x => k))
  (at level 61, m at next level, right associativity).
Notation "' p <- m ;; k" := (bind m (fun xp => match xp with p => k end))
  (at level 61, p pattern, m at next level, right associativity).

(** Go's [nil] dereference. *)
Definition orPanic {A : Type} (o : option A) : result A :=
  match o with
  | Some a => Ok a
  | None => Panic
  end.

(** ** Data model (the declarations of the package) *)

Record OrderedPair : Type := mkPair { x : R; y : R }.

Record Star : Type := mkStar {
  position : OrderedPair;
  velocity : OrderedPair;
  acceleration : OrderedPair;
  mass : R;
  radius : R;
  red : Z;
  green : Z;
  blue : Z
}.

Record Quadrant : Type := mkQuadrant { qx : R; qy : R; width : R }.

(** The store of star objects; an address is an index. *)
Definition addr : Type := nat.
Definition Heap : Type := list Star.

(** A non-nil [*Star] held by a node: a star object of the store, or a
    pseudo-star the tree allocated for this node alone. *)
Inductive StarRef : Type :=
| Real (a : addr)
| Dummy (s : Star).

(** [type Node struct { sector Quadrant; star *Star; children []*Node }];
    [star = None] is the nil pointer and [children = []] the nil slice. *)
#[local] Unset Elimination Schemes.
Inductive Node : Type :=
  mkNode { sector : Quadrant; star : option StarRef; children : list Node }.
#[local] Set Elimination Schemes.

Record QuadTree : Type := mkQuadTree { root : Node }.

(** [type Universe struct { width float64; stars []*Star }] *)
Record Universe : Type := mkUniverse { uwidth : R; stars : list addr }.

(** Modelled from the spec: the constant [G], declared outside [functions.go];
    the specification fixes it to 6.67408e-11. *)
Definition G : R := 667408 / 10000000000000000.

Definition zeroPair : OrderedPair := mkPair 0 0.

(** The zero value of [Star] with the two fields a composite literal sets. *)
Definition dummyStar (p : OrderedPair) (m : R) : Star :=
  mkStar p zeroPair zeroPair m 0 0%Z 0%Z 0%Z.

(** ** Store access *)

Definition load (h : Heap) (a : addr) : option Star := nth_error h a.

Fixpoint store (h : Heap) (a : addr) (s : Star) : Heap :=
  match h, a with
  | [], _ => []
  | _ :: t, O => s :: t
  | s0 :: t, S a' => s0 :: store t a' s
  end.

Definition deref (h : Heap) (r : StarRef) : option Star :=
  match r with
  | Real a => load h a
  | Dummy s => Some s
  end.

Definition setMass (s : Star) (m : R) : Star :=
  mkStar (position s) (velocity s) (acceleration s) m
         (radius s) (red s) (green s) (blue s).

Definition setPosition (s : Star) (p : OrderedPair) : Star :=
  mkStar p (velocity s) (acceleration s) (mass s)
         (radius s) (red s) (green s) (blue s).

Definition setVelocity (s : Star) (v : OrderedPair) : Star :=
  mkStar (position s) v (acceleration s) (mass s)
         (radius s) (red s) (green s) (blue s).

Definition setAcceleration (s : Star) (a : OrderedPair) : Star :=
  mkStar (position s) (velocity s) a (mass s)
         (radius s) (red s) (green s) (blue s).

(** Comparisons of the source, as booleans. *)
Definition Rltb (a b : R) : bool := if Rlt_dec a b then true else false.
Definition Rgeb (a b : R) : bool := if Rge_dec a b then true else false.
Definition Rgtb (a b : R) : bool := if Rgt_dec a b then true else false.
Definition Reqb (a b : R) : bool := if Req_dec_T a b then true else false.

(** ** Quadtree builder *)

(** [inRange] *)
Definition inRange (pos : OrderedPair) (q : Quadrant) : bool :=
  Rgeb (x pos) (qx q) && Rltb (x pos) (qx q + width q)
  && Rgeb (y pos) (qy q) && Rltb (y pos) (qy q + width q).

Definition emptyNode (q : Quadrant) : Node := mkNode q None [].

(** [initializeQuadrant]: the children slice, in the order NW, NE, SW, SE. *)
Definition initializeQuadrant (q : Quadrant) : list Node :=
  let half := width q / 2 in
  [ emptyNode (mkQuadrant (qx q) (qy q + half) half);
    emptyNode (mkQuadrant (qx q + half) (qy q + half) half);
    emptyNode (mkQuadrant (qx q) (qy q) half);
    emptyNode (mkQuadrant (qx q + half) (qy q) half) ].

(** [updateCenterOfMass]: the three assignments run in the order of the
    source, so both coordinates are averaged with the old mass. *)
Definition updateStar (old new : Star) : Star :=
  let totalMass := mass old + mass new in
  let px := (x (position old) * mass old + x (position new) * mass new) / totalMass in
  let py := (y (position old) * mass old + y (position new) * mass new) / totalMass in
  setMass (setPosition old (mkPair px py)) totalMass.

Definition updateCenterOfMass (node : Node) (newStar : StarRef) (h : Heap)
  : result (Node * Heap) :=
  match star node with
  | None =>
      ns <- orPanic (deref h newStar) ;;
      Ok (mkNode (sector node)
                 (Some (Dummy (dummyStar (position ns) (mass ns))))
                 (children node), h)
  | Some (Dummy d) =>
      ns <- orPanic (deref h newStar) ;;
      Ok (mkNode (sector node) (Some (Dummy (updateStar d ns))) (children node), h)
  | Some (Real a) =>
      old <- orPanic (load h a) ;;
      ns <- orPanic (deref h newStar) ;;
      Ok (node, store h a (updateStar old ns))
  end.

(** The accumulation loop of [calculateCenterOfMass]. *)
Fixpoint sumChildren (h : Heap) (cs : list Node) (acc : R * R * R)
  : result (R * R * R) :=
  match cs with
  | [] => Ok acc
  | child :: rest =>
      match star child with
      | None => sumChildren h rest acc
      | Some r =>
          s <- orPanic (deref h r) ;;
          let '(totalMass, xPos, yPos) := acc in
          sumChildren h rest
            (totalMass + mass s,
             xPos + x (position s) * mass s,
             yPos + y (position s) * mass s)
      end
  end.

(** [calculateCenterOfMass] *)
Definition calculateCenterOfMass (node : Node) (h : Heap) : result Node :=
  match children node with
  | [] => Ok node
  | _ :: _ =>
      '(totalMass, xPos, yPos) <- sumChildren h (children node) (0, 0, 0) ;;
      if Rgtb totalMass 0
      then Ok (mkNode (sector node)
                 (Some (Dummy (dummyStar (mkPair (xPos / totalMass) (yPos / totalMass))
                                         totalMass)))
                 (children node))
      else Ok node
  end.

(** The loop of [insertIntoChild], over the children slice; [ins] is the
    recursive call [child.insertStar(star)]. *)
Fixpoint insertIntoChildren (ins : Node -> Heap -> result (Node * Heap))
  (pos : OrderedPair) (cs : list Node) (h : Heap) : result (list Node * Heap) :=
  match cs with
  | [] => Ok ([], h)
  | child :: rest =>
      if inRange pos (sector child)
      then '(child', h') <- ins child h ;; Ok (child' :: rest, h')
      else '(rest', h') <- insertIntoChildren ins pos rest h ;; Ok (child :: rest', h')
  end.

(** [insertIntoChild]: [star.position] is read only when there is a child. *)
Definition insertIntoChild (ins : Node -> StarRef -> Heap -> result (Node * Heap))
  (node : Node) (st : StarRef) (h : Heap) : result (Node * Heap) :=
  match children node with
  | [] => Ok (node, h)
  | _ :: _ =>
      s <- orPanic (deref h st) ;;
      '(cs, h') <- insertIntoChildren (fun c => ins c st) (position s) (children node) h ;;
      Ok (mkNode (sector node) (star node) cs, h')
  end.

(** [insertStar] *)
Fixpoint insertStar (fuel : nat) (node : Node) (st : StarRef) (h : Heap)
  : result (Node * Heap) :=
  match fuel with
  | O => OutOfFuel
  | S fuel' =>
      match star node, children node with
      | None, [] => Ok (mkNode (sector node) (Some st) [], h)
      | _, _ :: _ =>
          '(node1, h1) <- updateCenterOfMass node st h ;;
          insertIntoChild (insertStar fuel') node1 st h1
      | Some existing, [] =>
          e <- orPanic (deref h existing) ;;
          s <- orPanic (deref h st) ;;
          if Reqb (x (position e)) (x (position s))
             && Reqb (y (position e)) (y (position s))
          then
            match existing with
            | Real a => Ok (node, store h a (setMass e (mass s)))
            | Dummy d =>
                Ok (mkNode (sector node) (Some (Dummy (setMass d (mass s)))) [], h)
            end
          else
            let node1 := mkNode (sector node) None (initializeQuadrant (sector node)) in
            '(node2, h2) <- insertIntoChild (insertStar fuel') node1 existing h ;;
            '(node3, h3) <- insertIntoChild (insertStar fuel') node2 st h2 ;;
            node4 <- calculateCenterOfMass node3 h3 ;;
            Ok (node4, h3)
      end
  end.

(** The loop of [GenerateQuadTree]. *)
Fixpoint insertAll (fuel : nat) (node : Node) (l : list addr) (h : Heap)
  : result (Node * Heap) :=
  match l with
  | [] => Ok (node, h)
  | a :: rest =>
      '(node', h') <- insertStar fuel node (Real a) h ;;
      insertAll fuel node' rest h'
  end.

(** [GenerateQuadTree] *)
Definition GenerateQuadTree (fuel : nat) (currentUniverse : Universe) (h : Heap)
  : result (QuadTree * Heap) :=
  '(r, h') <- insertAll fuel (emptyNode (mkQuadrant 0 0 (uwidth currentUniverse)))
                        (stars currentUniverse) h ;;
  Ok (mkQuadTree r, h').

(** ** Force evaluator *)

(** [computeDistance] *)
Definition computeDistance (s s2 : Star) : R :=
  let disx := x (position s2) - x (position s) in
  let disy := y (position s2) - y (position s) in
  sqrt (disx * disx + disy * disy).

(** [computeGravitationalForce] *)
Definition computeGravitationalForce (s s2 : Star) (dis : R) : OrderedPair :=
  if Reqb dis 0 then zeroPair
  else
    let gMag := G * mass s * mass s2 / (dis * dis) in
    let dx := x (position s) - x (position s2) in
    let dy := y (position s) - y (position s2) in
    mkPair (gMag * dx / dis) (gMag * dy / dis).

(** [force.x += f.x; force.y += f.y] *)
Definition addPair (force f : OrderedPair) : OrderedPair :=
  mkPair (x force + x f) (y force + y f).

(** [node.star == currStar]: a pseudo-star of the tree is no object of the
    caller. *)
Definition sameStar (r : StarRef) (a : addr) : bool :=
  match r with
  | Real b => Nat.eqb b a
  | Dummy _ => false
  end.

Definition isNil {A : Type} (l : list A) : bool :=
  match l with
  | [] => true
  | _ :: _ => false
  end.

(** [CalculateNetForce] *)
Fixpoint CalculateNetForce (h : Heap) (node : Node) (currStar : addr) (theta : R)
  {struct node} : result OrderedPair :=
  match node with
  | mkNode sec st ch =>
      r <- orPanic st ;;
      ns <- orPanic (deref h r) ;;
      cs <- orPanic (load h currStar) ;;
      let dis := computeDistance ns cs in
      if Reqb dis 0 || sameStar r currStar then Ok zeroPair
      else
        let ratio := width sec / dis in
        let force :=
          if Rltb ratio theta || isNil ch
          then addPair zeroPair (computeGravitationalForce ns cs dis)
          else zeroPair in
        if Rgeb ratio theta
        then
          (fix loop (l : list Node) (force : OrderedPair) {struct l}
             : result OrderedPair :=
             match l with
             | [] => Ok force
             | child :: rest =>
                 match star child with
                 | None => loop rest force
                 | Some _ =>
                     childForce <- CalculateNetForce h child currStar theta ;;
                     loop rest (addPair force childForce)
                 end
             end) ch force
        else Ok force
  end.

(** The loop over the children, as it stands inside [CalculateNetForce]. *)
Fixpoint forceLoop (h : Heap) (currStar : addr) (theta : R) (l : list Node)
  (force : OrderedPair) : result OrderedPair :=
  match l with
  | [] => Ok force
  | child :: rest =>
      match star child with
      | None => forceLoop h currStar theta rest force
      | Some _ =>
          childForce <- CalculateNetForce h child currStar theta ;;
          forceLoop h currStar theta rest (addPair force childForce)
      end
  end.

(** ** Integrator *)

(** [UpdateVelocity] *)
Definition UpdateVelocity (s : Star) (oldAcceleration : OrderedPair) (timeStep : R)
  : OrderedPair :=
  mkPair (0.5 * (x (acceleration s) + x oldAcceleration) * timeStep + x (velocity s))
         (0.5 * (y (acceleration s) + y oldAcceleration) * timeStep + y (velocity s)).

(** [UpdatePosition] *)
Definition UpdatePosition (s : Star) (oldAcceleration oldVelocity : OrderedPair)
  (timeStep : R) : OrderedPair :=
  mkPair (0.5 * x oldAcceleration * (timeStep * timeStep)
          + x oldVelocity * timeStep + x (position s))
         (0.5 * y oldAcceleration * (timeStep * timeStep)
          + y oldVelocity * timeStep + y (position s)).

(** [copyStars]: a new object with every field of [s]. *)
Definition copyStars (s : Star) : Star :=
  mkStar (mkPair (x (position s)) (y (position s)))
         (mkPair (x (velocity s)) (y (velocity s)))
         (mkPair (x (acceleration s)) (y (acceleration s)))
         (mass s) (radius s) (red s) (green s) (blue s).

(** Allocation of a star object. *)
Definition alloc (h : Heap) (s : Star) : addr * Heap := (length h, h ++ [s]).

(** The loop of [copyUniverse]. *)
Fixpoint copyAll (l : list addr) (h : Heap) : result (list addr * Heap) :=
  match l with
  | [] => Ok ([], h)
  | a :: rest =>
      s <- orPanic (load h a) ;;
      let '(a', h1) := alloc h (copyStars s) in
      '(rest', h2) <- copyAll rest h1 ;;
      Ok (a' :: rest', h2)
  end.

(** [copyUniverse] *)
Definition copyUniverse (currentUniverse : Universe) (h : Heap)
  : result (Universe * Heap) :=
  '(l, h') <- copyAll (stars currentUniverse) h ;;
  Ok (mkUniverse (uwidth currentUniverse) l, h').

(** The body of the loop of [updateUniverse], for the star at address [a]
    of the new universe. *)
Definition updateOne (tree : QuadTree) (time theta : R) (a : addr) (h : Heap)
  : result Heap :=
  s <- orPanic (load h a) ;;
  let oldAcceleration := acceleration s in
  let oldVelocity := velocity s in
  netForce <- CalculateNetForce h (root tree) a theta ;;
  let newAcceleration := mkPair (x netForce / mass s) (y netForce / mass s) in
  let h1 := store h a (setAcceleration s newAcceleration) in
  s1 <- orPanic (load h1 a) ;;
  let h2 := store h1 a (setVelocity s1 (UpdateVelocity s1 oldAcceleration time)) in
  s2 <- orPanic (load h2 a) ;;
  Ok (store h2 a
        (setPosition s2 (UpdatePosition s2 oldAcceleration oldVelocity time))).

Fixpoint updateAll (tree : QuadTree) (time theta : R) (l : list addr) (h : Heap)
  : result Heap :=
  match l with
  | [] => Ok h
  | a :: rest =>
      h' <- updateOne tree time theta a h ;;
      updateAll tree time theta rest h'
  end.

(** [updateUniverse] *)
Definition updateUniverse (fuel : nat) (currentUniverse : Universe)
  (time theta : R) (h : Heap) : result (Universe * Heap) :=
  '(newUniverse, h1) <- copyUniverse currentUniverse h ;;
  '(tree, h2) <- GenerateQuadTree fuel currentUniverse h1 ;;
  h3 <- updateAll tree time theta (stars newUniverse) h2 ;;
  Ok (newUniverse, h3).

(** The loop of [BarnesHut]: the universes at indices 1, 2, ... *)
Fixpoint generations (fuel n : nat) (prev : Universe) (time theta : R) (h : Heap)
  : result (list Universe * Heap) :=
  match n with
  | O => Ok ([], h)
  | S n' =>
      '(next, h1) <- updateUniverse fuel prev time theta h ;;
      '(rest, h2) <- generations fuel n' next time theta h1 ;;
      Ok (next :: rest, h2)
  end.

(** [BarnesHut]: [make] and the write to index 0 panic on a negative
    [numGens]. The bound of Go's [int] and the limits of memory are left
    aside: [numGens] is any integer. *)
Definition BarnesHut (fuel : nat) (initialUniverse : Universe) (numGens : Z)
  (time theta : R) (h : Heap) : result (list Universe * Heap) :=
  if (numGens <? 0)%Z then Panic
  else
    '(l, h') <- generations fuel (Z.to_nat numGens) initialUniverse time theta h ;;
    Ok (initialUniverse :: l, h').

(** ** Notions used by the statements *)


(** A star at rest at [(px, py)] with mass [m]. *)
Definition starAt (px py m : R) : Star :=
  mkStar (mkPair px py) zeroPair zeroPair m 0 0%Z 0%Z 0%Z.

(** The nodes a build can reach from stars in [S]: a node without children is
    empty or holds a star object of [S]; a node with children holds no star or
    a pseudo-star of its own. *)
#[local] Unset Elimination Schemes.
Inductive Shaped (S : list addr) : Node -> Prop :=
| Shaped_empty q : Shaped S (mkNode q None [])
| Shaped_leaf q a : In a S -> Shaped S (mkNode q (Some (Real a)) [])
| Shaped_inner q st c ch :
    (st = None \/ exists d, st = Some (Dummy d)) ->
    Forall (Shaped S) (c :: ch) ->
    Shaped S (mkNode q st (c :: ch)).
#[local] Set Elimination Schemes.

(** The effect on the store of inserting the star at [a] into a tree that
    holds the stars [S]: none, or the one write of the coincidence branch, to
    the mass of a star of [S] at the position of [a]. *)
Definition StoreEffect (S : list addr) (a : addr) (h h' : Heap) : Prop :=
  h' = h
  \/ exists e se sa,
      In e S /\ load h e = Some se /\ load h a = Some sa
      /\ position se = position sa
      /\ h' = store h e (setMass se (mass sa)).

(** The star a body has after one step, given the net force [F] on it: the
    three assignments of the loop of [updateUniverse], in their order. *)
Definition stepStar (s : Star) (F : OrderedPair) (time : R) : Star :=
  let oldAcceleration := acceleration s in
  let oldVelocity := velocity s in
  let s1 := setAcceleration s (mkPair (x F / mass s) (y F / mass s)) in
  let s2 := setVelocity s1 (UpdateVelocity s1 oldAcceleration time) in
  setPosition s2 (UpdatePosition s2 oldAcceleration oldVelocity time).


(** Two star objects of the store at different positions. *)
Definition apart (h : Heap) (a b : addr) : Prop :=
  forall sa sb, load h a = Some sa -> load h b = Some sb -> position sa <> position sb.

(** The stars of a list have pairwise-distinct positions. *)
Fixpoint distinctPositions (h : Heap) (l : list addr) : Prop :=
  match l with
  | [] => True
  | a :: rest => (forall b, In b rest -> apart h a b) /\ distinctPositions h rest
  end.

(** The sum of [f] over the star objects of a list. *)
Fixpoint sumOver (h : Heap) (f : Star -> R) (l : list addr) : R :=
  match l with
  | [] => 0
  | a :: rest =>
      match load h a with
      | Some s => f s + sumOver h f rest
      | None => sumOver h f rest
      end
  end.

Definition xMoment (s : Star) : R := x (position s) * mass s.
Definition yMoment (s : Star) : R := y (position s) * mass s.

(** The real bodies of a subtree: the star objects at its leaves. *)
Fixpoint bodies (n : Node) : list addr :=
  match n with
  | mkNode _ st ch =>
      match ch with
      | [] => match st with
              | Some (Real a) => [a]
              | _ => []
              end
      | _ :: _ => flat_map bodies ch
      end
  end.

(** The representative of a node, as the traversal reads it. *)
Definition aggregate (h : Heap) (n : Node) : option Star :=
  match star n with
  | Some r => deref h r
  | None => None
  end.

(** The mass a child contributes to its parent; an empty child contributes
    nothing. *)
Definition aggregateMass (h : Heap) (n : Node) : R :=
  match aggregate h n with
  | Some s => mass s
  | None => 0
  end.

(** [m] is a node of the tree rooted at [n]. *)
Inductive subnode (m : Node) : Node -> Prop :=
| subnode_refl : subnode m m
| subnode_child n c : In c (children n) -> subnode m c -> subnode m n.

(** The trees built from bodies inside the root square, at pairwise-distinct
    positions and with positive masses: every leaf is empty or holds a body
    of its own quadrant, every node with children has the four quadrants of
    its sector as children and a pseudo-star carrying the total mass and the
    mass moments of the bodies below it. *)
#[local] Unset Elimination Schemes.
Inductive Built (h : Heap) : Node -> Prop :=
| Built_empty q : 0 < width q -> Built h (mkNode q None [])
| Built_leaf q a s :
    0 < width q ->
    load h a = Some s ->
    0 < mass s ->
    inRange (position s) q = true ->
    Built h (mkNode q (Some (Real a)) [])
| Built_inner q d ch :
    0 < width q ->
    map sector ch = map sector (initializeQuadrant q) ->
    Forall (Built h) ch ->
    0 < mass d ->
    mass d = sumOver h mass (flat_map bodies ch) ->
    xMoment d = sumOver h xMoment (flat_map bodies ch) ->
    yMoment d = sumOver h yMoment (flat_map bodies ch) ->
    Built h (mkNode q (Some (Dummy d)) ch).
#[local] Set Elimination Schemes.





(** The bodies a theorem on built trees is about: star objects of the store,
    with a positive mass, inside the root square of width [w]. *)
Definition inRoot (h : Heap) (w : R) (a : addr) : Prop :=
  exists s, load h a = Some s /\ 0 < mass s
            /\ inRange (position s) (mkQuadrant 0 0 w) = true.

(** The larger of the two coordinate differences of two stars. *)
Definition spread (s1 s2 : Star) : R :=
  Rmax (Rabs (x (position s1) - x (position s2)))
       (Rabs (y (position s1) - y (position s2))).

Definition Rsum (l : list R) : R := fold_right Rplus 0 l.

(** ** Concrete universes *)

(** Two bodies inside a root square of width 10. *)
Definition heapTwo : Heap := [starAt 1 1 1; starAt 7 8 2].
Definition universeTwo : Universe := mkUniverse 10 [0%nat; 1%nat].




(** [l] lists the universes reached from [prev] by successive steps. *)
Inductive Steps (fuel : nat) (time theta : R)
  : Universe -> Heap -> list Universe -> Heap -> Prop :=
| Steps_nil prev h : Steps fuel time theta prev h [] h
| Steps_cons prev h next h1 rest h2 :
    updateUniverse fuel prev time theta h = Ok (next, h1) ->
    Steps fuel time theta next h1 rest h2 ->
    Steps fuel time theta prev h (next :: rest) h2.

(** ** Notions used by the further properties *)

(** The states of a star that feels no force, after 1, 2, ..., [n] steps. *)
Fixpoint loneStars (n : nat) (time : R) (s : Star) : list Star :=
  match n with
  | O => []
  | S n' => stepStar s zeroPair time :: loneStars n' time (stepStar s zeroPair time)
  end.

(** The universes of width [w] with the one star at [base], [base + 1], ... *)
Fixpoint loneUniverses (n : nat) (w : R) (base : addr) : list Universe :=
  match n with
  | O => []
  | S n' => mkUniverse w [base] :: loneUniverses n' w (S base)
  end.

(** A run that did not stop for lack of fuel: it returned or it panicked. *)
Definition finished {A : Type} (r : result A) : Prop := r <> OutOfFuel.

(** ** The caller's [Push] (the file with [main]) *)

(** [Push]: the type [Galaxy], declared outside the files at hand, is ranged
    over as a slice of [*Star]; each star has its velocity moved by
    [(vx, vy)]. *)
Fixpoint Push (g : list addr) (vx vy : R) (h : Heap) : result Heap :=
  match g with
  | [] => Ok h
  | a :: rest =>
      s <- orPanic (load h a) ;;
      let h1 := store h a (setVelocity s (mkPair (x (velocity s) + vx) (y (velocity s))))
      in
      s1 <- orPanic (load h1 a) ;;
      Push rest vx vy
        (store h1 a (setVelocity s1 (mkPair (x (velocity s1)) (y (velocity s1) + vy))))
  end.

(** A star with its velocity moved [n] times by [(vx, vy)]. *)
Definition pushed (n : nat) (vx vy : R) (s : Star) : Star :=
  setVelocity s (mkPair (x (velocity s) + INR n * vx) (y (velocity s) + INR n * vy)).

(** ** Sandpiles: [copyBoard], [Topple], [SimulateSandpiles] *)

Local Open Scope Z_scope.

(** A [Board] is a slice of rows of [int]; the rows are taken not to share
    storage (as those of [copyBoard] do not), so that a board is the list of
    its rows. An [int] is a 64-bit integer. *)
Definition Board : Type := list (list Z).

Definition minInt : Z := - 2 ^ 63.
Definition maxInt : Z := 2 ^ 63 - 1.

(** Two's-complement wrap-around of [int] arithmetic. *)
Definition wrapInt (z : Z) : Z := (z + 2 ^ 63) mod 2 ^ 64 - 2 ^ 63.

(** [l[i]], which panics out of range. *)
Definition idx {A : Type} (l : list A) (i : Z) : option A :=
  if i <? 0 then None else nth_error l (Z.to_nat i).

Fixpoint setNth {A : Type} (l : list A) (n : nat) (a : A) : list A :=
  match l, n with
  | [], _ => []
  | _ :: t, O => a :: t
  | e :: t, S n' => e :: setNth t n' a
  end.

(** [b[r][c]]. *)
Definition getCell (b : Board) (r c : Z) : option Z :=
  match idx b r with
  | Some row => idx row c
  | None => None
  end.

(** [b[r][c] = v], for a cell of the board. *)
Definition setCell (b : Board) (r c v : Z) : Board :=
  match idx b r with
  | Some row => setNth b (Z.to_nat r) (setNth row (Z.to_nat c) v)
  | None => b
  end.

(** [b[r][c] += d]. *)
Definition addCell (b : Board) (r c d : Z) : result Board :=
  v <- orPanic (getCell b r c) ;;
  Ok (setCell b r c (wrapInt (v + d))).

Definition copyBoard (currentBoard : Board) : Board :=
  map (fun row => map (fun v => v) row) currentBoard.

(** [Topple] changes the board in place: the board after the call is
    returned. *)
Definition Topple (b : Board) (row col : Z) : result Board :=
  v <- orPanic (getCell b row col) ;;
  if v <? 4 then Ok b
  else
    b1 <- addCell b row col (- 4) ;;
    let numRows := Z.of_nat (length b1) in
    r0 <- orPanic (idx b1 0) ;;
    let numCols := Z.of_nat (length r0) in
    b2 <- (if row >? 0 then addCell b1 (row - 1) col 1 else Ok b1) ;;
    b3 <- (if row <? numRows - 1 then addCell b2 (row + 1) col 1 else Ok b2) ;;
    b4 <- (if col >? 0 then addCell b3 row (col - 1) 1 else Ok b3) ;;
    (if col <? numCols - 1 then addCell b4 row (col + 1) 1 else Ok b4).

(** The inner loop of a sweep, over the columns [cols] of row [r]. *)
Fixpoint sweepCells (b : Board) (r : nat) (cols : list nat) (stable : bool)
  : result (Board * bool) :=
  match cols with
  | [] => Ok (b, stable)
  | c :: rest =>
      v <- orPanic (getCell b (Z.of_nat r) (Z.of_nat c)) ;;
      if v >=? 4 then
        b' <- Topple b (Z.of_nat r) (Z.of_nat c) ;;
        sweepCells b' r rest false
      else sweepCells b r rest stable
  end.

(** The outer loop of a sweep, over the rows [rows]. *)
Fixpoint sweepRows (b : Board) (rows : list nat) (stable : bool)
  : result (Board * bool) :=
  match rows with
  | [] => Ok (b, stable)
  | r :: rest =>
      row <- orPanic (nth_error b r) ;;
      ' (b', stable') <- sweepCells b r (seq 0 (length row)) stable ;;
      sweepRows b' rest stable'
  end.

Definition sweep (b : Board) : result (Board * bool) :=
  sweepRows b (seq 0 (length b)) true.

(** The [for] loop of [SimulateSandpiles], one sweep for each unit of fuel. *)
Fixpoint simulateLoop (fuel : nat) (b : Board) (interval : Z) (finalBoards : list Board)
  : result (list Board * Board) :=
  match fuel with
  | O => OutOfFuel
  | S fuel' =>
      ' (b', stable) <- sweep b ;;
      let interval' := wrapInt (interval + 1) in
      let finalBoards' :=
        if Z.rem interval' 500 =? 0 then finalBoards ++ [copyBoard b']
        else finalBoards in
      if stable then Ok (finalBoards', b')
      else simulateLoop fuel' b' interval' finalBoards'
  end.

(** [SimulateSandpiles] returns the boards kept; it works on its argument in
    place, whose last state is returned too. *)
Definition SimulateSandpiles (fuel : nat) (currentBoard : Board)
  : result (list Board * Board) :=
  ' (finalBoards, b') <- simulateLoop fuel currentBoard 0 [copyBoard currentBoard] ;;
  Ok (finalBoards ++ [copyBoard b'], b').

(** The coins of a row and of a board. *)
Definition rowSum (row : list Z) : Z := fold_right Z.add 0 row.
Definition total (b : Board) : Z := fold_right Z.add 0 (map rowSum b).

(** A board of rows of [n] cells. *)
Definition rectangular (n : nat) (b : Board) : Prop :=
  Forall (fun row => length row = n) b.

(** Every cell of the board satisfies [P]. *)
Definition allCells (P : Z -> Prop) (b : Board) : Prop :=
  Forall (Forall P) b.

(** The number of coins that toppling [(row, col)] moves to the cell
    [(r, c)]. *)
Definition toppleDelta (row col r c : Z) : Z :=
  if (r =? row) && (c =? col) then - 4
  else if Z.abs (r - row) + Z.abs (c - col) =? 1 then 1
  else 0.

(** The neighbours that the cell [(row, col)] has on a board of [m] rows and
    [n] columns. *)
Definition neighbours (m n row col : Z) : Z :=
  (if row >? 0 then 1 else 0) + (if row <? m - 1 then 1 else 0)
  + (if col >? 0 then 1 else 0) + (if col <? n - 1 then 1 else 0).

(** The coins of a board weighted by the place of their cell: a row from
    column [c] on, a board from row [r] on. *)
Fixpoint rowWeighted (w : nat -> Z) (c : nat) (row : list Z) : Z :=
  match row with
  | [] => 0
  | u :: t => u * w c + rowWeighted w (S c) t
  end.

Fixpoint weighted (w : nat -> nat -> Z) (r : nat) (b : Board) : Z :=
  match b with
  | [] => 0
  | row :: t => rowWeighted (w r) 0 row + weighted w (S r) t
  end.

Definition wsum (W : Z -> Z -> Z) (b : Board) : Z :=
  weighted (fun r c => W (Z.of_nat r) (Z.of_nat c)) 0 b.

(** The weight that makes every toppling on a board of [m] rows and [n]
    columns lose at least four units. *)
Definition slope (m n r c : Z) : Z := m * m + n * n - r * r - c * c.

Definition potential (m n : Z) (b : Board) : Z := wsum (slope m n) b.

(** [b'] has the rows of [b], with [f r c] coins added to each cell
    [(r, c)]. *)
Definition moved (f : Z -> Z -> Z) (b b' : Board) : Prop :=
  map (@length Z) b' = map (@length Z) b
  /\ forall r c u, getCell b r c = Some u -> getCell b' r c = Some (u + f r c).

(** The boards on which no increment overflows: [n] columns, no negative
    cell, fewer than [maxInt] coins. *)
Definition sound (n : nat) (b : Board) : Prop :=
  rectangular n b /\ allCells (fun u => 0 <= u) b /\ total b < maxInt.

(** What a sweep that has toppled nothing yet may still lose. *)
Definition credit (stable : bool) : Z := if stable then 4 else 0.

Local Close Scope Z_scope.
(** ** Comparisons *)

Lemma Rltb_true a b : a < b -> Rltb a b = true.
Proof. intros H. unfold Rltb. destruct (Rlt_dec a b); [reflexivity | contradiction]. Qed.

Lemma Rltb_false a b : ~ a < b -> Rltb a b = false.
Proof. intros H. unfold Rltb. destruct (Rlt_dec a b); [contradiction | reflexivity]. Qed.

Lemma Rgeb_true a b : a >= b -> Rgeb a b = true.
Proof. intros H. unfold Rgeb. destruct (Rge_dec a b); [reflexivity | contradiction]. Qed.

Lemma Rgeb_false a b : ~ a >= b -> Rgeb a b = false.
Proof. intros H. unfold Rgeb. destruct (Rge_dec a b); [contradiction | reflexivity]. Qed.

Lemma Rgtb_true a b : a > b -> Rgtb a b = true.
Proof. intros H. unfold Rgtb. destruct (Rgt_dec a b); [reflexivity | contradiction]. Qed.

Lemma Rgtb_false a b : ~ a > b -> Rgtb a b = false.
Proof. intros H. unfold Rgtb. destruct (Rgt_dec a b); [contradiction | reflexivity]. Qed.

Lemma Reqb_true a b : a = b -> Reqb a b = true.
Proof. intros H. unfold Reqb. destruct (Req_dec_T a b); [reflexivity | contradiction]. Qed.

Lemma Reqb_false a b : a <> b -> Reqb a b = false.
Proof. intros H. unfold Reqb. destruct (Req_dec_T a b); [contradiction | reflexivity]. Qed.

Lemma Rltb_spec a b : Rltb a b = true <-> a < b.
Proof.
  unfold Rltb. destruct (Rlt_dec a b); split; intros;
    try assumption; try reflexivity; try discriminate; contradiction.
Qed.

Lemma Rgeb_spec a b : Rgeb a b = true <-> a >= b.
Proof.
  unfold Rgeb. destruct (Rge_dec a b); split; intros;
    try assumption; try reflexivity; try discriminate; contradiction.
Qed.

Lemma Reqb_spec a b : Reqb a b = true <-> a = b.
Proof.
  unfold Reqb. destruct (Req_dec_T a b); split; intros;
    try assumption; try reflexivity; try discriminate; contradiction.
Qed.

Lemma Rltb_Rgeb a b : Rgeb a b = negb (Rltb a b).
Proof.
  unfold Rgeb, Rltb. destruct (Rge_dec a b), (Rlt_dec a b); simpl; try reflexivity; lra.
Qed.

(** Decides the comparisons between closed expressions of a goal. *)
Ltac decide_R :=
  repeat match goal with
    | |- context [Rltb ?a ?b] =>
        first [rewrite (Rltb_true a b) by lra | rewrite (Rltb_false a b) by lra]
    | |- context [Rgeb ?a ?b] =>
        first [rewrite (Rgeb_true a b) by lra | rewrite (Rgeb_false a b) by lra]
    | |- context [Rgtb ?a ?b] =>
        first [rewrite (Rgtb_true a b) by lra | rewrite (Rgtb_false a b) by lra]
    | |- context [Reqb ?a ?b] =>
        first [rewrite (Reqb_true a b) by lra | rewrite (Reqb_false a b) by lra]
    end.

Lemma inRange_spec pos q :
  inRange pos q = true <->
  qx q <= x pos < qx q + width q /\ qy q <= y pos < qy q + width q.
Proof.
  unfold inRange. rewrite !andb_true_iff, !Rgeb_spec, !Rltb_spec. lra.
Qed.

Lemma G_pos : 0 < G.
Proof. unfold G. lra. Qed.

(** ** The force of one body on another *)



Lemma computeDistance_zero a b :
  computeDistance a b = 0 <-> position a = position b.
Proof.
  unfold computeDistance. split.
  - intros H.
    destruct (position a) as [ax ay], (position b) as [bx by_]. simpl in *.
    assert (H0 : (bx - ax) * (bx - ax) + (by_ - ay) * (by_ - ay) = 0).
    { apply sqrt_eq_0; [| exact H].
      apply Rplus_le_le_0_compat; apply Rle_0_sqr. }
    destruct (Rplus_sqr_eq_0 (bx - ax) (by_ - ay) H0) as [Hx Hy].
    f_equal; lra.
  - intros ->. replace (_ + _) with 0 by ring. apply sqrt_0.
Qed.



(** ** The traversal, one node at a time *)

Lemma forceLoop_fix h q theta l force :
  (fix loop (l : list Node) (force : OrderedPair) {struct l} : result OrderedPair :=
     match l with
     | [] => Ok force
     | child :: rest =>
         match star child with
         | None => loop rest force
         | Some _ =>
             childForce <- CalculateNetForce h child q theta ;;
             loop rest (addPair force childForce)
         end
     end) l force
  = forceLoop h q theta l force.
Proof.
  revert force. induction l as [| c l IH]; intros force; simpl.
  - reflexivity.
  - destruct (star c).
    + destruct (CalculateNetForce h c q theta); simpl; auto.
    + apply IH.
Qed.

Lemma CalculateNetForce_node h sec st ch q theta :
  CalculateNetForce h (mkNode sec st ch) q theta =
  (r <- orPanic st ;;
   ns <- orPanic (deref h r) ;;
   cs <- orPanic (load h q) ;;
   let dis := computeDistance ns cs in
   if Reqb dis 0 || sameStar r q then Ok zeroPair
   else
     let ratio := width sec / dis in
     let force :=
       if Rltb ratio theta || isNil ch
       then addPair zeroPair (computeGravitationalForce ns cs dis)
       else zeroPair in
     if Rgeb ratio theta then forceLoop h q theta ch force else Ok force).
Proof.
  simpl. destruct st as [r |]; simpl; [| reflexivity].
  destruct (deref h r) as [ns |]; simpl; [| reflexivity].
  destruct (load h q) as [cs |]; simpl; [| reflexivity].
  destruct (Reqb (computeDistance ns cs) 0 || sameStar r q); [reflexivity |].
  destruct (Rgeb (width sec / computeDistance ns cs) theta); [| reflexivity].
  apply forceLoop_fix.
Qed.

(** C6. At a node the traversal does not leave early (aggregate [ns] at
    distance [dis <> 0] from the query body, and not the query body itself),
    the two contributions exclude each other: when [s/dis < theta] or the
    node has no children, the result is exactly the two-body force of the
    aggregate; when [s/dis >= theta] and the node has children, the result is
    exactly the sum of the children's traversals, started from zero. Either
    the one or the other condition holds, never both. *)
Theorem C6_branches_exclusive (h : Heap) (sec : Quadrant) (r : StarRef)
  (ch : list Node) (q : addr) (theta : R) (ns cs : Star) :
  deref h r = Some ns ->
  load h q = Some cs ->
  computeDistance ns cs <> 0 ->
  sameStar r q = false ->
  let dis := computeDistance ns cs in
  let ratio := width sec / dis in
  (ratio < theta \/ ch = [] ->
   CalculateNetForce h (mkNode sec (Some r) ch) q theta
   = Ok (addPair zeroPair (computeGravitationalForce ns cs dis)))
  /\ (ratio >= theta /\ ch <> [] ->
      CalculateNetForce h (mkNode sec (Some r) ch) q theta
      = forceLoop h q theta ch zeroPair)
  /\ ((ratio < theta \/ ch = []) <-> ~ (ratio >= theta /\ ch <> [])).
Proof.
  intros Hr Hq Hd Hs dis ratio.
  assert (Hnode : CalculateNetForce h (mkNode sec (Some r) ch) q theta =
                  let force :=
                    if Rltb ratio theta || isNil ch
                    then addPair zeroPair (computeGravitationalForce ns cs dis)
                    else zeroPair in
                  if Rgeb ratio theta then forceLoop h q theta ch force else Ok force).
  { rewrite CalculateNetForce_node. simpl. rewrite Hr. simpl. rewrite Hq. simpl.
    rewrite (Reqb_false _ _ Hd), Hs. reflexivity. }
  split; [| split].
  - intros [Hlt | Hnil].
    + rewrite Hnode. simpl.
      rewrite (Rltb_true _ _ Hlt), Rgeb_false by lra. reflexivity.
    + subst ch. rewrite Hnode. simpl. rewrite orb_true_r.
      destruct (Rgeb ratio theta); reflexivity.
  - intros [Hge Hch]. rewrite Hnode. simpl.
    rewrite Rltb_false by lra. rewrite (Rgeb_true _ _ Hge).
    destruct ch; [contradiction | reflexivity].
  - split.
    + intros [Hlt | Hnil] [Hge Hch]; [lra | contradiction].
    + intros Hn. destruct (Rlt_dec ratio theta) as [Hlt | Hlt]; [left; exact Hlt |].
      right. destruct ch; [reflexivity |].
      exfalso. apply Hn. split; [lra | discriminate].
Qed.

Lemma C6_branches_exclusive_witness :
  let h := [starAt 1 1 1; starAt 7 8 2] in
  let ns := dummyStar (mkPair 5 (17 / 3)) 3 in
  let cs := starAt 1 1 1 in
  let sec := mkQuadrant 0 0 10 in
  let ch := [mkNode (mkQuadrant 5 5 5) (Some (Real 1%nat)) [];
             mkNode (mkQuadrant 0 0 5) (Some (Real 0%nat)) []] in
  let dis := computeDistance ns cs in
  let ratio := width sec / dis in
  (ratio < 1 / 2 \/ ch = [] ->
   CalculateNetForce h (mkNode sec (Some (Dummy ns)) ch) 0%nat (1 / 2)
   = Ok (addPair zeroPair (computeGravitationalForce ns cs dis)))
  /\ (ratio >= 1 / 2 /\ ch <> [] ->
      CalculateNetForce h (mkNode sec (Some (Dummy ns)) ch) 0%nat (1 / 2)
      = forceLoop h 0%nat (1 / 2) ch zeroPair)
  /\ ((ratio < 1 / 2 \/ ch = []) <-> ~ (ratio >= 1 / 2 /\ ch <> [])).
Proof.
  apply (C6_branches_exclusive [starAt 1 1 1; starAt 7 8 2] (mkQuadrant 0 0 10)
           (Dummy (dummyStar (mkPair 5 (17 / 3)) 3))
           [mkNode (mkQuadrant 5 5 5) (Some (Real 1%nat)) [];
            mkNode (mkQuadrant 0 0 5) (Some (Real 0%nat)) []]
           0%nat (1 / 2) (dummyStar (mkPair 5 (17 / 3)) 3) (starAt 1 1 1)).
  - reflexivity.
  - reflexivity.
  - unfold computeDistance. simpl.
    assert (0 < sqrt ((1 - 5) * (1 - 5) + (1 - 17 / 3) * (1 - 17 / 3)))
      by (apply sqrt_lt_R0; lra).
    lra.
  - reflexivity.
Defined.

(** Runs the builder on closed inputs. *)
Ltac run_build :=
  repeat first
    [ progress simpl
    | progress unfold inRange, insertIntoChild, calculateCenterOfMass,
        updateCenterOfMass
    | progress decide_R ].

(** ** Descent into the children *)

Lemma insertIntoChildren_skip ins pos c rest h :
  inRange pos (sector c) = false ->
  insertIntoChildren ins pos (c :: rest) h
  = ('(rest', h') <- insertIntoChildren ins pos rest h ;; Ok (c :: rest', h')).
Proof. intros H. simpl. rewrite H. reflexivity. Qed.

Lemma insertIntoChildren_hit ins pos c rest h :
  inRange pos (sector c) = true ->
  insertIntoChildren ins pos (c :: rest) h
  = ('(c', h') <- ins c h ;; Ok (c' :: rest, h')).
Proof. intros H. simpl. rewrite H. reflexivity. Qed.

Lemma inRange_false_iff pos q :
  inRange pos q = false <->
  ~ (qx q <= x pos < qx q + width q /\ qy q <= y pos < qy q + width q).
Proof.
  rewrite <- inRange_spec. destruct (inRange pos q); split; intros H;
    try discriminate; try reflexivity; try congruence; try (exfalso; auto; fail).
Qed.

(** C5, as the code has it. For every width [w > 0], a body positioned exactly
    at [(w/2, w/2)] descends from the root into the child of index 1, the NE
    quadrant, whose half-open range starts at [w/2] on both axes; the NW, SW
    and SE children are left as they were. *)
Theorem C5_center_goes_NE (w : R) (ins : Node -> StarRef -> Heap -> result (Node * Heap))
  (h : Heap) (a : addr) (s : Star) (st : option StarRef) (c0 c1 c2 c3 : Node) :
  0 < w ->
  load h a = Some s ->
  position s = mkPair (w / 2) (w / 2) ->
  map sector [c0; c1; c2; c3] = map sector (initializeQuadrant (mkQuadrant 0 0 w)) ->
  insertIntoChild ins (mkNode (mkQuadrant 0 0 w) st [c0; c1; c2; c3]) (Real a) h
  = ('(c1', h') <- ins c1 (Real a) h ;;
     Ok (mkNode (mkQuadrant 0 0 w) st [c0; c1'; c2; c3], h')).
Proof.
  intros Hw Hs Hp Hsec.
  unfold insertIntoChild. simpl children. simpl deref. rewrite Hs. simpl orPanic.
  unfold bind at 1. rewrite Hp.
  simpl in Hsec. injection Hsec as H0 H1 H2 H3.
  rewrite insertIntoChildren_skip.
  2:{ apply inRange_false_iff. rewrite H0. simpl. lra. }
  rewrite insertIntoChildren_hit.
  2:{ apply inRange_spec. rewrite H1. simpl. lra. }
  simpl. destruct (ins c1 (Real a) h) as [[c1' h'] | |]; reflexivity.
Qed.

Lemma C5_center_goes_NE_witness :
  let q := mkQuadrant 0 0 10 in
  insertIntoChild (insertStar 1) (mkNode q None (initializeQuadrant q)) (Real 0%nat)
    [starAt (10 / 2) (10 / 2) 1]
  = ('(c1', h') <- insertStar 1 (emptyNode (mkQuadrant (0 + 10 / 2) (0 + 10 / 2) (10 / 2)))
                     (Real 0%nat) [starAt (10 / 2) (10 / 2) 1] ;;
     Ok (mkNode q None
           [emptyNode (mkQuadrant 0 (0 + 10 / 2) (10 / 2)); c1';
            emptyNode (mkQuadrant 0 0 (10 / 2));
            emptyNode (mkQuadrant (0 + 10 / 2) 0 (10 / 2))], h')).
Proof.
  apply (C5_center_goes_NE 10 (insertStar 1) [starAt (10 / 2) (10 / 2) 1] 0%nat
           (starAt (10 / 2) (10 / 2) 1)).
  - lra.
  - reflexivity.
  - reflexivity.
  - reflexivity.
Defined.

(** The claim C5 fails as stated: in a universe of width 10 holding a body at
    (1, 1) and a body at (5, 5), the built root has the body at (5, 5) in its
    NE child (index 1); the SW child (index 2) holds the other body. *)
Lemma C5_counterexample :
  let h := [starAt 1 1 1; starAt 5 5 1] in
  exists t,
    GenerateQuadTree 2 (mkUniverse 10 [0%nat; 1%nat]) h = Ok (t, h)
    /\ option_map star (nth_error (children (root t)) 1) = Some (Some (Real 1%nat))
    /\ option_map star (nth_error (children (root t)) 2) <> Some (Some (Real 1%nat)).
Proof.
  intros h. eexists. split; [| split].
  - unfold GenerateQuadTree, h. run_build. reflexivity.
  - reflexivity.
  - simpl. discriminate.
Qed.

(** ** Coincident bodies *)


(** C4, on the code. Two bodies at (5, 5) with masses 3 and 7 in a universe of
    width 10: the built tree is a single root leaf holding the first body,
    whose mass is now 7, the mass of the second body, and not 3 + 7. *)
Theorem C4_coincident_overwrites :
  forall fuel,
    GenerateQuadTree (S fuel) (mkUniverse 10 [0%nat; 1%nat])
      [starAt 5 5 3; starAt 5 5 7]
    = Ok (mkQuadTree (mkNode (mkQuadrant 0 0 10) (Some (Real 0%nat)) []),
          [starAt 5 5 7; starAt 5 5 7])
    /\ mass (starAt 5 5 7) <> 3 + 7.
Proof.
  intros fuel. split.
  - unfold GenerateQuadTree. run_build. reflexivity.
  - simpl. lra.
Qed.

(** Below a node with children the overwrite leaves the tree inconsistent
    with itself: with masses 3 at (1, 1), 2 at (7, 8) and 7 at (1, 1), the
    aggregate of the root counts 3 + 2 + 7 = 12, as [updateCenterOfMass] adds
    the mass of every star that passes, while its children hold 7 + 2 = 9. *)
Lemma coincident_breaks_aggregate :
  exists t h' r,
    GenerateQuadTree 2 (mkUniverse 10 [0%nat; 1%nat; 2%nat])
      [starAt 1 1 3; starAt 7 8 2; starAt 1 1 7] = Ok (t, h')
    /\ aggregate h' (root t) = Some r
    /\ mass r = 12
    /\ Rsum (map (aggregateMass h') (children (root t))) = 9.
Proof.
  eexists. eexists. eexists. split; [| split; [| split]].
  - unfold GenerateQuadTree. run_build. reflexivity.
  - reflexivity.
  - simpl. lra.
  - unfold Rsum, aggregateMass, aggregate. simpl. lra.
Qed.

(** ** The driver *)

Lemma updateUniverse_empty fuel w time theta h :
  updateUniverse fuel (mkUniverse w []) time theta h = Ok (mkUniverse w [], h).
Proof. reflexivity. Qed.




(** C7, on the code. A universe of width 10 with two bodies at (20, 20) and
    (30, 30), both outside the root square: the tree built from it has a root
    with children and no star, and the first force query dereferences that
    nil star. [BarnesHut] with [numGens = 1] panics; it returns no sequence. *)
Theorem C7_two_outside_panics :
  forall fuel time theta,
    BarnesHut (S fuel) (mkUniverse 10 [0%nat; 1%nat]) 1 time theta
      [starAt 20 20 1; starAt 30 30 1]
    = Panic
    /\ forall r, BarnesHut fuel (mkUniverse 10 [0%nat; 1%nat]) 1 time theta
                   [starAt 20 20 1; starAt 30 30 1]
                 <> Ok r.
Proof.
  intros fuel time theta.
  assert (H : forall f, BarnesHut (S f) (mkUniverse 10 [0%nat; 1%nat]) 1 time theta
                          [starAt 20 20 1; starAt 30 30 1] = Panic).
  { intros f.
    unfold BarnesHut, generations, updateUniverse, copyUniverse, GenerateQuadTree.
    run_build. reflexivity. }
  split; [apply H |].
  intros r. destruct fuel as [| f]; [| rewrite H; discriminate].
  unfold BarnesHut, generations, updateUniverse, copyUniverse, GenerateQuadTree.
  run_build. discriminate.
Qed.

(** ** The store *)

Lemma length_store h a s : length (store h a s) = length h.
Proof.
  revert a. induction h as [| s0 h IH]; intros [| a]; simpl; auto.
Qed.

Lemma load_store_same h a s : (a < length h)%nat -> load (store h a s) a = Some s.
Proof.
  unfold load. revert a. induction h as [| s0 h IH]; intros [| a] Hlt; simpl in *;
    try lia; auto. apply IH. lia.
Qed.

Lemma load_store_other h a b s : a <> b -> load (store h a s) b = load h b.
Proof.
  unfold load. revert a b. induction h as [| s0 h IH]; intros [| a] [| b] Hne; simpl;
    auto; try congruence.
Qed.

Lemma load_Some_lt h a s : load h a = Some s -> (a < length h)%nat.
Proof. unfold load. intros H. apply nth_error_Some. congruence. Qed.

Lemma store_load_id h a s : load h a = Some s -> store h a s = h.
Proof.
  unfold load. revert a. induction h as [| s0 h IH]; intros [| a] H; simpl in *;
    try discriminate.
  - congruence.
  - f_equal. apply IH. exact H.
Qed.

Lemma load_app_l h h' a : (a < length h)%nat -> load (h ++ h') a = load h a.
Proof. unfold load. intros H. apply nth_error_app1. exact H. Qed.

Lemma load_app_new h s : load (h ++ [s]) (length h) = Some s.
Proof.
  unfold load. rewrite nth_error_app2 by lia. rewrite Nat.sub_diag. reflexivity.
Qed.

Lemma setMass_same s : setMass s (mass s) = s.
Proof. destruct s; reflexivity. Qed.

Lemma copyStars_id s : copyStars s = s.
Proof.
  destruct s as [[px py] [vx vy] [ax ay] m r cr cg cb]. reflexivity.
Qed.

(** ** Results *)

Lemma bind_Ok {A B : Type} (m : result A) (k : A -> result B) (b : B) :
  bind m k = Ok b -> exists a, m = Ok a /\ k a = Ok b.
Proof. destruct m; simpl; intros H; try discriminate. eauto. Qed.

Lemma orPanic_Ok {A : Type} (o : option A) (a : A) : orPanic o = Ok a -> o = Some a.
Proof. destruct o; simpl; intros H; congruence. Qed.

(** Inverts successful runs in the hypotheses. *)
Ltac inv_ok :=
  repeat match goal with
    | H : bind _ _ = Ok _ |- _ =>
        let v := fresh "v" in
        let E := fresh "E" in
        apply bind_Ok in H; destruct H as [v [E H]]
    | H : orPanic _ = Ok _ |- _ => apply orPanic_Ok in H
    | H : Ok _ = Ok _ |- _ => injection H as H
    | H : (_, _) = (_, _) |- _ => injection H as ? ?
    | H : Panic = Ok _ |- _ => discriminate H
    | H : OutOfFuel = Ok _ |- _ => discriminate H
    | v : (_ * _)%type |- _ => destruct v
    end.

(** ** Nodes *)

Lemma Node_ind' (P : Node -> Prop) :
  (forall q st ch, Forall P ch -> P (mkNode q st ch)) -> forall n, P n.
Proof.
  intros H. fix IH 1. intros [q st ch]. apply H.
  induction ch as [| c ch IHch]; constructor; [apply IH | exact IHch].
Qed.

Lemma Shaped_incl S S' n : incl S S' -> Shaped S n -> Shaped S' n.
Proof.
  intros Hi. induction n as [q st ch IH] using Node_ind'. intros Hs.
  inversion Hs; subst.
  - constructor.
  - constructor. auto.
  - constructor; [assumption |].
    rewrite Forall_forall in *. intros n Hn. apply IH; auto.
Qed.

(** What the loop of [insertIntoChild] does: nothing when no child is in
    range, and otherwise one insertion, into the first child in range. *)
Lemma insertIntoChildren_Ok ins pos cs h cs' h' :
  insertIntoChildren ins pos cs h = Ok (cs', h') ->
  (cs' = cs /\ h' = h /\ Forall (fun c => inRange pos (sector c) = false) cs)
  \/ (exists l1 c l2 c',
        cs = l1 ++ c :: l2 /\ cs' = l1 ++ c' :: l2
        /\ Forall (fun c => inRange pos (sector c) = false) l1
        /\ inRange pos (sector c) = true
        /\ ins c h = Ok (c', h')).
Proof.
  revert cs' h'. induction cs as [| c cs IH]; intros cs' h' H; simpl in H.
  - inv_ok. subst. left. auto.
  - destruct (inRange pos (sector c)) eqn:Hr.
    + inv_ok. subst. right. exists [], c, cs, n. simpl. auto.
    + inv_ok. subst. destruct (IH _ _ E) as [[-> [-> Hf]] | [l1 [c0 [l2 [c' Hx]]]]].
      * left. auto.
      * destruct Hx as [-> [-> [Hf [Hr0 Hi]]]].
        right. exists (c :: l1), c0, l2, c'. simpl. auto.
Qed.

(** ** Shape of the built trees and effect of the build on the store *)

Lemma StoreEffect_incl S S' a h h' :
  incl S S' -> StoreEffect S a h h' -> StoreEffect S' a h h'.
Proof.
  intros Hi [-> | [e [se [sa [He Hx]]]]]; [left; reflexivity |].
  right. exists e, se, sa. split; [apply Hi; exact He | exact Hx].
Qed.

Lemma StoreEffect_nil a h h' : StoreEffect [] a h h' -> h' = h.
Proof. intros [-> | [e [se [sa [[] _]]]]]. reflexivity. Qed.

Lemma initializeQuadrant_Shaped S q : Forall (Shaped S) (initializeQuadrant q).
Proof. unfold initializeQuadrant, emptyNode. repeat constructor. Qed.

Section InsertShape.

Variable fuel : nat.
Hypothesis IHfuel :
  forall S node a h node' h',
    Shaped S node ->
    insertStar fuel node (Real a) h = Ok (node', h') ->
    Shaped (a :: S) node' /\ StoreEffect S a h h'.

Lemma insertIntoChild_shaped S q st ch a h node' h' :
  Forall (Shaped S) ch ->
  insertIntoChild (insertStar fuel) (mkNode q st ch) (Real a) h = Ok (node', h') ->
  exists ch',
    node' = mkNode q st ch' /\ length ch' = length ch
    /\ Forall (Shaped (a :: S)) ch' /\ StoreEffect S a h h'.
Proof.
  intros Hch H. unfold insertIntoChild in H. simpl in H.
  destruct ch as [| c ch].
  - inv_ok. subst. exists []. repeat split; auto. left; reflexivity.
  - inv_ok. subst.
    assert (Hw : Forall (Shaped (a :: S)) (c :: ch)).
    { eapply Forall_impl; [| exact Hch]. intros n. apply Shaped_incl.
      intros b Hb; right; exact Hb. }
    apply insertIntoChildren_Ok in E0.
    destruct E0 as [[-> [-> _]] | [l1 [c0 [l2 [c' [Hcs [-> [_ [_ Hins]]]]]]]]].
    + eexists. repeat split; auto. left; reflexivity.
    + rewrite Hcs in *. apply Forall_app in Hch. destruct Hch as [_ Hch].
      inversion Hch as [| ? ? Hc0 _]; subst.
      destruct (IHfuel _ _ _ _ _ _ Hc0 Hins) as [Hc' He].
      eexists. repeat split; eauto.
      * rewrite !length_app. reflexivity.
      * apply Forall_app in Hw. destruct Hw as [Hw1 Hw2].
        apply Forall_app. split; [exact Hw1 |].
        inversion Hw2; subst. constructor; assumption.
Qed.

End InsertShape.

Lemma calculateCenterOfMass_star q st ch h node' :
  calculateCenterOfMass (mkNode q st ch) h = Ok node' ->
  exists st', node' = mkNode q st' ch
              /\ (st' = st \/ exists d, st' = Some (Dummy d)).
Proof.
  unfold calculateCenterOfMass. simpl. destruct ch as [| c ch].
  - intros H. inv_ok. subst. eauto.
  - intros H.
    destruct (sumChildren h (c :: ch) (0, 0, 0)) as [[[m px] py] | |];
      simpl in H; try discriminate H.
    destruct (Rgtb m 0); inv_ok; subst; eauto.
Qed.

(** The three cases of [insertStar], as equations. *)
Lemma insertStar_empty fuel q st h :
  insertStar (S fuel) (mkNode q None []) st h = Ok (mkNode q (Some st) [], h).
Proof. reflexivity. Qed.

Lemma insertStar_inner fuel q s0 c ch st h :
  insertStar (S fuel) (mkNode q s0 (c :: ch)) st h
  = ('(node1, h1) <- updateCenterOfMass (mkNode q s0 (c :: ch)) st h ;;
     insertIntoChild (insertStar fuel) node1 st h1).
Proof. simpl. destruct s0; reflexivity. Qed.

Lemma insertStar_leaf fuel q existing st h :
  insertStar (S fuel) (mkNode q (Some existing) []) st h
  = (e <- orPanic (deref h existing) ;;
     s <- orPanic (deref h st) ;;
     if Reqb (x (position e)) (x (position s))
        && Reqb (y (position e)) (y (position s))
     then
       match existing with
       | Real a => Ok (mkNode q (Some existing) [], store h a (setMass e (mass s)))
       | Dummy d => Ok (mkNode q (Some (Dummy (setMass d (mass s)))) [], h)
       end
     else
       '(node2, h2) <- insertIntoChild (insertStar fuel)
                         (mkNode q None (initializeQuadrant q)) existing h ;;
       '(node3, h3) <- insertIntoChild (insertStar fuel) node2 st h2 ;;
       node4 <- calculateCenterOfMass node3 h3 ;;
       Ok (node4, h3)).
Proof. reflexivity. Qed.

Lemma insertStar_shaped fuel :
  forall S node a h node' h',
    Shaped S node ->
    insertStar fuel node (Real a) h = Ok (node', h') ->
    Shaped (a :: S) node' /\ StoreEffect S a h h'.
Proof.
  induction fuel as [| fuel IH]; intros S node a h node' h' Hs H.
  - discriminate H.
  - inversion Hs as [q | q e He | q st c ch Hst Hch]; subst.
    + rewrite insertStar_empty in H. inv_ok. subst.
      split; [constructor; left; reflexivity | left; reflexivity].
    + rewrite insertStar_leaf in H. simpl deref in H.
      destruct (load h e) as [se |] eqn:Hle; simpl in H; [| discriminate H].
      destruct (load h a) as [sa |] eqn:Hla; simpl in H; [| discriminate H].
      destruct (Reqb (x (position se)) (x (position sa))
                && Reqb (y (position se)) (y (position sa))) eqn:Hpos.
      * inv_ok. subst. split; [constructor; right; exact He |].
        right. exists e, se, sa. apply andb_true_iff in Hpos.
        rewrite !Reqb_spec in Hpos.
        repeat split; auto.
        destruct (position se), (position sa). simpl in *. f_equal; tauto.
      * destruct (insertIntoChild (insertStar fuel)
                    (mkNode q None (initializeQuadrant q)) (Real e) h)
          as [[node2 h2] | |] eqn:E1; simpl in H; try discriminate H.
        destruct (insertIntoChild (insertStar fuel) node2 (Real a) h2)
          as [[node3 h3] | |] eqn:E2; simpl in H; try discriminate H.
        destruct (calculateCenterOfMass node3 h3) as [node4 | |] eqn:E3;
          simpl in H; try discriminate H.
        inv_ok. subst node4 h3.
        apply (insertIntoChild_shaped fuel IH []) in E1;
          [| apply initializeQuadrant_Shaped].
        destruct E1 as [ch2 [-> [Hlen2 [Hch2 Hh2]]]].
        apply StoreEffect_nil in Hh2. subst h2.
        apply (insertIntoChild_shaped fuel IH S) in E2.
        2:{ eapply Forall_impl; [| exact Hch2]. intros n0. apply Shaped_incl.
            intros b [<- | []]. exact He. }
        destruct E2 as [ch3 [-> [Hlen [Hch3 Hh3]]]].
        apply calculateCenterOfMass_star in E3.
        destruct E3 as [st' [-> Hst']].
        split; [| exact Hh3].
        destruct ch3 as [| c3 ch3].
        { rewrite Hlen2 in Hlen. discriminate Hlen. }
        constructor; [destruct Hst' as [-> | Hd]; auto | exact Hch3].
    + rewrite insertStar_inner in H.
      assert (Hup : (exists d, updateCenterOfMass (mkNode q st (c :: ch)) (Real a) h
                               = Ok (mkNode q (Some (Dummy d)) (c :: ch), h))
                    \/ updateCenterOfMass (mkNode q st (c :: ch)) (Real a) h = Panic).
      { unfold updateCenterOfMass. simpl.
        destruct Hst as [-> | [d ->]]; destruct (load h a); simpl; eauto. }
      destruct Hup as [[d Hup] | Hup]; rewrite Hup in H; simpl in H; [| discriminate H].
      apply (insertIntoChild_shaped fuel IH S) in H; [| exact Hch].
      destruct H as [ch' [-> [Hlen [Hch' Hh']]]].
      split; [| exact Hh'].
      destruct ch' as [| c' ch']; [discriminate Hlen |].
      constructor; [right; eauto | exact Hch'].
Qed.

Lemma StoreEffect_frame S a h h' :
  StoreEffect S a h h' ->
  length h' = length h /\ forall b, ~ In b S -> load h' b = load h b.
Proof.
  intros [-> | [e [se [sa [He [_ [_ [_ ->]]]]]]]].
  - auto.
  - split; [apply length_store |].
    intros b Hb. apply load_store_other. intros ->. contradiction.
Qed.

Lemma insertAll_shaped fuel l :
  forall S node h node' h',
    Shaped S node ->
    insertAll fuel node l h = Ok (node', h') ->
    Shaped (rev l ++ S) node'
    /\ length h' = length h
    /\ forall b, ~ In b (l ++ S) -> load h' b = load h b.
Proof.
  induction l as [| a l IH]; intros S node h node' h' Hs H; simpl in H.
  - inv_ok. subst. auto.
  - destruct (insertStar fuel node (Real a) h) as [[n1 h1] | |] eqn:E;
      simpl in H; try discriminate H.
    destruct (insertStar_shaped _ _ _ _ _ _ _ Hs E) as [Hs1 He1].
    destruct (StoreEffect_frame _ _ _ _ He1) as [Hlen1 Hfr1].
    destruct (IH _ _ _ _ _ Hs1 H) as [Hs' [Hlen' Hfr']].
    split; [| split].
    + simpl. rewrite <- app_assoc. exact Hs'.
    + congruence.
    + intros b Hb. rewrite Hfr'.
      * apply Hfr1. intros Hin. apply Hb. simpl. right. apply in_or_app. auto.
      * intros Hin. apply Hb. simpl. apply in_app_or in Hin.
        destruct Hin as [Hin | [-> | Hin]]; auto.
        -- right. apply in_or_app. auto.
        -- right. apply in_or_app. auto.
Qed.

Lemma insertAll_distinct fuel l :
  forall S node h node' h',
    Shaped S node ->
    (forall a e, In a l -> In e S -> apart h e a) ->
    distinctPositions h l ->
    insertAll fuel node l h = Ok (node', h') ->
    h' = h.
Proof.
  induction l as [| a l IH]; intros S node h node' h' Hs Hap Hd H; simpl in H.
  - inv_ok. subst. auto.
  - destruct (insertStar fuel node (Real a) h) as [[n1 h1] | |] eqn:E;
      simpl in H; try discriminate H.
    destruct (insertStar_shaped _ _ _ _ _ _ _ Hs E) as [Hs1 He1].
    destruct Hd as [Ha Hd].
    assert (h1 = h) as ->.
    { destruct He1 as [-> | [e [se [sa [He [Hle [Hla [Hp _]]]]]]]]; [reflexivity |].
      exfalso. apply (Hap a e (or_introl eq_refl) He se sa Hle Hla Hp). }
    apply (IH (a :: S) n1 h node' h' Hs1); auto.
    intros b e Hb [<- | He].
    + apply Ha. exact Hb.
    + apply Hap; [right; exact Hb | exact He].
Qed.

(** The traversal reads the store at the stars of the leaves and at the query
    star only. *)
Lemma CalculateNetForce_frame S h h' q theta :
  (forall b, In b S -> load h' b = load h b) ->
  load h' q = load h q ->
  forall node, Shaped S node ->
    CalculateNetForce h' node q theta = CalculateNetForce h node q theta.
Proof.
  intros HS Hq. induction node as [sec st ch IH] using Node_ind'. intros Hs.
  rewrite !CalculateNetForce_node.
  assert (Hd : forall r, st = Some r -> deref h' r = deref h r).
  { intros r ->. inversion Hs as [| ? a Ha | ? ? ? ? Hst _]; subst.
    - simpl. apply HS. exact Ha.
    - destruct Hst as [Hst | [d Hst]]; [discriminate Hst |].
      injection Hst as ->. reflexivity. }
  assert (Hl : forall force,
             forceLoop h' q theta ch force = forceLoop h q theta ch force).
  { assert (Hch : Forall (Shaped S) ch).
    { inversion Hs; subst; auto. }
    clear Hs Hd. induction ch as [| c ch IHch]; intros force; simpl.
    - reflexivity.
    - inversion IH as [| ? ? IHc IHr]; subst.
      inversion Hch as [| ? ? Hc Hr]; subst.
      destruct (star c).
      + rewrite (IHc Hc). destruct (CalculateNetForce h c q theta); simpl; auto.
      + auto. }
  destruct st as [r |]; simpl; [| reflexivity].
  rewrite (Hd r eq_refl), Hq.
  destruct (deref h r) as [ns |]; simpl; [| reflexivity].
  destruct (load h q) as [cs |]; simpl; [| reflexivity].
  destruct (Reqb (computeDistance ns cs) 0 || sameStar r q); [reflexivity |].
  rewrite Hl. reflexivity.
Qed.

(** ** One step of the integrator *)

Lemma store_store h a s s' : store (store h a s) a s' = store h a s'.
Proof.
  revert a. induction h as [| s0 h IH]; intros [| a]; simpl; auto. f_equal. apply IH.
Qed.

Lemma copyAll_Ok l :
  forall h l' h',
    Forall (fun a => (a < length h)%nat) l ->
    copyAll l h = Ok (l', h') ->
    l' = seq (length h) (length l)
    /\ length h' = (length h + length l)%nat
    /\ (forall b, (b < length h)%nat -> load h' b = load h b)
    /\ forall i a, nth_error l i = Some a ->
         exists s, load h a = Some s
                   /\ load h' (length h + i)%nat = Some (copyStars s).
Proof.
  induction l as [| a l IH]; intros h l' h' Hv H; simpl in H.
  - inv_ok. subst. simpl. repeat split; auto; try lia.
    intros [| i] b Hb; discriminate Hb.
  - destruct (load h a) as [s |] eqn:Hs; simpl in H; [| discriminate H].
    destruct (copyAll l (h ++ [copyStars s])) as [[r h2] | |] eqn:E;
      simpl in H; try discriminate H.
    inv_ok. subst.
    inversion Hv as [| ? ? Ha Hl]; subst.
    assert (Hv' : Forall (fun b => (b < length (h ++ [copyStars s]))%nat) l).
    { eapply Forall_impl; [| exact Hl]. intros b Hb. simpl in Hb. rewrite length_app. simpl. lia. }
    destruct (IH _ _ _ Hv' E) as [-> [Hlen [Hold Hnew]]].
    rewrite length_app in *. simpl in *.
    repeat split.
    + f_equal. f_equal. lia.
    + lia.
    + intros b Hb. rewrite Hold by lia. apply load_app_l. exact Hb.
    + intros [| i] b Hb; simpl in Hb.
      * injection Hb as <-. exists s. split; [exact Hs |].
        rewrite Nat.add_0_r, Hold by lia. apply load_app_new.
      * destruct (Hnew i b Hb) as [s' [Hs' Hc]].
        rewrite Forall_forall in Hl. apply nth_error_In in Hb.
        rewrite load_app_l in Hs' by (apply Hl; exact Hb).
        exists s'. split; [exact Hs' |].
        replace (length h + S i)%nat with (length h + 1 + i)%nat by lia. exact Hc.
Qed.

Lemma updateOne_Ok tree time theta a h h' :
  updateOne tree time theta a h = Ok h' ->
  exists s F,
    load h a = Some s
    /\ CalculateNetForce h (root tree) a theta = Ok F
    /\ h' = store h a (stepStar s F time).
Proof.
  unfold updateOne. intros H.
  destruct (load h a) as [s |] eqn:Hs; simpl in H; [| discriminate H].
  destruct (CalculateNetForce h (root tree) a theta) as [F | |] eqn:HF;
    simpl in H; try discriminate H.
  pose proof (load_Some_lt _ _ _ Hs) as Hlt.
  rewrite load_store_same in H by exact Hlt. simpl in H.
  rewrite load_store_same in H by (rewrite length_store; exact Hlt). simpl in H.
  rewrite !store_store in H. inv_ok. subst.
  exists s, F. auto.
Qed.

Lemma updateAll_Ok tree time theta S l :
  forall h h',
    NoDup l ->
    Shaped S (root tree) ->
    (forall a, In a l -> ~ In a S) ->
    updateAll tree time theta l h = Ok h' ->
    length h' = length h
    /\ (forall b, ~ In b l -> load h' b = load h b)
    /\ forall a, In a l ->
         exists s F,
           load h a = Some s
           /\ CalculateNetForce h (root tree) a theta = Ok F
           /\ load h' a = Some (stepStar s F time).
Proof.
  induction l as [| a l IH]; intros h h' Hnd Hs Hdis H; simpl in H.
  - inv_ok. subst. repeat split; auto. intros a [].
  - destruct (updateOne tree time theta a h) as [h1 | |] eqn:E;
      simpl in H; try discriminate H.
    destruct (updateOne_Ok _ _ _ _ _ _ E) as [s [F [Hls [HF ->]]]].
    inversion Hnd as [| ? ? Hna Hnd']; subst.
    destruct (IH _ _ Hnd' Hs (fun b Hb => Hdis b (or_intror Hb)) H)
      as [Hlen [Hfr Hst]].
    rewrite length_store in Hlen.
    pose proof (load_Some_lt _ _ _ Hls) as Hlt.
    repeat split.
    + exact Hlen.
    + intros b Hb. rewrite Hfr by (intros Hin; apply Hb; right; exact Hin).
      apply load_store_other. intros ->. apply Hb. left. reflexivity.
    + intros b [Heq | Hb].
      * subst b. exists s, F. repeat split; auto.
        rewrite Hfr by exact Hna. apply load_store_same. exact Hlt.
      * destruct (Hst b Hb) as [sb [Fb [Hlb [HFb Hb']]]].
        assert (Hab : a <> b) by (intros ->; contradiction).
        rewrite load_store_other in Hlb by exact Hab.
        exists sb, Fb. repeat split; auto.
        rewrite <- HFb. symmetry.
        apply (CalculateNetForce_frame S); [| | exact Hs].
        -- intros c Hc. apply load_store_other. intros Hac. subst c.
           apply (Hdis a (or_introl eq_refl) Hc).
        -- apply load_store_other. exact Hab.
Qed.

Lemma nth_error_lt {A : Type} (l : list A) i a :
  nth_error l i = Some a -> (i < length l)%nat.
Proof. intros H. apply nth_error_Some. congruence. Qed.

Lemma updateUniverse_Ok fuel u time theta h u' h' :
  Forall (fun a => (a < length h)%nat) (stars u) ->
  updateUniverse fuel u time theta h = Ok (u', h') ->
  exists hc tree ht,
    copyUniverse u h = Ok (u', hc)
    /\ GenerateQuadTree fuel u hc = Ok (tree, ht)
    /\ uwidth u' = uwidth u
    /\ stars u' = seq (length h) (length (stars u))
    /\ length h' = (length h + length (stars u))%nat
    /\ (forall b, (b < length h)%nat -> ~ In b (stars u) -> load h' b = load h b)
    /\ forall i a, nth_error (stars u) i = Some a ->
         exists s F,
           load h a = Some s
           /\ CalculateNetForce ht (root tree) (length h + i)%nat theta = Ok F
           /\ load h' (length h + i)%nat = Some (stepStar s F time).
Proof.
  intros Hv H. unfold updateUniverse in H.
  destruct (copyUniverse u h) as [[nu hc] | |] eqn:Ec; simpl in H; try discriminate H.
  destruct (GenerateQuadTree fuel u hc) as [[tree ht] | |] eqn:Et;
    simpl in H; try discriminate H.
  destruct (updateAll tree time theta (stars nu) ht) as [h3 | |] eqn:Eu;
    simpl in H; try discriminate H.
  inv_ok. subst nu h3.
  exists hc, tree, ht. split; [reflexivity |]. split; [exact Et |].
  unfold copyUniverse in Ec.
  destruct (copyAll (stars u) h) as [[l' hc'] | |] eqn:Ea; simpl in Ec;
    try discriminate Ec.
  inv_ok. subst u' hc'. simpl in *.
  destruct (copyAll_Ok _ _ _ _ Hv Ea) as [-> [Hlenc [Holdc Hnewc]]].
  unfold GenerateQuadTree in Et.
  destruct (insertAll fuel (emptyNode (mkQuadrant 0 0 (uwidth u))) (stars u) hc)
    as [[r ht'] | |] eqn:Ei; simpl in Et; try discriminate Et.
  inv_ok. subst tree ht'.
  destruct (insertAll_shaped _ _ _ _ _ _ _ (Shaped_empty [] _) Ei)
    as [Hshape [Hlent Hfrt]].
  rewrite app_nil_r in Hshape, Hfrt.
  assert (Hdisj : forall a, In a (seq (length h) (length (stars u))) ->
                            ~ In a (rev (stars u))).
  { intros a Ha Hin. apply in_seq in Ha. apply in_rev in Hin.
    rewrite Forall_forall in Hv. apply Hv in Hin. lia. }
  destruct (updateAll_Ok (mkQuadTree r) _ _ _ _ _ _ (seq_NoDup _ _) Hshape Hdisj Eu)
    as [Hlenu [Hfru Hstep]].
  split; [reflexivity |]. split; [reflexivity |].
  split; [rewrite Hlenu, Hlent, Hlenc; reflexivity |]. split.
  - intros b Hb Hnb. rewrite Hfru by (rewrite in_seq; lia).
    rewrite Hfrt by exact Hnb. apply Holdc. exact Hb.
  - intros i a Hi.
    destruct (Hnewc i a Hi) as [s [Hs Hcopy]].
    assert (Hin : In (length h + i)%nat (seq (length h) (length (stars u)))).
    { apply in_seq. apply nth_error_lt in Hi. lia. }
    destruct (Hstep _ Hin) as [s0 [F [Hs0 [HF Hnew]]]].
    rewrite Hfrt in Hs0.
    2:{ intros Hin'. rewrite Forall_forall in Hv. apply Hv in Hin'. lia. }
    rewrite Hcopy, copyStars_id in Hs0. injection Hs0 as <-.
    exists s, F. auto.
Qed.

(** C1. One integration step. Let the step on universe [u] return [u'].
    Every body [i], with state [s] before the step, has in [u'] a state [s']
    where: the acceleration is the net force [F] of the traversal of the tree
    built from [u] divided by the mass of the body; the velocity is
    [v_old + 1/2 (a_new + a_old) dt]; the position is
    [p_old + v_old dt + 1/2 a_old dt^2], from the old velocity and the old
    acceleration; mass, radius and colour are carried over. *)
Theorem C1_integration_step (fuel : nat) (u : Universe) (time theta : R)
  (h : Heap) (u' : Universe) (h' : Heap) :
  Forall (fun a => (a < length h)%nat) (stars u) ->
  updateUniverse fuel u time theta h = Ok (u', h') ->
  exists hc tree ht,
    copyUniverse u h = Ok (u', hc)
    /\ GenerateQuadTree fuel u hc = Ok (tree, ht)
    /\ length (stars u') = length (stars u)
    /\ forall i a, nth_error (stars u) i = Some a ->
         exists a' s s' F,
           nth_error (stars u') i = Some a'
           /\ load h a = Some s /\ load h' a' = Some s'
           /\ CalculateNetForce ht (root tree) a' theta = Ok F
           /\ x (acceleration s') = x F / mass s
           /\ y (acceleration s') = y F / mass s
           /\ x (velocity s')
              = x (velocity s) + 1 / 2 * (x (acceleration s') + x (acceleration s)) * time
           /\ y (velocity s')
              = y (velocity s) + 1 / 2 * (y (acceleration s') + y (acceleration s)) * time
           /\ x (position s')
              = x (position s) + x (velocity s) * time
                + 1 / 2 * x (acceleration s) * (time * time)
           /\ y (position s')
              = y (position s) + y (velocity s) * time
                + 1 / 2 * y (acceleration s) * (time * time)
           /\ mass s' = mass s /\ radius s' = radius s
           /\ red s' = red s /\ green s' = green s /\ blue s' = blue s.
Proof.
  intros Hv H.
  destruct (updateUniverse_Ok _ _ _ _ _ _ _ Hv H)
    as [hc [tree [ht [Hc [Ht [_ [Hst [_ [_ Hstep]]]]]]]]].
  exists hc, tree, ht. split; [exact Hc |]. split; [exact Ht |].
  split; [rewrite Hst; apply length_seq |].
  intros i a Hi. destruct (Hstep i a Hi) as [s [F [Hs [HF Hs']]]].
  exists (length h + i)%nat, s, (stepStar s F time), F.
  split.
  { rewrite Hst. apply nth_error_lt in Hi.
    rewrite nth_error_seq. destruct (Nat.ltb_spec i (length (stars u))); [reflexivity | lia]. }
  repeat (split; [first [assumption | reflexivity | (simpl; lra)] |]).
  reflexivity.
Qed.

(** ** Sums over bodies *)

Lemma sumOver_app h f l1 l2 :
  sumOver h f (l1 ++ l2) = sumOver h f l1 + sumOver h f l2.
Proof.
  induction l1 as [| a l1 IH]; simpl.
  - lra.
  - destruct (load h a); rewrite IH; lra.
Qed.

Lemma sumOver_perm h f l1 l2 :
  Permutation l1 l2 -> sumOver h f l1 = sumOver h f l2.
Proof.
  induction 1 as [| a l1 l2 _ IH | a b l | l1 l2 l3 _ IH1 _ IH2]; simpl.
  - reflexivity.
  - rewrite IH. reflexivity.
  - destruct (load h a), (load h b); lra.
  - congruence.
Qed.

Lemma sumOver_cons h f a s l :
  load h a = Some s -> sumOver h f (a :: l) = f s + sumOver h f l.
Proof. intros H. simpl. rewrite H. reflexivity. Qed.

Lemma sumOver_mass_nonneg h l :
  (forall a s, In a l -> load h a = Some s -> 0 < mass s) ->
  0 <= sumOver h mass l.
Proof.
  induction l as [| a l IH]; intros H; simpl.
  - lra.
  - assert (0 <= sumOver h mass l) by (apply IH; intros; eapply H; eauto; right; auto).
    destruct (load h a) as [s |] eqn:E; [| assumption].
    pose proof (H a s (or_introl eq_refl) E). lra.
Qed.

(** ** Quadrants *)

Lemma bodies_leaf q st : bodies (mkNode q st []) =
  match st with Some (Real a) => [a] | _ => [] end.
Proof. reflexivity. Qed.

Lemma bodies_inner q st c ch :
  bodies (mkNode q st (c :: ch)) = flat_map bodies (c :: ch).
Proof. reflexivity. Qed.

Lemma quadrants_inv q (ch : list Node) :
  map sector ch = map sector (initializeQuadrant q) ->
  exists c0 c1 c2 c3,
    ch = [c0; c1; c2; c3]
    /\ sector c0 = mkQuadrant (qx q) (qy q + width q / 2) (width q / 2)
    /\ sector c1 = mkQuadrant (qx q + width q / 2) (qy q + width q / 2) (width q / 2)
    /\ sector c2 = mkQuadrant (qx q) (qy q) (width q / 2)
    /\ sector c3 = mkQuadrant (qx q + width q / 2) (qy q) (width q / 2).
Proof.
  intros H. simpl in H.
  destruct ch as [| c0 [| c1 [| c2 [| c3 [| c4 ch]]]]]; try discriminate H.
  injection H as H0 H1 H2 H3. exists c0, c1, c2, c3. auto.
Qed.

Lemma quadrants_bodies q st ch :
  map sector ch = map sector (initializeQuadrant q) ->
  bodies (mkNode q st ch) = flat_map bodies ch.
Proof.
  intros H. destruct (quadrants_inv _ _ H) as [c0 [c1 [c2 [c3 [-> _]]]]].
  reflexivity.
Qed.

(** The four quadrants cover their sector. *)
Lemma quadrants_cover q ch pos :
  map sector ch = map sector (initializeQuadrant q) ->
  inRange pos q = true ->
  Forall (fun c => inRange pos (sector c) = false) ch ->
  False.
Proof.
  intros H Hin Hout.
  destruct (quadrants_inv _ _ H) as [c0 [c1 [c2 [c3 [-> [H0 [H1 [H2 H3]]]]]]]].
  inversion Hout as [| ? ? F0 Hout1]; subst.
  inversion Hout1 as [| ? ? F1 Hout2]; subst.
  inversion Hout2 as [| ? ? F2 Hout3]; subst.
  inversion Hout3 as [| ? ? F3 _]; subst.
  rewrite inRange_false_iff in F0, F1, F2, F3.
  rewrite inRange_spec in Hin.
  rewrite H0 in F0. rewrite H1 in F1. rewrite H2 in F2. rewrite H3 in F3.
  simpl in *. lra.
Qed.

Lemma quadrants_width q ch c :
  map sector ch = map sector (initializeQuadrant q) ->
  In c ch -> width (sector c) = width q / 2.
Proof.
  intros H Hc.
  destruct (quadrants_inv _ _ H) as [c0 [c1 [c2 [c3 [-> [H0 [H1 [H2 H3]]]]]]]].
  simpl in Hc. destruct Hc as [<- | [<- | [<- | [<- | []]]]].
  - rewrite H0; reflexivity.
  - rewrite H1; reflexivity.
  - rewrite H2; reflexivity.
  - rewrite H3; reflexivity.
Qed.

(** A point of a quadrant is a point of the sector. *)
Lemma quadrants_sub q ch c pos :
  0 < width q ->
  map sector ch = map sector (initializeQuadrant q) ->
  In c ch -> inRange pos (sector c) = true -> inRange pos q = true.
Proof.
  intros Hw H Hc Hin.
  destruct (quadrants_inv _ _ H) as [c0 [c1 [c2 [c3 [-> [H0 [H1 [H2 H3]]]]]]]].
  rewrite inRange_spec in *.
  simpl in Hc. destruct Hc as [<- | [<- | [<- | [<- | []]]]].
  - rewrite H0 in Hin. simpl in Hin. lra.
  - rewrite H1 in Hin. simpl in Hin. lra.
  - rewrite H2 in Hin. simpl in Hin. lra.
  - rewrite H3 in Hin. simpl in Hin. lra.
Qed.

Lemma map_sector_replace l1 (c c' : Node) l2 :
  sector c' = sector c ->
  map sector (l1 ++ c' :: l2) = map sector (l1 ++ c :: l2).
Proof. intros H. rewrite !map_app. simpl. rewrite H. reflexivity. Qed.

Lemma flat_map_replace l1 (c c' : Node) l2 a :
  Permutation (bodies c') (a :: bodies c) ->
  Permutation (flat_map bodies (l1 ++ c' :: l2))
              (a :: flat_map bodies (l1 ++ c :: l2)).
Proof.
  intros H. rewrite !flat_map_app. simpl.
  rewrite H. simpl.
  apply Permutation_sym. apply Permutation_middle.
Qed.

(** ** The aggregate of a built node *)

Lemma Built_sector_width h n : Built h n -> 0 < width (sector n).
Proof. intros H. inversion H; subst; simpl; assumption. Qed.

Lemma Built_aggregate h n :
  Built h n ->
  match star n with
  | None => bodies n = []
  | Some r =>
      exists s, deref h r = Some s
                /\ 0 < mass s
                /\ mass s = sumOver h mass (bodies n)
                /\ xMoment s = sumOver h xMoment (bodies n)
                /\ yMoment s = sumOver h yMoment (bodies n)
  end.
Proof.
  intros H. inversion H as [q Hw | q a s Hw Hs Hm Hr | q d ch Hw Hsec Hch Hm HM HX HY];
    subst; simpl star.
  - reflexivity.
  - exists s. simpl. rewrite Hs. unfold xMoment, yMoment.
    repeat split; auto; lra.
  - exists d. rewrite (quadrants_bodies _ _ _ Hsec). simpl. auto.
Qed.

Lemma Ok_triple (a b c a' b' c' : R) :
  a = a' -> b = b' -> c = c' -> @Ok (R * R * R) (a, b, c) = Ok (a', b', c').
Proof. intros -> -> ->. reflexivity. Qed.

Lemma sumChildren_Built h ch :
  Forall (Built h) ch ->
  forall m px py,
    sumChildren h ch (m, px, py)
    = Ok (m + sumOver h mass (flat_map bodies ch),
          px + sumOver h xMoment (flat_map bodies ch),
          py + sumOver h yMoment (flat_map bodies ch)).
Proof.
  induction 1 as [| c ch Hc _ IH]; intros m px py; simpl.
  - apply Ok_triple; lra.
  - pose proof (Built_aggregate _ _ Hc) as Ha.
    rewrite !sumOver_app.
    destruct (star c) as [r |].
    + destruct Ha as [s [Hs [_ [HM [HX HY]]]]]. rewrite Hs. simpl.
      rewrite IH. unfold xMoment, yMoment in *. rewrite <- HM, <- HX, <- HY.
      apply Ok_triple; lra.
    + rewrite Ha. simpl. rewrite IH. apply Ok_triple; lra.
Qed.

(** ** Insertion keeps the aggregates *)

Lemma positions_differ (p p' : OrderedPair) :
  p <> p' -> Reqb (x p) (x p') && Reqb (y p) (y p') = false.
Proof.
  intros Hne. destruct (Reqb (x p) (x p') && Reqb (y p) (y p')) eqn:E; [| reflexivity].
  exfalso. apply Hne. apply andb_true_iff in E. rewrite !Reqb_spec in E.
  destruct p, p'. simpl in *. f_equal; tauto.
Qed.

Lemma initializeQuadrant_Built h q :
  0 < width q -> Forall (Built h) (initializeQuadrant q).
Proof.
  intros Hw. unfold initializeQuadrant, emptyNode.
  repeat constructor; simpl; lra.
Qed.

Lemma initializeQuadrant_bodies q : flat_map bodies (initializeQuadrant q) = [].
Proof. reflexivity. Qed.

Section InsertBuilt.

Variable fuel : nat.
Hypothesis IHfuel :
  forall node a s h node' h',
    Built h node ->
    load h a = Some s -> 0 < mass s ->
    inRange (position s) (sector node) = true ->
    (forall b, In b (bodies node) -> apart h b a) ->
    insertStar fuel node (Real a) h = Ok (node', h') ->
    h' = h /\ Built h node' /\ sector node' = sector node
    /\ Permutation (bodies node') (a :: bodies node).

Lemma insertIntoChild_built q st ch a s h node' h' :
  map sector ch = map sector (initializeQuadrant q) ->
  Forall (Built h) ch ->
  load h a = Some s -> 0 < mass s ->
  inRange (position s) q = true ->
  (forall b, In b (flat_map bodies ch) -> apart h b a) ->
  insertIntoChild (insertStar fuel) (mkNode q st ch) (Real a) h = Ok (node', h') ->
  exists ch',
    node' = mkNode q st ch' /\ h' = h
    /\ map sector ch' = map sector (initializeQuadrant q)
    /\ Forall (Built h) ch'
    /\ Permutation (flat_map bodies ch') (a :: flat_map bodies ch).
Proof.
  intros Hsec Hch Hs Hm Hin Hap H.
  unfold insertIntoChild in H. simpl children in H.
  destruct ch as [| c0 ch0] eqn:Ech.
  { destruct (quadrants_inv _ _ Hsec) as [? [? [? [? [Habs _]]]]]. discriminate Habs. }
  rewrite <- Ech in *. clear Ech c0 ch0.
  simpl deref in H. rewrite Hs in H. simpl in H.
  destruct (insertIntoChildren (fun c => insertStar fuel c (Real a)) (position s) ch h)
    as [[cs hh] | |] eqn:E; simpl in H; try discriminate H.
  inv_ok. subst node' hh.
  apply insertIntoChildren_Ok in E.
  destruct E as [[_ [_ Hout]] | [l1 [c [l2 [c' [Hcs [-> [_ [Hr Hins]]]]]]]]].
  - exfalso. exact (quadrants_cover _ _ _ Hsec Hin Hout).
  - subst ch.
    assert (Hc : Built h c).
    { apply Forall_app in Hch. destruct Hch as [_ Hch]. inversion Hch; assumption. }
    assert (Hapc : forall b, In b (bodies c) -> apart h b a).
    { intros b Hb. apply Hap. rewrite flat_map_app. apply in_or_app. right.
      simpl. apply in_or_app. left. exact Hb. }
    destruct (IHfuel _ _ _ _ _ _ Hc Hs Hm Hr Hapc Hins) as [-> [Hc' [Hsc Hp]]].
    exists (l1 ++ c' :: l2). repeat split.
    + rewrite (map_sector_replace _ _ _ _ Hsc). exact Hsec.
    + apply Forall_app in Hch. destruct Hch as [H1 H2].
      apply Forall_app. split; [exact H1 |].
      inversion H2; subst. constructor; assumption.
    + apply flat_map_replace. exact Hp.
Qed.

End InsertBuilt.

Lemma insertStar_built fuel :
  forall node a s h node' h',
    Built h node ->
    load h a = Some s -> 0 < mass s ->
    inRange (position s) (sector node) = true ->
    (forall b, In b (bodies node) -> apart h b a) ->
    insertStar fuel node (Real a) h = Ok (node', h') ->
    h' = h /\ Built h node' /\ sector node' = sector node
    /\ Permutation (bodies node') (a :: bodies node).
Proof.
  induction fuel as [| fuel IH]; intros node a s h node' h' Hb Hs Hm Hin Hap H.
  - discriminate H.
  - inversion Hb as [q Hw | q e se Hw Hse Hme Hre | q d ch Hw Hsec Hch Hmd HM HX HY];
      subst; simpl sector in *.
    + rewrite insertStar_empty in H. inv_ok. subst.
      repeat split; auto. econstructor; eauto.
    + rewrite insertStar_leaf in H. simpl deref in H.
      rewrite Hse, Hs in H. simpl in H.
      rewrite positions_differ in H.
      2:{ apply (Hap e (or_introl eq_refl) se s Hse Hs). }
      destruct (insertIntoChild (insertStar fuel)
                  (mkNode q None (initializeQuadrant q)) (Real e) h)
        as [[node2 h2] | |] eqn:E1; simpl in H; try discriminate H.
      destruct (insertIntoChild (insertStar fuel) node2 (Real a) h2)
        as [[node3 h3] | |] eqn:E2; simpl in H; try discriminate H.
      destruct (calculateCenterOfMass node3 h3) as [node4 | |] eqn:E3;
        simpl in H; try discriminate H.
      inv_ok. subst node4 h3.
      apply (insertIntoChild_built fuel IH _ _ _ _ se) in E1; auto.
      2:{ apply initializeQuadrant_Built. lra. }
      2:{ intros b []. }
      destruct E1 as [ch2 [-> [-> [Hsec2 [Hch2 Hp2]]]]].
      rewrite initializeQuadrant_bodies in Hp2.
      apply (insertIntoChild_built fuel IH _ _ _ _ s) in E2; auto.
      2:{ intros b Hb2. apply (Permutation_in _ Hp2) in Hb2.
          destruct Hb2 as [<- | []]. apply Hap. left. reflexivity. }
      destruct E2 as [ch3 [-> [-> [Hsec3 [Hch3 Hp3]]]]].
      assert (Hp : Permutation (flat_map bodies ch3) [a; e]).
      { rewrite Hp3. constructor. exact Hp2. }
      unfold calculateCenterOfMass in E3. simpl children in E3.
      destruct ch3 as [| c3 ch3'] eqn:Ech3.
      { apply Permutation_nil_cons in Hp. contradiction. }
      rewrite <- Ech3 in *. clear Ech3 c3 ch3'.
      rewrite (sumChildren_Built _ _ Hch3) in E3. simpl in E3.
      assert (HMs : sumOver h mass (flat_map bodies ch3) = mass s + mass se).
      { rewrite (sumOver_perm _ _ _ _ Hp). simpl. rewrite Hs, Hse. lra. }
      rewrite Rgtb_true in E3 by lra.
      inv_ok. subst node'.
      repeat split; auto.
      * apply Built_inner; auto; simpl; try lra.
        -- unfold xMoment. simpl. field. lra.
        -- unfold yMoment. simpl. field. lra.
      * rewrite (quadrants_bodies _ _ _ Hsec3). simpl. exact Hp.
    + destruct (quadrants_inv _ _ Hsec) as [k0 [k1 [k2 [k3 [Hk _]]]]].
      rewrite Hk in H. rewrite insertStar_inner in H. rewrite <- Hk in H.
      clear Hk k0 k1 k2 k3.
      unfold updateCenterOfMass in H. simpl star in H. simpl deref in H.
      rewrite Hs in H. simpl in H.
      rewrite (quadrants_bodies _ _ _ Hsec) in Hap.
      apply (insertIntoChild_built fuel IH _ _ _ _ s) in H; auto.
      destruct H as [ch' [-> [-> [Hsec' [Hch' Hp']]]]].
      repeat split; auto.
      * assert (Hd : mass d + mass s <> 0) by lra.
        assert (Hsum : forall f, sumOver h f (flat_map bodies ch')
                                 = f s + sumOver h f (flat_map bodies ch)).
        { intros f. rewrite (sumOver_perm _ _ _ _ Hp').
          apply sumOver_cons. exact Hs. }
        apply Built_inner; auto.
        -- simpl. lra.
        -- rewrite Hsum. simpl. lra.
        -- rewrite Hsum, <- HX. unfold xMoment. simpl. field. exact Hd.
        -- rewrite Hsum, <- HY. unfold yMoment. simpl. field. exact Hd.
      * rewrite !(quadrants_bodies _ _ _ Hsec'), (quadrants_bodies _ _ _ Hsec).
        exact Hp'.
Qed.

(** ** More fuel does not change a result *)

Lemma insertIntoChildren_mono
  (ins ins' : Node -> Heap -> result (Node * Heap)) pos cs h r :
  (forall c h0 r0, ins c h0 = Ok r0 -> ins' c h0 = Ok r0) ->
  insertIntoChildren ins pos cs h = Ok r ->
  insertIntoChildren ins' pos cs h = Ok r.
Proof.
  intros Hm. revert r. induction cs as [| c cs IH]; intros r H; simpl in *.
  - exact H.
  - destruct (inRange pos (sector c)).
    + destruct (ins c h) as [[c' h'] | |] eqn:E; simpl in H; try discriminate H.
      rewrite (Hm _ _ _ E). exact H.
    + destruct (insertIntoChildren ins pos cs h) as [[cs' h'] | |] eqn:E;
        simpl in H; try discriminate H.
      rewrite (IH _ eq_refl). exact H.
Qed.

Lemma insertIntoChild_mono
  (ins ins' : Node -> StarRef -> Heap -> result (Node * Heap)) node st h r :
  (forall c s0 h0 r0, ins c s0 h0 = Ok r0 -> ins' c s0 h0 = Ok r0) ->
  insertIntoChild ins node st h = Ok r ->
  insertIntoChild ins' node st h = Ok r.
Proof.
  intros Hm H. unfold insertIntoChild in *.
  destruct (children node) as [| c cs]; [exact H |].
  destruct (deref h st) as [s |]; cbn [orPanic bind] in *; [| discriminate H].
  destruct (insertIntoChildren (fun c0 => ins c0 st) (position s) (c :: cs) h)
    as [[cs' h'] | |] eqn:E; cbn [bind] in H; try discriminate H.
  rewrite (insertIntoChildren_mono _ (fun c0 => ins' c0 st) _ _ _ _
             (fun c0 h0 r0 => Hm c0 st h0 r0) E).
  exact H.
Qed.

Lemma insertStar_mono fuel :
  forall node st h r,
    insertStar fuel node st h = Ok r -> insertStar (S fuel) node st h = Ok r.
Proof.
  induction fuel as [| fuel IH]; intros [q s0 ch] st h r H.
  - discriminate H.
  - destruct ch as [| c ch].
    + destruct s0 as [existing |].
      * rewrite insertStar_leaf in H |- *.
        destruct (orPanic (deref h existing)) as [e | |]; cbn [bind] in *; try discriminate H.
        destruct (orPanic (deref h st)) as [s | |]; cbn [bind] in *; try discriminate H.
        destruct (Reqb (x (position e)) (x (position s))
                  && Reqb (y (position e)) (y (position s))); [exact H |].
        destruct (insertIntoChild (insertStar fuel)
                    (mkNode q None (initializeQuadrant q)) existing h)
          as [[node2 h2] | |] eqn:E1; cbn [bind] in H; try discriminate H.
        rewrite (insertIntoChild_mono _ (insertStar (S fuel)) _ _ _ _ IH E1). cbn [bind].
        destruct (insertIntoChild (insertStar fuel) node2 st h2)
          as [[node3 h3] | |] eqn:E2; cbn [bind] in H; try discriminate H.
        rewrite (insertIntoChild_mono _ (insertStar (S fuel)) _ _ _ _ IH E2). cbn [bind].
        exact H.
      * rewrite insertStar_empty in H |- *. exact H.
    + rewrite insertStar_inner in H |- *.
      destruct (updateCenterOfMass (mkNode q s0 (c :: ch)) st h)
        as [[node1 h1] | |]; cbn [bind] in *; try discriminate H.
      apply (insertIntoChild_mono _ (insertStar (S fuel)) _ _ _ _ IH H).
Qed.

Lemma insertStar_mono_le fuel fuel' node st h r :
  (fuel <= fuel')%nat ->
  insertStar fuel node st h = Ok r -> insertStar fuel' node st h = Ok r.
Proof.
  induction 1 as [| fuel' _ IH]; intros H; [exact H |].
  apply insertStar_mono. apply IH. exact H.
Qed.

Lemma insertAll_mono_le fuel fuel' l :
  (fuel <= fuel')%nat ->
  forall node h r,
    insertAll fuel node l h = Ok r -> insertAll fuel' node l h = Ok r.
Proof.
  intros Hle. induction l as [| a l IH]; intros node h r H; simpl in *.
  - exact H.
  - destruct (insertStar fuel node (Real a) h) as [[n1 h1] | |] eqn:E;
      simpl in H; try discriminate H.
    rewrite (insertStar_mono_le _ _ _ _ _ _ Hle E). simpl. apply IH. exact H.
Qed.

(** ** Insertion terminates *)

Lemma insertIntoChildren_total ins pos cs h :
  (forall c, In c cs -> inRange pos (sector c) = true -> exists r, ins c h = Ok r) ->
  exists r, insertIntoChildren ins pos cs h = Ok r.
Proof.
  induction cs as [| c cs IH]; intros H; simpl.
  - eexists. reflexivity.
  - destruct (inRange pos (sector c)) eqn:E.
    + destruct (H c (or_introl eq_refl) E) as [[c' h'] Hr]. rewrite Hr. simpl.
      eexists. reflexivity.
    + destruct IH as [[cs' h'] Hr].
      { intros c0 Hc0. apply H. right. exact Hc0. }
      rewrite Hr. simpl. eexists. reflexivity.
Qed.

Lemma insertIntoChild_total ins q st ch a s h :
  load h a = Some s ->
  (forall c, In c ch -> inRange (position s) (sector c) = true ->
             exists r, ins c (Real a) h = Ok r) ->
  exists r, insertIntoChild ins (mkNode q st ch) (Real a) h = Ok r.
Proof.
  intros Hs H. unfold insertIntoChild. simpl children.
  destruct ch as [| c ch]; [eexists; reflexivity |].
  simpl deref. rewrite Hs. cbn [orPanic bind].
  destruct (insertIntoChildren_total (fun c0 => ins c0 (Real a)) (position s) (c :: ch) h H)
    as [[cs' h'] Hr].
  rewrite Hr. simpl. eexists. reflexivity.
Qed.

(** After the split of an occupied leaf, the children are empty, but for at
    most one, which is a leaf with the star of the split node. *)
Lemma split_first fuel q e se h node2 h2 :
  load h e = Some se ->
  insertIntoChild (insertStar fuel) (mkNode q None (initializeQuadrant q)) (Real e) h
  = Ok (node2, h2) ->
  exists ch2,
    node2 = mkNode q None ch2 /\ h2 = h
    /\ Forall (fun c => c = emptyNode (sector c)
                        \/ c = mkNode (sector c) (Some (Real e)) []) ch2.
Proof.
  intros Hse H. unfold insertIntoChild in H.
  change (children (mkNode q None (initializeQuadrant q)))
    with (initializeQuadrant q) in H.
  assert (He : Forall (fun c => c = emptyNode (sector c)) (initializeQuadrant q)).
  { unfold initializeQuadrant. repeat constructor. }
  destruct (initializeQuadrant q) as [| c0 cs0] eqn:Eq; [discriminate Eq |].
  rewrite <- Eq in *. clear Eq c0 cs0.
  simpl deref in H. rewrite Hse in H. cbn [orPanic bind] in H.
  destruct (insertIntoChildren (fun c => insertStar fuel c (Real e)) (position se)
              (initializeQuadrant q) h) as [[cs hh] | |] eqn:E;
    cbn [bind] in H; try discriminate H.
  inv_ok. subst node2 hh.
  apply insertIntoChildren_Ok in E.
  destruct E as [[-> [-> _]] | [l1 [c [l2 [c' [Hcs [-> [_ [_ Hins]]]]]]]]].
  - eexists. repeat split. eapply Forall_impl; [| exact He]. intros c Hc. left. exact Hc.
  - rewrite Hcs in He. apply Forall_app in He. destruct He as [He1 He2].
    inversion He2 as [| ? ? Hc He3]; subst.
    rewrite Hc in Hins. unfold emptyNode in Hins.
    destruct fuel as [| fuel]; [discriminate Hins |].
    rewrite insertStar_empty in Hins. inv_ok. subst c' h2.
    eexists. repeat split. apply Forall_app. split.
    + eapply Forall_impl; [| exact He1]. intros c1 Hc1. left. exact Hc1.
    + constructor; [right; reflexivity |].
      eapply Forall_impl; [| exact He3]. intros c1 Hc1. left. exact Hc1.
Qed.

Lemma spread_lt_width q s1 s2 :
  inRange (position s1) q = true -> inRange (position s2) q = true ->
  spread s1 s2 < width q.
Proof.
  rewrite !inRange_spec. intros H1 H2. unfold spread.
  apply Rmax_lub_lt; apply Rabs_def1; lra.
Qed.

Lemma spread_pos s1 s2 : position s1 <> position s2 -> 0 < spread s1 s2.
Proof.
  intros Hne. unfold spread.
  destruct (Req_dec (x (position s1)) (x (position s2))) as [Hx | Hx].
  - destruct (Req_dec (y (position s1)) (y (position s2))) as [Hy | Hy].
    + exfalso. apply Hne. destruct (position s1), (position s2). simpl in *.
      f_equal; assumption.
    + eapply Rlt_le_trans; [| apply Rmax_r]. apply Rabs_pos_lt. lra.
  - eapply Rlt_le_trans; [| apply Rmax_l]. apply Rabs_pos_lt. lra.
Qed.

Lemma halving_reaches (w d : R) : 0 < d -> exists k : nat, w <= 2 ^ k * d.
Proof.
  intros Hd.
  assert (H2 : Rabs 2 > 1) by (rewrite Rabs_right; lra).
  destruct (Pow_x_infinity 2 H2 (w / d)) as [N HN].
  exists N. specialize (HN N (le_n N)).
  rewrite Rabs_right in HN by (apply Rle_ge; apply pow_le; lra).
  replace w with (w / d * d) by (field; lra).
  apply Rmult_le_compat_r; lra.
Qed.

Lemma insertStar_leaf_terminates k :
  forall q e a se s h,
    0 < width q ->
    load h e = Some se -> load h a = Some s ->
    0 < mass se -> 0 < mass s ->
    inRange (position se) q = true ->
    inRange (position s) q = true ->
    position se <> position s ->
    width q <= 2 ^ k * spread se s ->
    exists r, insertStar (S k) (mkNode q (Some (Real e)) []) (Real a) h = Ok r.
Proof.
  induction k as [| k IH]; intros q e a se s h Hw Hse Hs Hme Hm Hre Hr Hne Hk.
  - exfalso. pose proof (spread_lt_width _ _ _ Hre Hr). simpl in Hk. lra.
  - rewrite insertStar_leaf. simpl deref. rewrite Hse, Hs. cbn [orPanic bind].
    rewrite (positions_differ _ _ Hne).
    destruct (insertIntoChild_total (insertStar (S k)) q None (initializeQuadrant q)
                e se h Hse) as [[node2 h2] E1].
    { intros c Hc _. simpl in Hc.
      destruct Hc as [<- | [<- | [<- | [<- | []]]]]; eexists; apply insertStar_empty. }
    rewrite E1. cbn [bind].
    destruct (split_first _ _ _ _ _ _ _ Hse E1) as [ch2 [Hn2 [Hh2 Hshape]]].
    apply (insertIntoChild_built (S k) (insertStar_built (S k)) _ _ _ _ se) in E1; auto.
    2:{ apply initializeQuadrant_Built. exact Hw. }
    2:{ intros b []. }
    destruct E1 as [ch2' [Hn2' [_ [Hsec2 [Hch2 Hp2]]]]].
    rewrite Hn2 in Hn2'. injection Hn2' as <-. subst node2 h2.
    rewrite initializeQuadrant_bodies in Hp2.
    destruct (insertIntoChild_total (insertStar (S k)) q None ch2 a s h Hs)
      as [[node3 h3] E2].
    { intros c Hc Hrc.
      rewrite Forall_forall in Hshape, Hch2.
      destruct (Hshape c Hc) as [Hce | Hcl].
      - rewrite Hce. unfold emptyNode. eexists. apply insertStar_empty.
      - pose proof (Hch2 c Hc) as Hbc. rewrite Hcl in Hbc |- *.
        inversion Hbc as [| q0 e0 s0 Hw0 Hs0 Hm0 Hr0 |]; subst.
        rewrite Hse in Hs0. injection Hs0 as <-.
        apply (IH _ _ _ se s); auto.
        rewrite (quadrants_width _ _ _ Hsec2 Hc). simpl in Hk. lra. }
    rewrite E2. cbn [bind].
    apply (insertIntoChild_built (S k) (insertStar_built (S k)) _ _ _ _ s) in E2; auto.
    2:{ intros b Hb. apply (Permutation_in _ Hp2) in Hb. destruct Hb as [<- | []].
        intros s1 s2 H1 H2. rewrite Hse in H1. rewrite Hs in H2.
        injection H1 as <-. injection H2 as <-. exact Hne. }
    destruct E2 as [ch3 [-> [-> [Hsec3 [Hch3 Hp3]]]]].
    unfold calculateCenterOfMass. simpl children.
    destruct ch3 as [| c3 ch3'] eqn:Ech3; [eexists; reflexivity |].
    rewrite <- Ech3 in *.
    rewrite (sumChildren_Built _ _ Hch3). cbn [bind].
    destruct (Rgtb _ 0); eexists; reflexivity.
Qed.

Lemma common_fuel (P : Node -> bool) (st : StarRef) (h : Heap) (ch : list Node) :
  Forall (fun c => P c = true -> exists fuel r, insertStar fuel c st h = Ok r) ch ->
  exists fuel, forall c, In c ch -> P c = true ->
                         exists r, insertStar fuel c st h = Ok r.
Proof.
  induction 1 as [| c ch Hc _ [f2 IH]].
  - exists O. intros c [].
  - destruct (P c) eqn:E.
    + destruct (Hc eq_refl) as [f1 [r Hr]].
      exists (Nat.max f1 f2). intros c0 [<- | Hc0] Hp.
      * exists r. eapply insertStar_mono_le; [| exact Hr]. apply Nat.le_max_l.
      * destruct (IH c0 Hc0 Hp) as [r0 Hr0].
        exists r0. eapply insertStar_mono_le; [| exact Hr0]. apply Nat.le_max_r.
    + exists f2. intros c0 [<- | Hc0] Hp; [congruence |]. apply IH; assumption.
Qed.

Lemma insertStar_terminates h a s :
  load h a = Some s -> 0 < mass s ->
  forall node,
    Built h node ->
    inRange (position s) (sector node) = true ->
    (forall b, In b (bodies node) -> apart h b a) ->
    exists fuel r, insertStar fuel node (Real a) h = Ok r.
Proof.
  intros Hs Hm. induction node as [q st ch IH] using Node_ind'.
  intros Hb Hin Hap.
  inversion Hb as [q0 Hw | q0 e se Hw Hse Hme Hre | q0 d ch0 Hw Hsec Hch Hmd HM HX HY];
    subst; simpl sector in *.
  - exists 1%nat. eexists. apply insertStar_empty.
  - assert (Hne : position se <> position s).
    { apply (Hap e (or_introl eq_refl) se s Hse Hs). }
    destruct (halving_reaches (width q) (spread se s) (spread_pos _ _ Hne)) as [k Hk].
    exists (S k). apply (insertStar_leaf_terminates k _ _ _ se s); auto.
  - rewrite (quadrants_bodies _ _ _ Hsec) in Hap.
    assert (Hall : Forall (fun c => inRange (position s) (sector c) = true ->
                     exists fuel r, insertStar fuel c (Real a) h = Ok r) ch).
    { rewrite Forall_forall in *. intros c Hc Hrc. apply IH; auto.
      intros b Hbc. apply Hap. apply in_flat_map. exists c. auto. }
    destruct (common_fuel (fun c => inRange (position s) (sector c)) _ _ _ Hall)
      as [fuel Hfuel].
    exists (S fuel).
    destruct (quadrants_inv _ _ Hsec) as [k0 [k1 [k2 [k3 [Hk _]]]]].
    rewrite Hk. rewrite insertStar_inner. rewrite <- Hk.
    unfold updateCenterOfMass. simpl star. simpl deref. rewrite Hs. cbn [orPanic bind].
    apply (insertIntoChild_total (insertStar fuel) _ _ _ _ s); auto.
Qed.

(** ** The tree of a universe *)

Lemma insertAll_built h l :
  forall node,
    Built h node ->
    (forall a, In a l ->
       exists s, load h a = Some s /\ 0 < mass s
                 /\ inRange (position s) (sector node) = true) ->
    (forall a b, In a l -> In b (bodies node) -> apart h b a) ->
    distinctPositions h l ->
    exists fuel node',
      insertAll fuel node l h = Ok (node', h)
      /\ Built h node' /\ sector node' = sector node
      /\ Permutation (bodies node') (l ++ bodies node).
Proof.
  induction l as [| a l IH]; intros node Hb Hin Hap Hd.
  - exists O, node. simpl. auto.
  - destruct (Hin a (or_introl eq_refl)) as [s [Hs [Hm Hr]]].
    destruct Hd as [Ha Hd].
    assert (Hapa : forall b, In b (bodies node) -> apart h b a).
    { intros b Hbn. apply Hap; [left; reflexivity | exact Hbn]. }
    destruct (insertStar_terminates _ _ _ Hs Hm _ Hb Hr Hapa) as [f1 [[n1 h1] E1]].
    destruct (insertStar_built _ _ _ _ _ _ _ Hb Hs Hm Hr Hapa E1)
      as [-> [Hb1 [Hsec1 Hp1]]].
    destruct (IH n1 Hb1) as [f2 [node' [E2 [Hb' [Hsec' Hp']]]]].
    + intros b Hbl. rewrite Hsec1. apply Hin. right. exact Hbl.
    + intros a' b Ha' Hbn. apply (Permutation_in _ Hp1) in Hbn.
      destruct Hbn as [<- | Hbn].
      * apply Ha. exact Ha'.
      * apply Hap; [right; exact Ha' | exact Hbn].
    + exact Hd.
    + exists (Nat.max f1 f2), node'. split; [| split; [| split]].
      * simpl. rewrite (insertStar_mono_le _ _ _ _ _ _ (Nat.le_max_l f1 f2) E1).
        cbn [bind]. apply (insertAll_mono_le _ _ _ (Nat.le_max_r f1 f2)). exact E2.
      * exact Hb'.
      * congruence.
      * rewrite Hp', Hp1. simpl. apply Permutation_sym, Permutation_middle.
Qed.

Lemma GenerateQuadTree_built h u :
  0 < uwidth u ->
  (forall a, In a (stars u) -> inRoot h (uwidth u) a) ->
  distinctPositions h (stars u) ->
  exists fuel tree,
    (forall fuel', (fuel <= fuel')%nat -> GenerateQuadTree fuel' u h = Ok (tree, h))
    /\ Built h (root tree)
    /\ sector (root tree) = mkQuadrant 0 0 (uwidth u)
    /\ Permutation (bodies (root tree)) (stars u).
Proof.
  intros Hw Hin Hd.
  destruct (insertAll_built h (stars u) (emptyNode (mkQuadrant 0 0 (uwidth u))))
    as [fuel [node' [E [Hb [Hsec Hp]]]]].
  - apply Built_empty. exact Hw.
  - exact Hin.
  - intros a b _ [].
  - exact Hd.
  - exists fuel, (mkQuadTree node'). repeat split; auto.
    + intros fuel' Hle. unfold GenerateQuadTree.
      rewrite (insertAll_mono_le _ _ _ Hle _ _ _ E). reflexivity.
    + simpl in Hp. rewrite app_nil_r in Hp. exact Hp.
Qed.




(** ** The traversal with [theta = 0] *)

Lemma pair_eq (p p' : OrderedPair) : x p = x p' -> y p = y p' -> p = p'.
Proof. destruct p, p'. simpl. intros -> ->. reflexivity. Qed.











Lemma subnode_trans m c n : In c (children n) -> subnode m c -> subnode m n.
Proof. intros. eapply subnode_child; eauto. Qed.


Lemma inRoot_intro h w a s :
  load h a = Some s -> 0 < mass s ->
  0 <= x (position s) < w -> 0 <= y (position s) < w ->
  inRoot h w a.
Proof.
  intros Hs Hm Hx Hy. exists s. repeat split; auto.
  apply inRange_spec. simpl. lra.
Qed.

Lemma universeTwo_inRoot a : In a (stars universeTwo) -> inRoot heapTwo (uwidth universeTwo) a.
Proof.
  simpl. intros [<- | [<- | []]].
  - apply (inRoot_intro _ _ _ (starAt 1 1 1)); simpl; try reflexivity; lra.
  - apply (inRoot_intro _ _ _ (starAt 7 8 2)); simpl; try reflexivity; lra.
Qed.

Lemma universeTwo_distinct : distinctPositions heapTwo (stars universeTwo).
Proof.
  simpl. split; [| split; [intros b [] | exact I]].
  intros b [<- | []] sa sb Ha Hb. injection Ha as <-. injection Hb as <-.
  simpl. intros H. injection H as H1 H2. lra.
Qed.










(** ** Effect of the build on the input universe *)

Lemma GenerateQuadTree_shaped fuel u h t h' :
  GenerateQuadTree fuel u h = Ok (t, h') ->
  Shaped (stars u) (root t) /\ (distinctPositions h (stars u) -> h' = h).
Proof.
  unfold GenerateQuadTree. intros H.
  destruct (insertAll fuel (emptyNode (mkQuadrant 0 0 (uwidth u))) (stars u) h)
    as [[r hh] | |] eqn:E; simpl in H; try discriminate H.
  inv_ok. subst t hh. simpl root. split.
  - destruct (insertAll_shaped _ _ _ _ _ _ _ (Shaped_empty [] _) E) as [Hs _].
    eapply Shaped_incl; [| exact Hs]. rewrite app_nil_r.
    intros a Ha. apply in_rev. exact Ha.
  - intros Hd.
    apply (insertAll_distinct _ _ _ _ _ _ _ (Shaped_empty [] _)) in E; auto.
    intros a e _ [].
Qed.




(** ** The step returns *)

Lemma forceLoop_total h q theta ch :
  Forall (fun c => star c <> None ->
                   exists F, CalculateNetForce h c q theta = Ok F) ch ->
  forall acc, exists F, forceLoop h q theta ch acc = Ok F.
Proof.
  induction 1 as [| c ch Hc _ IH]; intros acc; simpl.
  - eexists. reflexivity.
  - destruct (star c) as [r |] eqn:Er.
    + destruct Hc as [F HF]; [discriminate |]. rewrite HF. cbn [bind]. apply IH.
    + apply IH.
Qed.

Lemma CalculateNetForce_total h q cs theta :
  load h q = Some cs ->
  forall node, Built h node -> star node <> None ->
               exists F, CalculateNetForce h node q theta = Ok F.
Proof.
  intros Hq. induction node as [q0 st ch IH] using Node_ind'. intros Hb Hst.
  pose proof (Built_aggregate _ _ Hb) as Ha. simpl star in *.
  destruct st as [r |]; [| contradiction].
  destruct Ha as [s [Hs _]].
  assert (Hloop : forall acc, exists F, forceLoop h q theta ch acc = Ok F).
  { apply forceLoop_total. rewrite Forall_forall in *. intros c Hc Hsc.
    apply IH; auto.
    inversion Hb as [| | q1 d ch1 Hw Hsec Hch]; subst; try contradiction.
    rewrite Forall_forall in Hch. apply Hch. exact Hc. }
  rewrite CalculateNetForce_node. simpl. rewrite Hs, Hq. simpl.
  destruct (Reqb (computeDistance s cs) 0 || sameStar r q); [eexists; reflexivity |].
  destruct (Rgeb (width q0 / computeDistance s cs) theta); [apply Hloop |].
  eexists. reflexivity.
Qed.

Lemma copyAll_total l :
  forall h, Forall (fun a => (a < length h)%nat) l -> exists r, copyAll l h = Ok r.
Proof.
  induction l as [| a l IH]; intros h Hv; simpl.
  - eexists. reflexivity.
  - inversion Hv as [| ? ? Ha Hl]; subst.
    destruct (load h a) as [s |] eqn:Hs.
    2:{ exfalso. apply nth_error_None in Hs. lia. }
    cbn [orPanic bind].
    destruct (IH (h ++ [copyStars s])) as [[l' h'] Hr].
    { eapply Forall_impl; [| exact Hl]. intros b Hb. simpl in Hb.
      rewrite length_app. simpl. lia. }
    rewrite Hr. cbn [bind]. eexists. reflexivity.
Qed.

Lemma updateAll_total tree time theta S h0 l :
  Shaped S (root tree) ->
  NoDup l ->
  (forall a, In a l -> ~ In a S) ->
  (forall a, In a l -> exists s F,
       load h0 a = Some s /\ CalculateNetForce h0 (root tree) a theta = Ok F) ->
  forall h,
    (forall b, In b S -> load h b = load h0 b) ->
    (forall b, In b l -> load h b = load h0 b) ->
    exists h', updateAll tree time theta l h = Ok h'.
Proof.
  intros Hs. induction l as [| a l IH]; intros Hnd Hdis Hok h HS Hl; simpl.
  - eexists. reflexivity.
  - inversion Hnd as [| ? ? Hna Hnd']; subst.
    destruct (Hok a (or_introl eq_refl)) as [s [F [Hsa HF]]].
    assert (Hla : load h a = Some s).
    { rewrite Hl by (left; reflexivity). exact Hsa. }
    assert (HF' : CalculateNetForce h (root tree) a theta = Ok F).
    { rewrite <- HF. apply (CalculateNetForce_frame S); auto.
      apply Hl. left. reflexivity. }
    pose proof (load_Some_lt _ _ _ Hla) as Hlt.
    unfold updateOne. rewrite Hla. cbn [orPanic bind]. rewrite HF'. cbn [bind].
    rewrite load_store_same by exact Hlt. cbn [orPanic bind].
    rewrite load_store_same by (rewrite length_store; exact Hlt). cbn [orPanic bind].
    rewrite !store_store.
    apply IH; auto.
    + intros b Hb. apply Hdis. right. exact Hb.
    + intros b Hb. apply Hok. right. exact Hb.
    + intros b Hb. rewrite load_store_other; [apply HS; exact Hb |].
      intros ->. apply (Hdis b (or_introl eq_refl) Hb).
    + intros b Hb. rewrite load_store_other; [apply Hl; right; exact Hb |].
      intros ->. contradiction.
Qed.

Lemma inRoot_ext h h' w a :
  load h' a = load h a -> inRoot h w a -> inRoot h' w a.
Proof. intros He [s Hs]. exists s. rewrite He. exact Hs. Qed.

Lemma distinctPositions_ext h h' l :
  (forall a, In a l -> load h' a = load h a) ->
  distinctPositions h l -> distinctPositions h' l.
Proof.
  induction l as [| a l IH]; intros He Hd; simpl in *; [exact I |].
  destruct Hd as [Ha Hd]. split.
  - intros b Hb sa sb Hsa Hsb.
    rewrite He in Hsa by (left; reflexivity).
    rewrite He in Hsb by (right; exact Hb).
    exact (Ha b Hb sa sb Hsa Hsb).
  - apply IH; [| exact Hd]. intros b Hb. apply He. right. exact Hb.
Qed.

Lemma inRoot_valid h w l :
  (forall a, In a l -> inRoot h w a) -> Forall (fun a => (a < length h)%nat) l.
Proof.
  intros H. apply Forall_forall. intros a Ha.
  destruct (H a Ha) as [s [Hs _]]. exact (load_Some_lt _ _ _ Hs).
Qed.

(** One step returns on every universe of positive width whose bodies have
    positive masses and lie inside the root square at pairwise-distinct
    positions, given enough fuel. *)
Lemma updateUniverse_total h u time theta :
  0 < uwidth u ->
  (forall a, In a (stars u) -> inRoot h (uwidth u) a) ->
  distinctPositions h (stars u) ->
  exists fuel u' h', updateUniverse fuel u time theta h = Ok (u', h').
Proof.
  intros Hw Hin Hd.
  pose proof (inRoot_valid _ _ _ Hin) as Hv.
  destruct (copyAll_total _ _ Hv) as [[l' hc] Ec].
  destruct (copyAll_Ok _ _ _ _ Hv Ec) as [-> [Hlenc [Holdc Hnewc]]].
  assert (Hext : forall a, In a (stars u) -> load hc a = load h a).
  { intros a Ha. apply Holdc. rewrite Forall_forall in Hv. apply Hv. exact Ha. }
  assert (Hin' : forall a, In a (stars u) -> inRoot hc (uwidth u) a).
  { intros a Ha. apply (inRoot_ext h); auto. }
  pose proof (distinctPositions_ext _ _ _ Hext Hd) as Hd'.
  destruct (GenerateQuadTree_built hc u Hw Hin' Hd')
    as [fuel [tree [Hgen [Hb [Hsec Hp]]]]].
  pose proof (Hgen fuel (le_n fuel)) as Et.
  destruct (GenerateQuadTree_shaped _ _ _ _ _ Et) as [Hshape _].
  destruct (updateAll_total tree time theta (stars u) hc
              (seq (length h) (length (stars u))) Hshape (seq_NoDup _ _))
    with (h := hc) as [h' Eu]; auto.
  - intros a Ha Hau. apply in_seq in Ha.
    rewrite Forall_forall in Hv. apply Hv in Hau. lia.
  - intros a Ha. apply in_seq in Ha.
    destruct (nth_error (stars u) (a - length h)) as [a0 |] eqn:E0.
    2:{ apply nth_error_None in E0. lia. }
    destruct (Hnewc _ _ E0) as [s [_ Hs]].
    replace (length h + (a - length h))%nat with a in Hs by lia.
    destruct (CalculateNetForce_total hc a _ theta Hs (root tree) Hb) as [F HF].
    + intros Hnone. pose proof (Built_aggregate _ _ Hb) as Hag.
      rewrite Hnone in Hag. rewrite Hag in Hp. apply Permutation_nil in Hp.
      rewrite Hp in E0. destruct (a - length h)%nat; discriminate E0.
    + exists (copyStars s), F. auto.
  - exists fuel, (mkUniverse (uwidth u) (seq (length h) (length (stars u)))), h'.
    unfold updateUniverse, copyUniverse. rewrite Ec. cbn [bind].
    rewrite Et. cbn [bind stars].
    match goal with
    | |- bind ?m _ = _ => replace m with (@Ok Heap h') by (symmetry; exact Eu)
    end.
    reflexivity.
Qed.

Lemma C1_integration_step_witness :
  exists fuel u' h',
    Forall (fun a => (a < length heapTwo)%nat) (stars universeTwo)
    /\ updateUniverse fuel universeTwo 1 (1 / 2) heapTwo = Ok (u', h')
    /\ exists hc tree ht,
         copyUniverse universeTwo heapTwo = Ok (u', hc)
         /\ GenerateQuadTree fuel universeTwo hc = Ok (tree, ht)
         /\ length (stars u') = length (stars universeTwo)
         /\ forall i a, nth_error (stars universeTwo) i = Some a ->
              exists a' s s' F,
                nth_error (stars u') i = Some a'
                /\ load heapTwo a = Some s /\ load h' a' = Some s'
                /\ CalculateNetForce ht (root tree) a' (1 / 2) = Ok F
                /\ x (acceleration s') = x F / mass s
                /\ y (acceleration s') = y F / mass s
                /\ x (velocity s')
                   = x (velocity s)
                     + 1 / 2 * (x (acceleration s') + x (acceleration s)) * 1
                /\ y (velocity s')
                   = y (velocity s)
                     + 1 / 2 * (y (acceleration s') + y (acceleration s)) * 1
                /\ x (position s')
                   = x (position s) + x (velocity s) * 1
                     + 1 / 2 * x (acceleration s) * (1 * 1)
                /\ y (position s')
                   = y (position s) + y (velocity s) * 1
                     + 1 / 2 * y (acceleration s) * (1 * 1)
                /\ mass s' = mass s /\ radius s' = radius s
                /\ red s' = red s /\ green s' = green s /\ blue s' = blue s.
Proof.
  assert (Hw : 0 < uwidth universeTwo) by (simpl; lra).
  destruct (updateUniverse_total heapTwo universeTwo 1 (1 / 2) Hw
              universeTwo_inRoot universeTwo_distinct) as [fuel [u' [h' E]]].
  assert (Hv : Forall (fun a => (a < length heapTwo)%nat) (stars universeTwo)).
  { repeat constructor. }
  exists fuel, u', h'. split; [exact Hv |]. split; [exact E |].
  exact (C1_integration_step fuel universeTwo 1 (1 / 2) heapTwo u' h' Hv E).
Defined.

(** ** The sequence of snapshots *)

Lemma generations_Steps fuel time theta n :
  forall prev h l h',
    generations fuel n prev time theta h = Ok (l, h') ->
    length l = n /\ Steps fuel time theta prev h l h'.
Proof.
  induction n as [| n IH]; intros prev h l h' H; simpl in H.
  - inv_ok. subst. split; [reflexivity | constructor].
  - destruct (updateUniverse fuel prev time theta h) as [[next h1] | |] eqn:E;
      cbn [bind] in H; try discriminate H.
    destruct (generations fuel n next time theta h1) as [[rest h2] | |] eqn:Eg;
      cbn [bind] in H; try discriminate H.
    inv_ok. subst. destruct (IH _ _ _ _ Eg) as [Hlen Hst].
    split; [simpl; congruence | econstructor; eassumption].
Qed.

(** Whenever [BarnesHut] returns, it returns [numGens + 1] universes: the
    initial one, followed by the universes of the successive steps. *)
Lemma BarnesHut_sequence fuel u numGens time theta h l h' :
  BarnesHut fuel u numGens time theta h = Ok (l, h') ->
  (0 <= numGens)%Z
  /\ length l = Z.to_nat (numGens + 1)
  /\ exists rest, l = u :: rest /\ Steps fuel time theta u h rest h'.
Proof.
  unfold BarnesHut. intros H.
  destruct (Z.ltb_spec numGens 0) as [Hlt | Hge]; [discriminate H |].
  destruct (generations fuel (Z.to_nat numGens) u time theta h)
    as [[rest h2] | |] eqn:E; cbn [bind] in H; try discriminate H.
  inv_ok. subst. destruct (generations_Steps _ _ _ _ _ _ _ _ E) as [Hlen Hst].
  split; [exact Hge |]. split.
  - simpl. rewrite Hlen. lia.
  - exists rest. auto.
Qed.

(** With [numGens = 0] the result is the input alone. *)
Lemma BarnesHut_zero fuel u time theta h :
  BarnesHut fuel u 0 time theta h = Ok ([u], h).
Proof. reflexivity. Qed.

(** A negative [numGens] panics. *)
Lemma BarnesHut_negative fuel u numGens time theta h :
  (numGens < 0)%Z -> BarnesHut fuel u numGens time theta h = Panic.
Proof.
  intros H. unfold BarnesHut. destruct (Z.ltb_spec numGens 0); [reflexivity | lia].
Qed.

(** * Further properties of the code *)

(** ** Quadrants *)



(** ** The force between two bodies *)

(** X2. The inverse-square law: for two bodies at a distance [d > 0], the
    force computed by [computeGravitationalForce] has the magnitude
    [G m1 m2 / d^2] (stated on the squares), and it is [G m1 m2 / d^3] times
    the vector from the second body to the first: it pulls the second body
    towards the first. *)
Theorem force_inverse_square (s s2 : Star) :
  0 < computeDistance s s2 ->
  let d := computeDistance s s2 in
  let F := computeGravitationalForce s s2 d in
  x F * x F + y F * y F
  = (G * mass s * mass s2 / (d * d)) * (G * mass s * mass s2 / (d * d))
  /\ x F = G * mass s * mass s2 / (d * d * d) * (x (position s) - x (position s2))
  /\ y F = G * mass s * mass s2 / (d * d * d) * (y (position s) - y (position s2)).
Proof.
  intros Hd d F.
  assert (Hsq : d * d
                = (x (position s2) - x (position s)) * (x (position s2) - x (position s))
                  + (y (position s2) - y (position s)) * (y (position s2) - y (position s))).
  { unfold d, computeDistance. cbv zeta. apply sqrt_sqrt.
    apply Rplus_le_le_0_compat; apply Rle_0_sqr. }
  unfold F, computeGravitationalForce. rewrite Reqb_false by (unfold d; lra).
  cbn [x y]. fold d.
  assert (Hd0 : d <> 0) by (unfold d; lra).
  split; [| split; field; exact Hd0].
  replace (G * mass s * mass s2 / (d * d) * (x (position s) - x (position s2)) / d
           * (G * mass s * mass s2 / (d * d) * (x (position s) - x (position s2)) / d)
           + G * mass s * mass s2 / (d * d) * (y (position s) - y (position s2)) / d
             * (G * mass s * mass s2 / (d * d) * (y (position s) - y (position s2)) / d))
    with ((G * mass s * mass s2 / (d * d)) * (G * mass s * mass s2 / (d * d))
          * (((x (position s2) - x (position s)) * (x (position s2) - x (position s))
              + (y (position s2) - y (position s)) * (y (position s2) - y (position s)))
             / (d * d)))
    by (field; exact Hd0).
  rewrite <- Hsq. field. exact Hd0.
Qed.

Lemma force_inverse_square_witness :
  0 < computeDistance (starAt 0 0 1) (starAt 3 4 2)
  /\ let d := computeDistance (starAt 0 0 1) (starAt 3 4 2) in
     let F := computeGravitationalForce (starAt 0 0 1) (starAt 3 4 2) d in
     x F * x F + y F * y F = (G * 1 * 2 / (d * d)) * (G * 1 * 2 / (d * d))
     /\ x F = G * 1 * 2 / (d * d * d) * (0 - 3)
     /\ y F = G * 1 * 2 / (d * d * d) * (0 - 4).
Proof.
  assert (H : 0 < computeDistance (starAt 0 0 1) (starAt 3 4 2)).
  { unfold computeDistance. simpl. apply sqrt_lt_R0. lra. }
  split; [exact H | exact (force_inverse_square (starAt 0 0 1) (starAt 3 4 2) H)].
Defined.

(** ** Snapshots *)

(** X3. [copyUniverse] makes a deep copy: for a universe whose stars are
    objects of the store it returns a universe of the same width whose stars
    are as many new objects, allocated one after the other behind the store,
    each with every field of the star it copies; the objects the store held
    before are left as they were. *)
Theorem copyUniverse_deep_copy (u : Universe) (h : Heap) :
  Forall (fun a => (a < length h)%nat) (stars u) ->
  exists u' h',
    copyUniverse u h = Ok (u', h')
    /\ uwidth u' = uwidth u
    /\ stars u' = seq (length h) (length (stars u))
    /\ length h' = (length h + length (stars u))%nat
    /\ (forall b, (b < length h)%nat -> load h' b = load h b)
    /\ forall i a, nth_error (stars u) i = Some a ->
         exists s, load h a = Some s /\ load h' (length h + i)%nat = Some s.
Proof.
  intros Hv. destruct (copyAll_total _ _ Hv) as [[l' h'] E].
  destruct (copyAll_Ok _ _ _ _ Hv E) as [-> [Hlen [Hold Hnew]]].
  exists (mkUniverse (uwidth u) (seq (length h) (length (stars u)))), h'.
  split; [unfold copyUniverse; rewrite E; reflexivity |].
  repeat split; auto.
  intros i a Hi. destruct (Hnew i a Hi) as [s [Hs Hc]].
  exists s. rewrite copyStars_id in Hc. auto.
Qed.

Lemma copyUniverse_deep_copy_witness :
  Forall (fun a => (a < length heapTwo)%nat) (stars universeTwo)
  /\ exists u' h',
       copyUniverse universeTwo heapTwo = Ok (u', h')
       /\ uwidth u' = uwidth universeTwo
       /\ stars u' = seq (length heapTwo) (length (stars universeTwo))
       /\ length h' = (length heapTwo + length (stars universeTwo))%nat
       /\ (forall b, (b < length heapTwo)%nat -> load h' b = load heapTwo b)
       /\ forall i a, nth_error (stars universeTwo) i = Some a ->
            exists s, load heapTwo a = Some s
                      /\ load h' (length heapTwo + i)%nat = Some s.
Proof.
  assert (H : Forall (fun a => (a < length heapTwo)%nat) (stars universeTwo)).
  { repeat constructor. }
  split; [exact H | exact (copyUniverse_deep_copy universeTwo heapTwo H)].
Defined.

Lemma setMass_setMass s m m' : setMass (setMass s m) m' = setMass s m'.
Proof. reflexivity. Qed.

Lemma StoreEffect_fields S a h h' :
  StoreEffect S a h h' ->
  forall b s, load h b = Some s -> exists m, load h' b = Some (setMass s m).
Proof.
  intros [-> | [e [se [sa [_ [He [_ [_ ->]]]]]]]] b s Hb.
  - exists (mass s). rewrite setMass_same. exact Hb.
  - destruct (Nat.eq_dec e b) as [-> | Hne].
    + rewrite He in Hb. injection Hb as ->.
      exists (mass sa). apply load_store_same. exact (load_Some_lt _ _ _ He).
    + exists (mass s). rewrite load_store_other by exact Hne.
      rewrite setMass_same. exact Hb.
Qed.

Lemma insertAll_fields fuel l :
  forall S node h node' h',
    Shaped S node ->
    insertAll fuel node l h = Ok (node', h') ->
    forall b s, load h b = Some s -> exists m, load h' b = Some (setMass s m).
Proof.
  induction l as [| a l IH]; intros S node h node' h' Hs H b s Hb; simpl in H.
  - inv_ok. subst. exists (mass s). rewrite setMass_same. exact Hb.
  - destruct (insertStar fuel node (Real a) h) as [[n1 h1] | |] eqn:E;
      cbn [bind] in H; try discriminate H.
    destruct (insertStar_shaped _ _ _ _ _ _ _ Hs E) as [Hs1 He1].
    destruct (StoreEffect_fields _ _ _ _ He1 b s Hb) as [m1 H1].
    destruct (IH _ _ _ _ _ Hs1 H b _ H1) as [m2 H2].
    exists m2. rewrite setMass_setMass in H2. exact H2.
Qed.

(** X4. A step leaves the earlier snapshots alone, but for their masses. When
    [updateUniverse] returns, every star object the store held before the
    step is still there with the same position, velocity, acceleration,
    radius and colour; its mass can differ only if it is a star of the
    stepped universe, and when the stars of that universe have
    pairwise-distinct positions, no star object of the old store is changed
    at all. The new universe consists of new objects. *)
Theorem step_keeps_old_snapshots (fuel : nat) (u : Universe) (time theta : R)
  (h : Heap) (u' : Universe) (h' : Heap) :
  Forall (fun a => (a < length h)%nat) (stars u) ->
  updateUniverse fuel u time theta h = Ok (u', h') ->
  (forall a', In a' (stars u') -> (length h <= a')%nat)
  /\ (forall b s, load h b = Some s ->
        exists s', load h' b = Some s'
                   /\ position s' = position s /\ velocity s' = velocity s
                   /\ acceleration s' = acceleration s /\ radius s' = radius s
                   /\ red s' = red s /\ green s' = green s /\ blue s' = blue s
                   /\ (~ In b (stars u) -> mass s' = mass s))
  /\ (distinctPositions h (stars u) ->
      forall b, (b < length h)%nat -> load h' b = load h b).
Proof.
  intros Hv H. unfold updateUniverse in H.
  destruct (copyUniverse u h) as [[nu hc] | |] eqn:Ec; cbn [bind] in H;
    try discriminate H.
  destruct (GenerateQuadTree fuel u hc) as [[tree ht] | |] eqn:Et;
    cbn [bind] in H; try discriminate H.
  destruct (updateAll tree time theta (stars nu) ht) as [h3 | |] eqn:Eu;
    cbn [bind] in H; try discriminate H.
  inv_ok. subst nu h3.
  unfold copyUniverse in Ec.
  destruct (copyAll (stars u) h) as [[l' hc'] | |] eqn:Ea; cbn [bind] in Ec;
    try discriminate Ec.
  inv_ok. subst u' hc'. cbn [stars] in *.
  destruct (copyAll_Ok _ _ _ _ Hv Ea) as [-> [Hlenc [Holdc Hnewc]]].
  pose proof Et as Et'. unfold GenerateQuadTree in Et'.
  destruct (insertAll fuel (emptyNode (mkQuadrant 0 0 (uwidth u))) (stars u) hc)
    as [[r ht'] | |] eqn:Ei; cbn [bind] in Et'; try discriminate Et'.
  inv_ok. subst tree ht'.
  destruct (insertAll_shaped _ _ _ _ _ _ _ (Shaped_empty [] _) Ei)
    as [Hshape [Hlent Hfrt]].
  rewrite app_nil_r in Hshape, Hfrt.
  assert (Hdisj : forall a, In a (seq (length h) (length (stars u))) ->
                            ~ In a (rev (stars u))).
  { intros a Ha Hin. apply in_seq in Ha. apply in_rev in Hin.
    rewrite Forall_forall in Hv. apply Hv in Hin. lia. }
  destruct (updateAll_Ok (mkQuadTree r) _ _ _ _ _ _ (seq_NoDup _ _) Hshape Hdisj Eu)
    as [Hlenu [Hfru _]].
  assert (Hold : forall b, (b < length h)%nat -> load h' b = load ht b).
  { intros b Hb. apply Hfru. rewrite in_seq. lia. }
  split; [| split].
  - intros a' Ha'. apply in_seq in Ha'. lia.
  - intros b s Hb. pose proof (load_Some_lt _ _ _ Hb) as Hlt.
    assert (Hbc : load hc b = Some s) by (rewrite Holdc by exact Hlt; exact Hb).
    destruct (insertAll_fields _ _ _ _ _ _ _ (Shaped_empty [] _) Ei b s Hbc)
      as [m Hm].
    exists (setMass s m). rewrite Hold by exact Hlt.
    repeat split; auto.
    intros Hnin. rewrite Hfrt in Hm by exact Hnin. rewrite Hbc in Hm.
    injection Hm as Hm. rewrite <- Hm. reflexivity.
  - intros Hd b Hb.
    assert (Hext : forall a, In a (stars u) -> load hc a = load h a).
    { intros a Ha. apply Holdc. rewrite Forall_forall in Hv. apply Hv. exact Ha. }
    pose proof (distinctPositions_ext _ _ _ Hext Hd) as Hd'.
    destruct (GenerateQuadTree_shaped _ _ _ _ _ Et) as [_ Heq].
    rewrite Hold by exact Hb. rewrite (Heq Hd'). apply Holdc. exact Hb.
Qed.

Lemma step_keeps_old_snapshots_witness :
  exists fuel u' h',
    updateUniverse fuel universeTwo 1 (1 / 2) heapTwo = Ok (u', h')
    /\ (forall a', In a' (stars u') -> (length heapTwo <= a')%nat)
    /\ forall b, (b < length heapTwo)%nat -> load h' b = load heapTwo b.
Proof.
  assert (Hw : 0 < uwidth universeTwo) by (simpl; lra).
  destruct (updateUniverse_total heapTwo universeTwo 1 (1 / 2) Hw
              universeTwo_inRoot universeTwo_distinct) as [fuel [u' [h' E]]].
  assert (Hv : Forall (fun a => (a < length heapTwo)%nat) (stars universeTwo)).
  { repeat constructor. }
  destruct (step_keeps_old_snapshots fuel universeTwo 1 (1 / 2) heapTwo u' h' Hv E)
    as [Hnew [_ Hsame]].
  exists fuel, u', h'. split; [exact E |]. split; [exact Hnew |].
  exact (Hsame universeTwo_distinct).
Defined.

(** ** A body alone *)

Lemma store_app_new h s s' : store (h ++ [s]) (length h) s' = h ++ [s'].
Proof. induction h as [| s0 h IH]; simpl; [reflexivity | f_equal; exact IH]. Qed.

Lemma updateUniverse_lone fuel w a s time theta h :
  load h a = Some s ->
  updateUniverse (S fuel) (mkUniverse w [a]) time theta h
  = Ok (mkUniverse w [length h], h ++ [stepStar s zeroPair time]).
Proof.
  intros Hs. pose proof (load_Some_lt _ _ _ Hs) as Hlt.
  unfold updateUniverse, copyUniverse. cbn [stars uwidth copyAll].
  rewrite Hs. cbn [orPanic bind alloc]. rewrite copyStars_id.
  unfold GenerateQuadTree. cbn [stars uwidth insertAll]. unfold emptyNode.
  rewrite insertStar_empty. cbn [bind root updateAll].
  unfold updateOne. rewrite load_app_new. cbn [orPanic bind root].
  rewrite CalculateNetForce_node. cbn [orPanic bind deref].
  rewrite load_app_l by exact Hlt. rewrite Hs, load_app_new. cbn [orPanic bind].
  rewrite Reqb_true by (apply computeDistance_zero; reflexivity).
  cbn [orb bind].
  rewrite store_app_new, load_app_new. cbn [orPanic bind].
  rewrite store_app_new, load_app_new. cbn [orPanic bind].
  rewrite store_app_new. reflexivity.
Qed.

Lemma generations_lone fuel w time theta n :
  forall a s h,
    load h a = Some s ->
    generations (S fuel) n (mkUniverse w [a]) time theta h
    = Ok (loneUniverses n w (length h), h ++ loneStars n time s).
Proof.
  induction n as [| n IH]; intros a s h Hs.
  - simpl. rewrite app_nil_r. reflexivity.
  - cbn [generations]. rewrite (updateUniverse_lone _ _ _ _ _ _ _ Hs). cbn [bind].
    rewrite (IH (length h) (stepStar s zeroPair time)) by apply load_app_new.
    cbn [bind loneUniverses loneStars].
    rewrite length_app, <- app_assoc. simpl. rewrite Nat.add_1_r. reflexivity.
Qed.








(** ** The shape of the built tree *)





Lemma insertIntoChildren_none ins pos cs h :
  Forall (fun c => inRange pos (sector c) = false) cs ->
  insertIntoChildren ins pos cs h = Ok (cs, h).
Proof.
  induction 1 as [| c cs Hc _ IH]; simpl; [reflexivity |].
  rewrite Hc, IH. reflexivity.
Qed.

(** X8. A body outside the sector of a node with children is counted but not
    placed. Inserting a star whose position lies outside the sector of a node
    that has its four quadrants as children adds the star to the aggregate of
    the node (the mass of the aggregate grows by the mass of the star) and
    leaves every child, and the store, as they were: the star is in no leaf
    below the node. *)
Theorem outside_star_counted_not_placed (fuel : nat) (q : Quadrant) (d : Star)
  (ch : list Node) (a : addr) (s : Star) (h : Heap) :
  0 < width q ->
  map sector ch = map sector (initializeQuadrant q) ->
  load h a = Some s ->
  inRange (position s) q = false ->
  insertStar (S fuel) (mkNode q (Some (Dummy d)) ch) (Real a) h
  = Ok (mkNode q (Some (Dummy (updateStar d s))) ch, h)
  /\ mass (updateStar d s) = mass d + mass s
  /\ bodies (mkNode q (Some (Dummy (updateStar d s))) ch)
     = bodies (mkNode q (Some (Dummy d)) ch).
Proof.
  intros Hw Hsec Hs Hout.
  assert (Hall : Forall (fun c => inRange (position s) (sector c) = false) ch).
  { apply Forall_forall. intros c Hc.
    destruct (inRange (position s) (sector c)) eqn:E; [| reflexivity].
    rewrite (quadrants_sub _ _ _ _ Hw Hsec Hc E) in Hout. discriminate Hout. }
  split; [| split; [reflexivity |]].
  - destruct (quadrants_inv _ _ Hsec) as [c0 [c1 [c2 [c3 [Hk _]]]]].
    rewrite Hk in *. rewrite insertStar_inner.
    unfold updateCenterOfMass. cbn [star deref]. rewrite Hs. cbn [orPanic bind].
    unfold insertIntoChild. cbn [children deref]. rewrite Hs. cbn [orPanic bind].
    rewrite (insertIntoChildren_none _ _ _ _ Hall). reflexivity.
  - rewrite !(quadrants_bodies _ _ _ Hsec). reflexivity.
Qed.

Lemma outside_star_counted_not_placed_witness :
  let q := mkQuadrant 0 0 10 in
  let h := [starAt 20 20 4] in
  insertStar 1 (mkNode q (Some (Dummy (starAt 5 5 2))) (initializeQuadrant q))
    (Real 0%nat) h
  = Ok (mkNode q (Some (Dummy (updateStar (starAt 5 5 2) (starAt 20 20 4))))
          (initializeQuadrant q), h)
  /\ mass (updateStar (starAt 5 5 2) (starAt 20 20 4)) = 2 + 4
  /\ bodies (mkNode q (Some (Dummy (updateStar (starAt 5 5 2) (starAt 20 20 4))))
               (initializeQuadrant q))
     = bodies (mkNode q (Some (Dummy (starAt 5 5 2))) (initializeQuadrant q)).
Proof.
  intros q h.
  apply (outside_star_counted_not_placed 0 q (starAt 5 5 2) (initializeQuadrant q)
           0%nat (starAt 20 20 4) h).
  - simpl. lra.
  - reflexivity.
  - reflexivity.
  - apply inRange_false_iff. simpl. lra.
Defined.

(** ** Insertion terminates on every input *)

Lemma finished_bind {A B : Type} (m : result A) (k : A -> result B) :
  finished (bind m k) -> finished m.
Proof.
  unfold finished. destruct m; simpl; intros H; try discriminate.
  exfalso. apply H. reflexivity.
Qed.

Lemma insertIntoChildren_stable
  (ins ins' : Node -> Heap -> result (Node * Heap)) pos cs h :
  (forall c h0, finished (ins c h0) -> ins' c h0 = ins c h0) ->
  finished (insertIntoChildren ins pos cs h) ->
  insertIntoChildren ins' pos cs h = insertIntoChildren ins pos cs h.
Proof.
  intros Hs. induction cs as [| c cs IH]; intros H; simpl in *.
  - reflexivity.
  - destruct (inRange pos (sector c)).
    + apply finished_bind in H. rewrite (Hs _ _ H). reflexivity.
    + apply finished_bind in H. rewrite (IH H). reflexivity.
Qed.

Lemma insertIntoChild_stable
  (ins ins' : Node -> StarRef -> Heap -> result (Node * Heap)) node st h :
  (forall c s0 h0, finished (ins c s0 h0) -> ins' c s0 h0 = ins c s0 h0) ->
  finished (insertIntoChild ins node st h) ->
  insertIntoChild ins' node st h = insertIntoChild ins node st h.
Proof.
  intros Hs H. unfold insertIntoChild in *.
  destruct (children node) as [| c cs]; [reflexivity |].
  destruct (deref h st) as [s |]; cbn [orPanic bind] in *; [| reflexivity].
  apply finished_bind in H.
  rewrite (insertIntoChildren_stable (fun c0 => ins c0 st) (fun c0 => ins' c0 st)
             _ _ _ (fun c0 h0 => Hs c0 st h0) H).
  reflexivity.
Qed.

Lemma insertStar_stable fuel :
  forall node st h,
    finished (insertStar fuel node st h) ->
    insertStar (S fuel) node st h = insertStar fuel node st h.
Proof.
  induction fuel as [| fuel IH]; intros [q s0 ch] st h H.
  - exfalso. apply H. reflexivity.
  - destruct ch as [| c ch].
    + destruct s0 as [existing |]; [| reflexivity].
      rewrite insertStar_leaf in H. rewrite (insertStar_leaf (S fuel)), (insertStar_leaf fuel).
      destruct (orPanic (deref h existing)) as [e | |]; cbn [bind] in *; try reflexivity.
      destruct (orPanic (deref h st)) as [s | |]; cbn [bind] in *; try reflexivity.
      destruct (Reqb (x (position e)) (x (position s))
                && Reqb (y (position e)) (y (position s))); [reflexivity |].
      pose proof (finished_bind _ _ H) as H1.
      rewrite (insertIntoChild_stable _ (insertStar (S fuel)) _ _ _ IH H1).
      destruct (insertIntoChild (insertStar fuel)
                  (mkNode q None (initializeQuadrant q)) existing h)
        as [[node2 h2] | |]; cbn [bind] in *; try reflexivity.
      pose proof (finished_bind _ _ H) as H2.
      rewrite (insertIntoChild_stable _ (insertStar (S fuel)) _ _ _ IH H2).
      reflexivity.
    + rewrite insertStar_inner in H.
      rewrite (insertStar_inner (S fuel)), (insertStar_inner fuel).
      destruct (updateCenterOfMass (mkNode q s0 (c :: ch)) st h)
        as [[node1 h1] | |]; cbn [bind] in *; try reflexivity.
      apply (insertIntoChild_stable _ (insertStar (S fuel)) _ _ _ IH H).
Qed.

Lemma insertStar_stable_le fuel fuel' node st h :
  (fuel <= fuel')%nat ->
  finished (insertStar fuel node st h) ->
  insertStar fuel' node st h = insertStar fuel node st h.
Proof.
  induction 1 as [| fuel' _ IH]; intros H; [reflexivity |].
  rewrite <- (IH H). apply insertStar_stable. rewrite (IH H). exact H.
Qed.

Lemma insertAll_stable_le fuel fuel' l :
  (fuel <= fuel')%nat ->
  forall node h,
    finished (insertAll fuel node l h) ->
    insertAll fuel' node l h = insertAll fuel node l h.
Proof.
  intros Hle. induction l as [| a l IH]; intros node h H; simpl in *.
  - reflexivity.
  - pose proof (finished_bind _ _ H) as H1.
    rewrite (insertStar_stable_le _ _ _ _ _ Hle H1).
    destruct (insertStar fuel node (Real a) h) as [[n1 h1] | |]; cbn [bind] in *;
      try reflexivity.
    apply IH. exact H.
Qed.

Lemma calculateCenterOfMass_finished node h : finished (calculateCenterOfMass node h).
Proof.
  unfold finished.
  assert (Hsum : forall cs acc, sumChildren h cs acc <> OutOfFuel).
  { induction cs as [| c cs IH]; intros acc; simpl; [discriminate |].
    destruct (star c) as [r |]; [| apply IH].
    destruct (deref h r); simpl; [| discriminate].
    destruct acc as [[m px] py]. apply IH. }
  unfold calculateCenterOfMass. destruct (children node) as [| c cs]; [discriminate |].
  pose proof (Hsum (c :: cs) (0, 0, 0)) as H.
  destruct (sumChildren h (c :: cs) (0, 0, 0)) as [[[m px] py] | |]; simpl;
    try discriminate; [| exfalso; auto].
  destruct (Rgtb m 0); discriminate.
Qed.

Lemma insertIntoChildren_finished ins pos cs h :
  (forall c, In c cs -> inRange pos (sector c) = true -> finished (ins c h)) ->
  finished (insertIntoChildren ins pos cs h).
Proof.
  unfold finished.
  induction cs as [| c cs IH]; intros H; cbn [insertIntoChildren]; [discriminate |].
  destruct (inRange pos (sector c)) eqn:E.
  - pose proof (H c (or_introl eq_refl) E) as Hc.
    destruct (ins c h) as [[c' h'] | |]; cbn [bind];
      [discriminate | discriminate | exfalso; apply Hc; reflexivity].
  - assert (Hr : insertIntoChildren ins pos cs h <> OutOfFuel).
    { apply IH. intros c0 Hc0. apply H. right. exact Hc0. }
    destruct (insertIntoChildren ins pos cs h) as [[cs' h'] | |]; cbn [bind];
      [discriminate | discriminate | exfalso; apply Hr; reflexivity].
Qed.

Lemma insertIntoChild_finished ins node st h :
  (forall c s, In c (children node) -> deref h st = Some s ->
               inRange (position s) (sector c) = true -> finished (ins c st h)) ->
  finished (insertIntoChild ins node st h).
Proof.
  intros H. unfold insertIntoChild.
  destruct (children node) as [| c cs] eqn:E; [discriminate |].
  destruct (deref h st) as [s |] eqn:Es; cbn [orPanic bind]; [| discriminate].
  assert (Hr : finished (insertIntoChildren (fun c0 => ins c0 st) (position s)
                           (c :: cs) h)).
  { apply insertIntoChildren_finished. intros c0 Hc0 Hr0. apply (H c0 s); auto. }
  unfold finished in *.
  destruct (insertIntoChildren (fun c0 => ins c0 st) (position s) (c :: cs) h)
    as [[cs' h'] | |]; cbn [bind]; [discriminate | discriminate | exfalso; apply Hr; reflexivity].
Qed.

Lemma split_places_existing f q existing se h :
  deref h existing = Some se ->
  exists ch2,
    insertIntoChild (insertStar (S f)) (mkNode q None (initializeQuadrant q)) existing h
    = Ok (mkNode q None ch2, h)
    /\ map sector ch2 = map sector (initializeQuadrant q)
    /\ Forall (fun c => c = emptyNode (sector c)
                        \/ (c = mkNode (sector c) (Some existing) []
                            /\ inRange (position se) (sector c) = true)) ch2.
Proof.
  intros Hse. unfold insertIntoChild, initializeQuadrant, emptyNode.
  cbn [children]. rewrite Hse. cbn [orPanic bind insertIntoChildren sector].
  assert (Hall : forall l : list Node,
             map sector l
             = [mkQuadrant (qx q) (qy q + width q / 2) (width q / 2);
                mkQuadrant (qx q + width q / 2) (qy q + width q / 2) (width q / 2);
                mkQuadrant (qx q) (qy q) (width q / 2);
                mkQuadrant (qx q + width q / 2) (qy q) (width q / 2)] ->
             Forall (fun c => c = mkNode (sector c) None []
                              \/ (c = mkNode (sector c) (Some existing) []
                                  /\ inRange (position se) (sector c) = true)) l ->
             exists ch2,
               @Ok (Node * Heap) (mkNode q None l, h) = Ok (mkNode q None ch2, h)
               /\ map sector ch2
                  = [mkQuadrant (qx q) (qy q + width q / 2) (width q / 2);
                     mkQuadrant (qx q + width q / 2) (qy q + width q / 2) (width q / 2);
                     mkQuadrant (qx q) (qy q) (width q / 2);
                     mkQuadrant (qx q + width q / 2) (qy q) (width q / 2)]
               /\ Forall (fun c => c = mkNode (sector c) None []
                                   \/ (c = mkNode (sector c) (Some existing) []
                                       /\ inRange (position se) (sector c) = true))
                         ch2).
  { intros l Hl Hf. exists l. auto. }
  destruct (inRange (position se) (mkQuadrant (qx q) (qy q + width q / 2) (width q / 2)))
    eqn:E0.
  { rewrite insertStar_empty. cbn [bind star]. apply Hall; [reflexivity |].
    repeat (apply Forall_cons;
            [first [left; reflexivity | right; split; [reflexivity | assumption]] |]).
    apply Forall_nil. }
  destruct (inRange (position se)
              (mkQuadrant (qx q + width q / 2) (qy q + width q / 2) (width q / 2)))
    eqn:E1.
  { rewrite insertStar_empty. cbn [bind star]. apply Hall; [reflexivity |].
    repeat (apply Forall_cons;
            [first [left; reflexivity | right; split; [reflexivity | assumption]] |]).
    apply Forall_nil. }
  destruct (inRange (position se) (mkQuadrant (qx q) (qy q) (width q / 2))) eqn:E2.
  { rewrite insertStar_empty. cbn [bind star]. apply Hall; [reflexivity |].
    repeat (apply Forall_cons;
            [first [left; reflexivity | right; split; [reflexivity | assumption]] |]).
    apply Forall_nil. }
  destruct (inRange (position se) (mkQuadrant (qx q + width q / 2) (qy q) (width q / 2)))
    eqn:E3.
  { rewrite insertStar_empty. cbn [bind star]. apply Hall; [reflexivity |].
    repeat (apply Forall_cons;
            [first [left; reflexivity | right; split; [reflexivity | assumption]] |]).
    apply Forall_nil. }
  cbn [bind star]. apply Hall; [reflexivity |].
  repeat (apply Forall_cons;
          [first [left; reflexivity | right; split; [reflexivity | assumption]] |]).
  apply Forall_nil.
Qed.

Lemma leaf_split_finishes f q existing st se s h :
  deref h existing = Some se ->
  deref h st = Some s ->
  (forall q', width q' = width q / 2 ->
              inRange (position se) q' = true -> inRange (position s) q' = true ->
              finished (insertStar (S f) (mkNode q' (Some existing) []) st h)) ->
  finished (insertStar (S (S f)) (mkNode q (Some existing) []) st h).
Proof.
  intros Hse Hs Hrec. rewrite insertStar_leaf. rewrite Hse, Hs. cbn [orPanic bind].
  destruct (Reqb (x (position se)) (x (position s))
            && Reqb (y (position se)) (y (position s))).
  { destruct existing; discriminate. }
  destruct (split_places_existing f q existing se h Hse) as [ch2 [E1 [Hsec Hshape]]].
  rewrite E1. cbn [bind].
  assert (H2 : finished (insertIntoChild (insertStar (S f)) (mkNode q None ch2) st h)).
  { apply insertIntoChild_finished. cbn [children]. intros c s0 Hc Hs0 Hr.
    rewrite Hs in Hs0. injection Hs0 as <-.
    rewrite Forall_forall in Hshape.
    destruct (Hshape c Hc) as [Hce | [Hcl Hre]].
    - rewrite Hce. unfold emptyNode. rewrite insertStar_empty. discriminate.
    - rewrite Hcl. apply Hrec; auto.
      apply (quadrants_width _ _ _ Hsec Hc). }
  unfold finished in *.
  destruct (insertIntoChild (insertStar (S f)) (mkNode q None ch2) st h)
    as [[node3 h3] | |]; cbn [bind];
    [| discriminate | exfalso; apply H2; reflexivity].
  pose proof (calculateCenterOfMass_finished node3 h3) as H3. unfold finished in H3.
  destruct (calculateCenterOfMass node3 h3); cbn [bind];
    [discriminate | discriminate | exfalso; apply H3; reflexivity].
Qed.

Lemma leaf_finishes k :
  forall q existing st se s h,
    deref h existing = Some se ->
    deref h st = Some s ->
    inRange (position se) q = true ->
    inRange (position s) q = true ->
    width q <= 2 ^ k * spread se s ->
    finished (insertStar (S k) (mkNode q (Some existing) []) st h).
Proof.
  induction k as [| k IH]; intros q existing st se s h Hse Hs Hre Hr Hk.
  - exfalso. pose proof (spread_lt_width _ _ _ Hre Hr). simpl in Hk. lra.
  - apply (leaf_split_finishes k q existing st se s h Hse Hs).
    intros q' Hw Hre' Hr'. apply (IH q' existing st se s h); auto.
    rewrite Hw. simpl in Hk. lra.
Qed.

Lemma updateCenterOfMass_Ok node st h node1 h1 :
  updateCenterOfMass node st h = Ok (node1, h1) -> children node1 = children node.
Proof.
  unfold updateCenterOfMass. intros H.
  destruct (star node) as [[a | d] |].
  - destruct (load h a); cbn [orPanic bind] in H; [| discriminate H].
    destruct (deref h st); cbn [orPanic bind] in H; [| discriminate H].
    injection H as <- _. reflexivity.
  - destruct (deref h st); cbn [orPanic bind] in H; [| discriminate H].
    injection H as <- _. reflexivity.
  - destruct (deref h st); cbn [orPanic bind] in H; [| discriminate H].
    injection H as <- _. reflexivity.
Qed.

Lemma updateCenterOfMass_finished node st h : finished (updateCenterOfMass node st h).
Proof.
  unfold updateCenterOfMass, finished.
  destruct (star node) as [[a | d] |].
  - destruct (load h a); cbn [orPanic bind]; [| discriminate].
    destruct (deref h st); cbn [orPanic bind]; discriminate.
  - destruct (deref h st); cbn [orPanic bind]; discriminate.
  - destruct (deref h st); cbn [orPanic bind]; discriminate.
Qed.

Lemma common_fuel_finished (st : StarRef) (h : Heap) (ch : list Node) :
  Forall (fun c => forall st0 h0, exists fuel, finished (insertStar fuel c st0 h0)) ch ->
  exists fuel, forall c, In c ch -> finished (insertStar fuel c st h).
Proof.
  induction 1 as [| c ch Hc _ [f2 IH]].
  - exists O. intros c [].
  - destruct (Hc st h) as [f1 H1].
    exists (Nat.max f1 f2). intros c0 [<- | Hc0].
    + rewrite (insertStar_stable_le _ _ _ _ _ (Nat.le_max_l f1 f2) H1). exact H1.
    + rewrite (insertStar_stable_le _ _ _ _ _ (Nat.le_max_r f1 f2) (IH c0 Hc0)).
      apply IH. exact Hc0.
Qed.

Lemma insertStar_finishes :
  forall node st h, exists fuel, finished (insertStar fuel node st h).
Proof.
  induction node as [q s0 ch IH] using Node_ind'. intros st h.
  destruct ch as [| c ch].
  - destruct s0 as [existing |].
    2:{ exists 1%nat. rewrite insertStar_empty. discriminate. }
    destruct (deref h existing) as [se |] eqn:Hse.
    2:{ exists 1%nat. rewrite insertStar_leaf, Hse. discriminate. }
    destruct (deref h st) as [s |] eqn:Hs.
    2:{ exists 1%nat. rewrite insertStar_leaf, Hse, Hs. discriminate. }
    destruct (Reqb (x (position se)) (x (position s))
              && Reqb (y (position se)) (y (position s))) eqn:Heq.
    { exists 1%nat. rewrite insertStar_leaf, Hse, Hs. cbn [orPanic bind].
      rewrite Heq. destruct existing; discriminate. }
    assert (Hne : position se <> position s).
    { intros Hp. rewrite Hp, !Reqb_true in Heq by reflexivity. discriminate Heq. }
    destruct (halving_reaches (width q / 2) (spread se s) (spread_pos _ _ Hne))
      as [k Hk].
    exists (S (S k)). apply (leaf_split_finishes k q existing st se s h Hse Hs).
    intros q' Hw Hre Hr. apply (leaf_finishes k q' existing st se s h); auto.
    rewrite Hw. exact Hk.
  - destruct (updateCenterOfMass (mkNode q s0 (c :: ch)) st h)
      as [[node1 h1] | |] eqn:Eup.
    + destruct (common_fuel_finished st h1 _ IH) as [f Hf].
      exists (S f). rewrite insertStar_inner, Eup. cbn [bind].
      apply insertIntoChild_finished.
      rewrite (updateCenterOfMass_Ok _ _ _ _ _ Eup). cbn [children].
      intros c0 s1 Hc0 _ _. apply Hf. exact Hc0.
    + exists 1%nat. rewrite insertStar_inner, Eup. discriminate.
    + exfalso. exact (updateCenterOfMass_finished _ _ _ Eup).
Qed.

Lemma insertAll_finishes l :
  forall node h, exists fuel, finished (insertAll fuel node l h).
Proof.
  induction l as [| a l IH]; intros node h.
  - exists O. discriminate.
  - destruct (insertStar_finishes node (Real a) h) as [f1 H1].
    destruct (insertStar f1 node (Real a) h) as [[n1 h1] | |] eqn:E1.
    + destruct (IH n1 h1) as [f2 H2].
      exists (Nat.max f1 f2). cbn [insertAll].
      rewrite (insertStar_stable_le f1 _ _ _ _ (Nat.le_max_l f1 f2))
        by (rewrite E1; discriminate).
      rewrite E1. cbn [bind].
      rewrite (insertAll_stable_le _ _ _ (Nat.le_max_r f1 f2) _ _ H2). exact H2.
    + exists f1. cbn [insertAll]. rewrite E1. discriminate.
    + exfalso. apply H1. reflexivity.
Qed.

(** X9. Building the tree terminates on every input. For every universe and
    every store, whatever the positions, masses and width, there is an
    amount of fuel with which [GenerateQuadTree] returns or panics, and with
    more fuel it answers the same: two stars at different positions are
    separated after finitely many halvings of the sector, and two stars at
    the same position take the coincidence branch instead of splitting for
    ever. *)
Theorem tree_build_terminates (u : Universe) (h : Heap) :
  exists fuel,
    finished (GenerateQuadTree fuel u h)
    /\ forall fuel', (fuel <= fuel')%nat ->
                     GenerateQuadTree fuel' u h = GenerateQuadTree fuel u h.
Proof.
  destruct (insertAll_finishes (stars u) (emptyNode (mkQuadrant 0 0 (uwidth u))) h)
    as [fuel H].
  exists fuel. split.
  - unfold GenerateQuadTree, finished in *.
    destruct (insertAll fuel (emptyNode (mkQuadrant 0 0 (uwidth u))) (stars u) h)
      as [[r h'] | |]; cbn [bind];
      [discriminate | discriminate | exfalso; apply H; reflexivity].
  - intros fuel' Hle. unfold GenerateQuadTree.
    rewrite (insertAll_stable_le _ _ _ Hle _ _ H). reflexivity.
Qed.

(** ** The driver on the runs that return *)

(** X10. Whenever [BarnesHut] returns, [numGens] is not negative and the
    result has [numGens + 1] universes: the initial universe itself,
    followed by the universes that the successive calls of [updateUniverse]
    return, each called on the universe before it and on the store the call
    before it left. *)
Theorem simulation_is_a_chain (fuel : nat) (u : Universe) (numGens : Z)
  (time theta : R) (h : Heap) (l : list Universe) (h' : Heap) :
  BarnesHut fuel u numGens time theta h = Ok (l, h') ->
  (0 <= numGens)%Z
  /\ length l = Z.to_nat (numGens + 1)
  /\ exists rest, l = u :: rest /\ Steps fuel time theta u h rest h'.
Proof.
  unfold BarnesHut. intros H.
  destruct (Z.ltb_spec numGens 0) as [Hlt | Hge]; [discriminate H |].
  destruct (generations fuel (Z.to_nat numGens) u time theta h)
    as [[rest h2] | |] eqn:E; cbn [bind] in H; try discriminate H.
  injection H as <- <-.
  destruct (generations_Steps _ _ _ _ _ _ _ _ E) as [Hlen Hst].
  split; [exact Hge |]. split.
  - simpl. rewrite Hlen. lia.
  - exists rest. auto.
Qed.

Lemma simulation_is_a_chain_witness :
  exists l h',
    BarnesHut 1 (mkUniverse 10 [0%nat]) 2 1 (1 / 2) [starAt 1 1 1] = Ok (l, h')
    /\ (0 <= 2)%Z
    /\ length l = Z.to_nat (2 + 1)
    /\ exists rest,
         l = mkUniverse 10 [0%nat] :: rest
         /\ Steps 1 1 (1 / 2) (mkUniverse 10 [0%nat]) [starAt 1 1 1] rest h'.
Proof.
  assert (E : exists l h',
             BarnesHut 1 (mkUniverse 10 [0%nat]) 2 1 (1 / 2) [starAt 1 1 1]
             = Ok (l, h')).
  { eexists. eexists. unfold BarnesHut. cbn [Z.ltb Z.compare].
    change (Z.to_nat 2) with 2%nat.
    rewrite (generations_lone 0 10 1 (1 / 2) 2 0%nat (starAt 1 1 1)) by reflexivity.
    reflexivity. }
  destruct E as [l [h' E]]. exists l, h'. split; [exact E |].
  exact (simulation_is_a_chain 1 (mkUniverse 10 [0%nat]) 2 1 (1 / 2)
           [starAt 1 1 1] l h' E).
Defined.




(** ** [Push] *)

Lemma pushed_once n vx vy s :
  pushed n vx vy (setVelocity s (mkPair (x (velocity s) + vx) (y (velocity s) + vy)))
  = pushed (S n) vx vy s.
Proof.
  unfold pushed, setVelocity. cbn [position velocity acceleration mass radius red
                                     green blue x y].
  rewrite S_INR. f_equal. apply pair_eq; cbn [x y]; lra.
Qed.

Lemma pushed_zero vx vy s : pushed 0 vx vy s = s.
Proof.
  destruct s as [p [vx0 vy0] a m r cr cg cb]. unfold pushed, setVelocity. simpl.
  f_equal. apply pair_eq; simpl; lra.
Qed.

Lemma pushed_back n vx vy s : pushed n (- vx) (- vy) (pushed n vx vy s) = s.
Proof.
  destruct s as [p [vx0 vy0] a m r cr cg cb]. unfold pushed, setVelocity. simpl.
  f_equal. apply pair_eq; simpl; lra.
Qed.

Lemma Push_cons a g vx vy h s :
  load h a = Some s ->
  Push (a :: g) vx vy h
  = Push g vx vy
      (store h a (setVelocity s (mkPair (x (velocity s) + vx) (y (velocity s) + vy)))).
Proof.
  intros Hs. pose proof (load_Some_lt _ _ _ Hs) as Hlt.
  cbn [Push]. rewrite Hs. cbn [orPanic bind].
  rewrite load_store_same by exact Hlt. cbn [orPanic bind].
  rewrite store_store. reflexivity.
Qed.

Lemma Push_Ok g vx vy :
  forall h,
    Forall (fun a => (a < length h)%nat) g ->
    exists h',
      Push g vx vy h = Ok h'
      /\ length h' = length h
      /\ forall b s, load h b = Some s ->
           load h' b = Some (pushed (count_occ Nat.eq_dec g b) vx vy s).
Proof.
  induction g as [| a g IH]; intros h Hv.
  - exists h. repeat split; auto. intros b s Hb. simpl. rewrite pushed_zero. exact Hb.
  - inversion Hv as [| ? ? Ha Hg]; subst.
    destruct (load h a) as [s0 |] eqn:Hs0.
    2:{ exfalso. apply nth_error_None in Hs0. lia. }
    rewrite (Push_cons _ _ _ _ _ _ Hs0).
    set (h2 := store h a (setVelocity s0 (mkPair (x (velocity s0) + vx)
                                             (y (velocity s0) + vy)))).
    destruct (IH h2) as [h' [E [Hlen Hall]]].
    { unfold h2. rewrite length_store. exact Hg. }
    exists h'. split; [exact E |]. split.
    { rewrite Hlen. unfold h2. apply length_store. }
    intros b s Hb. cbn [count_occ].
    destruct (Nat.eq_dec a b) as [-> | Hne].
    + rewrite Hs0 in Hb. injection Hb as ->.
      rewrite <- pushed_once. apply Hall. unfold h2. apply load_store_same. exact Ha.
    + apply Hall. unfold h2. rewrite load_store_other by exact Hne. exact Hb.
Qed.

Lemma Heap_ext (h h' : Heap) :
  length h' = length h ->
  (forall b s, load h b = Some s -> load h' b = Some s) ->
  h' = h.
Proof.
  revert h'. induction h as [| s h IH]; intros [| s' h'] Hlen H; try discriminate Hlen.
  - reflexivity.
  - pose proof (H 0%nat s eq_refl) as H0. injection H0 as ->.
    f_equal. apply IH; [simpl in Hlen; lia |].
    intros b sb Hb. exact (H (S b) sb Hb).
Qed.

(** X12. [Push] moves the velocity of every star of the galaxy by [(vx, vy)],
    once for each time the star occurs in the galaxy, and changes nothing
    else: no other field, no other star, no size. For a galaxy whose stars
    are objects of the store it does not panic, and pushing back with
    [(-vx, -vy)] restores the store, over the reals. *)
Theorem Push_moves_velocities (g : list addr) (vx vy : R) (h : Heap) :
  Forall (fun a => (a < length h)%nat) g ->
  exists h',
    Push g vx vy h = Ok h'
    /\ length h' = length h
    /\ (forall b s, load h b = Some s ->
          exists s',
            load h' b = Some s'
            /\ x (velocity s') = x (velocity s) + INR (count_occ Nat.eq_dec g b) * vx
            /\ y (velocity s') = y (velocity s) + INR (count_occ Nat.eq_dec g b) * vy
            /\ position s' = position s /\ acceleration s' = acceleration s
            /\ mass s' = mass s /\ radius s' = radius s
            /\ red s' = red s /\ green s' = green s /\ blue s' = blue s)
    /\ Push g (- vx) (- vy) h' = Ok h.
Proof.
  intros Hv. destruct (Push_Ok g vx vy h Hv) as [h' [E [Hlen Hall]]].
  exists h'. split; [exact E |]. split; [exact Hlen |]. split.
  - intros b s Hb. eexists. split; [apply Hall; exact Hb |].
    unfold pushed. simpl. repeat split.
  - destruct (Push_Ok g (- vx) (- vy) h') as [h2 [E2 [Hlen2 Hall2]]].
    { rewrite Hlen. exact Hv. }
    rewrite E2. f_equal. apply Heap_ext; [congruence |].
    intros b s Hb. rewrite <- (pushed_back (count_occ Nat.eq_dec g b) vx vy s).
    apply Hall2. apply Hall. exact Hb.
Qed.

Lemma Push_moves_velocities_witness :
  Forall (fun a => (a < length heapTwo)%nat) [0%nat; 1%nat; 0%nat]
  /\ exists h',
       Push [0%nat; 1%nat; 0%nat] 1000 0 heapTwo = Ok h'
       /\ length h' = length heapTwo
       /\ (forall b s, load heapTwo b = Some s ->
             exists s',
               load h' b = Some s'
               /\ x (velocity s')
                  = x (velocity s)
                    + INR (count_occ Nat.eq_dec [0%nat; 1%nat; 0%nat] b) * 1000
               /\ y (velocity s')
                  = y (velocity s)
                    + INR (count_occ Nat.eq_dec [0%nat; 1%nat; 0%nat] b) * 0
               /\ position s' = position s /\ acceleration s' = acceleration s
               /\ mass s' = mass s /\ radius s' = radius s
               /\ red s' = red s /\ green s' = green s /\ blue s' = blue s)
       /\ Push [0%nat; 1%nat; 0%nat] (- 1000) (- 0) h' = Ok heapTwo.
Proof.
  assert (H : Forall (fun a => (a < length heapTwo)%nat) [0%nat; 1%nat; 0%nat]).
  { repeat constructor. }
  split; [exact H |].
  exact (Push_moves_velocities [0%nat; 1%nat; 0%nat] 1000 0 heapTwo H).
Defined.

(** ** Sandpiles *)

Local Open Scope Z_scope.

Lemma wrapInt_id z : minInt <= z <= maxInt -> wrapInt z = z.
Proof.
  unfold wrapInt, minInt, maxInt. intros H.
  rewrite Z.mod_small; lia.
Qed.

Lemma idx_Some {A : Type} (l : list A) i a :
  idx l i = Some a ->
  0 <= i < Z.of_nat (length l) /\ nth_error l (Z.to_nat i) = Some a.
Proof.
  unfold idx. destruct (Z.ltb_spec i 0) as [Hlt | Hge]; [discriminate |].
  intros H. split; [| exact H].
  assert (Z.to_nat i < length l)%nat by (apply nth_error_Some; congruence). lia.
Qed.

Lemma idx_of_nat {A : Type} (l : list A) k : idx l (Z.of_nat k) = nth_error l k.
Proof.
  unfold idx. destruct (Z.ltb_spec (Z.of_nat k) 0) as [Hlt | Hge]; [lia |].
  rewrite Nat2Z.id. reflexivity.
Qed.

Lemma idx_in_range {A : Type} (l : list A) i :
  0 <= i < Z.of_nat (length l) -> exists a, idx l i = Some a.
Proof.
  intros H. unfold idx. destruct (Z.ltb_spec i 0) as [Hlt | Hge]; [lia |].
  destruct (nth_error l (Z.to_nat i)) as [a |] eqn:E; [eauto |].
  apply nth_error_None in E. lia.
Qed.

Lemma idx_None {A : Type} (l : list A) i :
  i < 0 \/ Z.of_nat (length l) <= i -> idx l i = None.
Proof.
  intros H. unfold idx. destruct (Z.ltb_spec i 0) as [Hlt | Hge]; [reflexivity |].
  apply nth_error_None. lia.
Qed.

Lemma length_setNth {A : Type} (l : list A) n a : length (setNth l n a) = length l.
Proof. revert n. induction l as [| e l IH]; intros [| n]; simpl; auto. Qed.

Lemma nth_setNth_same {A : Type} (l : list A) n a :
  (n < length l)%nat -> nth_error (setNth l n a) n = Some a.
Proof.
  revert n. induction l as [| e l IH]; intros [| n] H; simpl in *; try lia; auto.
  apply IH. lia.
Qed.

Lemma nth_setNth_other {A : Type} (l : list A) n m a :
  n <> m -> nth_error (setNth l n a) m = nth_error l m.
Proof.
  revert n m. induction l as [| e l IH]; intros [| n] [| m] H; simpl; auto;
    congruence.
Qed.

Lemma Forall_setNth {A : Type} (P : A -> Prop) (l : list A) n a :
  Forall P l -> P a -> Forall P (setNth l n a).
Proof.
  intros Hl Ha. revert n. induction Hl as [| e l He Hl IH]; intros [| n]; simpl;
    constructor; auto.
Qed.

Lemma idx_setNth_same {A : Type} (l : list A) i a :
  0 <= i < Z.of_nat (length l) -> idx (setNth l (Z.to_nat i) a) i = Some a.
Proof.
  intros H. unfold idx. destruct (Z.ltb_spec i 0) as [Hlt | Hge]; [lia |].
  apply nth_setNth_same. lia.
Qed.

Lemma idx_setNth_other {A : Type} (l : list A) i j a :
  0 <= i -> i <> j -> idx (setNth l (Z.to_nat i) a) j = idx l j.
Proof.
  intros Hi Hne. unfold idx. destruct (Z.ltb_spec j 0) as [Hlt | Hge]; [reflexivity |].
  apply nth_setNth_other. lia.
Qed.

Lemma shape_setNth (b : Board) k (row row' : list Z) :
  nth_error b k = Some row -> length row' = length row ->
  map (@length Z) (setNth b k row') = map (@length Z) b.
Proof.
  revert k. induction b as [| e b IH]; intros [| k] H Hlen; simpl in *;
    try discriminate.
  - injection H as ->. rewrite Hlen. reflexivity.
  - f_equal. apply IH; assumption.
Qed.

Lemma rowWeighted_setNth w c (row : list Z) k u v :
  nth_error row k = Some u ->
  rowWeighted w c (setNth row k v) = rowWeighted w c row + (v - u) * w (c + k)%nat.
Proof.
  revert c k. induction row as [| e row IH]; intros c [| k] H; simpl in *;
    try discriminate.
  - injection H as ->. rewrite Nat.add_0_r. ring.
  - rewrite (IH (S c) k H). replace (S c + k)%nat with (c + S k)%nat by lia. ring.
Qed.

Lemma weighted_setNth w r (b : Board) k (row row' : list Z) :
  nth_error b k = Some row ->
  weighted w r (setNth b k row')
  = weighted w r b - rowWeighted (w (r + k)%nat) 0 row
    + rowWeighted (w (r + k)%nat) 0 row'.
Proof.
  revert r k. induction b as [| e b IH]; intros r [| k] H; simpl in *;
    try discriminate.
  - injection H as ->. rewrite Nat.add_0_r. ring.
  - rewrite (IH (S r) k H). replace (S r + k)%nat with (r + S k)%nat by lia. ring.
Qed.

Lemma rowSum_weighted (row : list Z) c : rowSum row = rowWeighted (fun _ => 1) c row.
Proof.
  revert c. induction row as [| e row IH]; intros c; [reflexivity |].
  change (rowSum (e :: row)) with (e + rowSum row).
  cbn [rowWeighted]. rewrite (IH (S c)). ring.
Qed.

Lemma total_weighted (b : Board) r : total b = weighted (fun _ _ => 1) r b.
Proof.
  revert r. induction b as [| e b IH]; intros r; [reflexivity |].
  change (total (e :: b)) with (rowSum e + total b).
  cbn [weighted]. rewrite (IH (S r)). rewrite (rowSum_weighted e 0). reflexivity.
Qed.

Lemma total_wsum (b : Board) : total b = wsum (fun _ _ => 1) b.
Proof. unfold wsum. apply total_weighted. Qed.

(** *** Cells *)

Lemma getCell_Some (b : Board) r c u :
  getCell b r c = Some u ->
  exists row,
    idx b r = Some row /\ idx row c = Some u
    /\ 0 <= r < Z.of_nat (length b) /\ 0 <= c < Z.of_nat (length row).
Proof.
  unfold getCell. destruct (idx b r) as [row |] eqn:Er; [| discriminate].
  intros Hc. exists row. destruct (idx_Some _ _ _ Er). destruct (idx_Some _ _ _ Hc).
  auto.
Qed.

Lemma rectangular_idx n (b : Board) r row :
  rectangular n b -> idx b r = Some row -> length row = n.
Proof.
  intros Hr H. destruct (idx_Some _ _ _ H) as [_ Hn].
  unfold rectangular in Hr. rewrite Forall_forall in Hr. apply Hr.
  eapply nth_error_In. exact Hn.
Qed.

Lemma getCell_rect n (b : Board) r c :
  rectangular n b -> 0 <= r < Z.of_nat (length b) -> 0 <= c < Z.of_nat n ->
  exists u, getCell b r c = Some u.
Proof.
  intros Hr Hrow Hcol. destruct (idx_in_range b r Hrow) as [row Erow].
  pose proof (rectangular_idx _ _ _ _ Hr Erow) as Hlen.
  unfold getCell. rewrite Erow. apply idx_in_range. lia.
Qed.

Lemma getCell_bounds n (b : Board) r c u :
  rectangular n b -> getCell b r c = Some u ->
  0 <= r < Z.of_nat (length b) /\ 0 <= c < Z.of_nat n.
Proof.
  intros Hr H. destruct (getCell_Some _ _ _ _ H) as [row [Er [_ [H1 H2]]]].
  rewrite (rectangular_idx _ _ _ _ Hr Er) in H2. auto.
Qed.

Lemma rectangular_shape n (b b' : Board) :
  map (@length Z) b' = map (@length Z) b -> rectangular n b -> rectangular n b'.
Proof.
  unfold rectangular. intros Hs Hr.
  apply (proj1 (Forall_map (@length Z) (fun k => k = n) b')). rewrite Hs.
  apply (proj2 (Forall_map (@length Z) (fun k => k = n) b)). exact Hr.
Qed.

Lemma shape_length (b b' : Board) :
  map (@length Z) b' = map (@length Z) b -> length b' = length b.
Proof.
  intros H. apply (f_equal (@length nat)) in H. rewrite !length_map in H. exact H.
Qed.

Lemma shape_setCell (b : Board) r c v :
  map (@length Z) (setCell b r c v) = map (@length Z) b.
Proof.
  unfold setCell. destruct (idx b r) as [row |] eqn:Er; [| reflexivity].
  destruct (idx_Some _ _ _ Er) as [_ Hn].
  apply (shape_setNth _ _ row); [exact Hn | apply length_setNth].
Qed.

Lemma getCell_setCell (b : Board) r c u v r' c' :
  getCell b r c = Some u ->
  getCell (setCell b r c v) r' c'
  = if (r' =? r) && (c' =? c) then Some v else getCell b r' c'.
Proof.
  intros H. destruct (getCell_Some _ _ _ _ H) as [row [Er [Ec [Hr Hc]]]].
  unfold setCell. rewrite Er. unfold getCell.
  destruct (Z.eqb_spec r' r) as [-> | Hne].
  - rewrite idx_setNth_same by exact Hr. rewrite Er. cbn [andb].
    destruct (Z.eqb_spec c' c) as [-> | Hnc].
    + apply idx_setNth_same. exact Hc.
    + apply idx_setNth_other; [lia | congruence].
  - cbn [andb]. rewrite idx_setNth_other by (try lia; congruence). reflexivity.
Qed.

Lemma wsum_setCell W (b : Board) r c u v :
  getCell b r c = Some u ->
  wsum W (setCell b r c v) = wsum W b + (v - u) * W r c.
Proof.
  intros H. destruct (getCell_Some _ _ _ _ H) as [row [Er [Ec [Hr Hc]]]].
  destruct (idx_Some _ _ _ Er) as [_ Hnr]. destruct (idx_Some _ _ _ Ec) as [_ Hnc].
  unfold setCell. rewrite Er. unfold wsum.
  rewrite (weighted_setNth _ _ _ _ row _ Hnr).
  rewrite (rowWeighted_setNth _ _ _ _ u v Hnc).
  cbn [Nat.add]. rewrite !Z2Nat.id by lia. ring.
Qed.

Lemma allCells_setCell (P : Z -> Prop) (b : Board) r c v :
  allCells P b -> P v -> allCells P (setCell b r c v).
Proof.
  intros Hb Hv. unfold setCell. destruct (idx b r) as [row |] eqn:Er; [| exact Hb].
  destruct (idx_Some _ _ _ Er) as [_ Hn].
  apply Forall_setNth; [exact Hb |].
  apply Forall_setNth; [| exact Hv].
  unfold allCells in Hb. rewrite Forall_forall in Hb. apply Hb.
  eapply nth_error_In. exact Hn.
Qed.

Lemma allCells_getCell (P : Z -> Prop) (b : Board) r c u :
  allCells P b -> getCell b r c = Some u -> P u.
Proof.
  intros Hb H. destruct (getCell_Some _ _ _ _ H) as [row [Er [Ec _]]].
  destruct (idx_Some _ _ _ Er) as [_ Hnr]. destruct (idx_Some _ _ _ Ec) as [_ Hnc].
  unfold allCells in Hb. rewrite Forall_forall in Hb.
  pose proof (Hb row (nth_error_In _ _ Hnr)) as Hrow.
  rewrite Forall_forall in Hrow. apply Hrow. eapply nth_error_In. exact Hnc.
Qed.

Lemma allCells_intro (P : Z -> Prop) (b : Board) :
  (forall r c u, getCell b r c = Some u -> P u) -> allCells P b.
Proof.
  intros H. unfold allCells. apply Forall_forall. intros row Hin.
  apply Forall_forall. intros u Hu.
  destruct (In_nth_error _ _ Hin) as [r Hr]. destruct (In_nth_error _ _ Hu) as [c Hc].
  apply (H (Z.of_nat r) (Z.of_nat c)). unfold getCell.
  rewrite idx_of_nat, Hr. rewrite idx_of_nat. exact Hc.
Qed.

Lemma shape_getCell (b b' : Board) r c u :
  map (@length Z) b' = map (@length Z) b -> getCell b' r c = Some u ->
  exists u0, getCell b r c = Some u0.
Proof.
  intros Hs H. destruct (getCell_Some _ _ _ _ H) as [row' [Er [Ec [Hr Hc]]]].
  destruct (idx_Some _ _ _ Er) as [_ Hnr].
  pose proof (shape_length _ _ Hs) as Hlen.
  destruct (idx_in_range b r) as [row Erow]; [lia |].
  destruct (idx_Some _ _ _ Erow) as [_ Hnrow].
  assert (Hl : length row = length row').
  { pose proof (map_nth_error (@length Z) _ _ Hnr) as H1.
    pose proof (map_nth_error (@length Z) _ _ Hnrow) as H2.
    rewrite Hs in H1. congruence. }
  unfold getCell. rewrite Erow. apply idx_in_range. lia.
Qed.

(** *** One toppling *)

Ltac split_tests :=
  repeat match goal with
    | |- context [?a =? ?b] => destruct (Z.eqb_spec a b); cbn [andb]; try lia
    | |- context [?a <? ?b] => destruct (Z.ltb_spec a b); cbn [andb]; try lia
    end.

Lemma moved_refl (b : Board) : moved (fun _ _ => 0) b b.
Proof.
  split; [reflexivity |]. intros r c u H. rewrite Z.add_0_r. exact H.
Qed.

Lemma moved_ext (f g : Z -> Z -> Z) (b b' : Board) :
  moved f b b' ->
  (forall r c u, getCell b r c = Some u -> f r c = g r c) ->
  moved g b b'.
Proof.
  intros [Hs Hp] Hfg. split; [exact Hs |].
  intros r c u H. rewrite <- (Hfg _ _ _ H). apply Hp. exact H.
Qed.

Section Toppling.

Variable W : Z -> Z -> Z.

Lemma addCell_step f (b b' : Board) r c d u t :
  moved f b b' -> wsum W b' = wsum W b + t ->
  getCell b r c = Some u ->
  minInt <= u + f r c + d <= maxInt ->
  exists b'',
    addCell b' r c d = Ok b''
    /\ moved (fun r' c' => f r' c' + (if (r' =? r) && (c' =? c) then d else 0)) b b''
    /\ wsum W b'' = wsum W b + (t + d * W r c).
Proof.
  intros [Hs Hp] Hw Hu Hb.
  pose proof (Hp _ _ _ Hu) as Hu'.
  unfold addCell. rewrite Hu'. cbn [orPanic bind].
  rewrite wrapInt_id by lia. eexists. split; [reflexivity |]. split; [split |].
  - rewrite shape_setCell. exact Hs.
  - intros r' c' u0 H0. rewrite (getCell_setCell _ _ _ _ _ _ _ Hu').
    destruct ((r' =? r) && (c' =? c)) eqn:E.
    + apply andb_true_iff in E. destruct E as [E1 E2].
      apply Z.eqb_eq in E1, E2. subst r' c'.
      rewrite Hu in H0. injection H0 as <-. f_equal. ring.
    + rewrite (Hp _ _ _ H0). f_equal. ring.
  - rewrite (wsum_setCell _ _ _ _ _ _ Hu'). rewrite Hw. ring.
Qed.

Lemma cond_step (cond : bool) f (b b' : Board) r c t :
  moved f b b' -> wsum W b' = wsum W b + t ->
  (cond = true ->
   exists u, getCell b r c = Some u /\ minInt <= u + f r c + 1 <= maxInt) ->
  exists b'',
    (if cond then addCell b' r c 1 else Ok b') = Ok b''
    /\ moved (fun r' c' =>
                f r' c' + (if cond && ((r' =? r) && (c' =? c)) then 1 else 0)) b b''
    /\ wsum W b'' = wsum W b + (t + (if cond then W r c else 0)).
Proof.
  intros Hm Hw Hc. destruct cond.
  - destruct (Hc eq_refl) as [u [Hu Hb]].
    destruct (addCell_step f b b' r c 1 u t Hm Hw Hu Hb) as [b'' [E [Hm' Hw']]].
    exists b''. split; [exact E |]. split; [exact Hm' |].
    rewrite Hw'. ring.
  - exists b'. split; [reflexivity |]. split.
    + eapply moved_ext; [exact Hm |]. intros. cbn [andb]. ring.
    + rewrite Hw. ring.
Qed.

Lemma Topple_effect (n : nat) (b : Board) (row col v : Z) :
  rectangular n b ->
  allCells (fun u => minInt <= u < maxInt) b ->
  getCell b row col = Some v ->
  4 <= v ->
  exists b',
    Topple b row col = Ok b'
    /\ moved (toppleDelta row col) b b'
    /\ wsum W b'
       = wsum W b - 4 * W row col
         + (if row >? 0 then W (row - 1) col else 0)
         + (if row <? Z.of_nat (length b) - 1 then W (row + 1) col else 0)
         + (if col >? 0 then W row (col - 1) else 0)
         + (if col <? Z.of_nat n - 1 then W row (col + 1) else 0).
Proof.
  intros Hrect Hall Hv H4.
  pose proof (getCell_bounds _ _ _ _ _ Hrect Hv) as [Hrow Hcol].
  pose proof (allCells_getCell _ _ _ _ _ Hall Hv) as Hvb. cbv beta in Hvb.
  assert (Hnb : forall r c,
             0 <= r < Z.of_nat (length b) -> 0 <= c < Z.of_nat n ->
             exists u, getCell b r c = Some u /\ minInt <= u < maxInt).
  { intros r c Hr Hc. destruct (getCell_rect n b r c Hrect Hr Hc) as [u Hu].
    exists u. split; [exact Hu |]. exact (allCells_getCell _ _ _ _ _ Hall Hu). }
  unfold Topple. rewrite Hv. cbn [orPanic bind].
  destruct (Z.ltb_spec v 4) as [Hlt | _]; [lia |].
  destruct (addCell_step (fun _ _ => 0) b b row col (- 4) v 0 (moved_refl b))
    as [b1 [E1 [M1 W1]]]; [ring | exact Hv | unfold minInt, maxInt in *; lia |].
  rewrite E1. cbn [bind].
  pose proof (proj1 M1) as Hs1. pose proof (shape_length _ _ Hs1) as Hl1.
  destruct (idx_in_range b1 0) as [r0 Er0]; [lia |].
  pose proof (rectangular_idx _ _ _ _ (rectangular_shape _ _ _ Hs1 Hrect) Er0) as Hr0.
  rewrite Er0. cbn [orPanic bind]. rewrite Hl1, Hr0.
  rewrite !Z.gtb_ltb.
  destruct (cond_step (0 <? row) _ b b1 (row - 1) col _ M1 W1) as [b2 [E2 [M2 W2]]].
  { intros Hc. apply Z.ltb_lt in Hc.
    destruct (Hnb (row - 1) col) as [u [Hu Hub]]; [lia | lia |].
    exists u. split; [exact Hu |]. unfold minInt, maxInt in *. split_tests. }
  rewrite E2. cbn [bind].
  destruct (cond_step (row <? Z.of_nat (length b) - 1) _ b b2 (row + 1) col _ M2 W2)
    as [b3 [E3 [M3 W3]]].
  { intros Hc. apply Z.ltb_lt in Hc.
    destruct (Hnb (row + 1) col) as [u [Hu Hub]]; [lia | lia |].
    exists u. split; [exact Hu |]. unfold minInt, maxInt in *. split_tests. }
  rewrite E3. cbn [bind].
  destruct (cond_step (0 <? col) _ b b3 row (col - 1) _ M3 W3) as [b4 [E4 [M4 W4]]].
  { intros Hc. apply Z.ltb_lt in Hc.
    destruct (Hnb row (col - 1)) as [u [Hu Hub]]; [lia | lia |].
    exists u. split; [exact Hu |]. unfold minInt, maxInt in *. split_tests. }
  rewrite E4. cbn [bind].
  destruct (cond_step (col <? Z.of_nat n - 1) _ b b4 row (col + 1) _ M4 W4)
    as [b5 [E5 [M5 W5]]].
  { intros Hc. apply Z.ltb_lt in Hc.
    destruct (Hnb row (col + 1)) as [u [Hu Hub]]; [lia | lia |].
    exists u. split; [exact Hu |]. unfold minInt, maxInt in *. split_tests. }
  exists b5. split; [exact E5 |]. split.
  - eapply moved_ext; [exact M5 |]. intros r c u Hu.
    pose proof (getCell_bounds _ _ _ _ _ Hrect Hu) as [Hr Hc].
    unfold toppleDelta. split_tests.
  - rewrite W5. ring.
Qed.

End Toppling.

(** X13. Toppling a cell of a rectangular board whose cells are below the
    largest [int]: a cell with fewer than four coins leaves the board as it
    is; otherwise the cell loses four coins, each neighbour that the board
    has gains one, no other cell changes, and the coins that would go over
    an edge are lost, so that the board keeps its coins exactly when the
    cell has four neighbours. *)
Theorem Topple_moves_coins (n : nat) (b : Board) (row col v : Z) :
  rectangular n b ->
  allCells (fun u => minInt <= u < maxInt) b ->
  getCell b row col = Some v ->
  exists b',
    Topple b row col = Ok b'
    /\ map (@length Z) b' = map (@length Z) b
    /\ (v < 4 -> b' = b)
    /\ (4 <= v ->
        (forall r c u, getCell b r c = Some u ->
           getCell b' r c = Some (u + toppleDelta row col r c))
        /\ total b'
           = total b - 4 + neighbours (Z.of_nat (length b)) (Z.of_nat n) row col).
Proof.
  intros Hrect Hall Hv. destruct (Z.ltb_spec v 4) as [Hlt | Hge].
  - exists b. unfold Topple. rewrite Hv. cbn [orPanic bind].
    destruct (Z.ltb_spec v 4) as [_ | Hge]; [| lia].
    split; [reflexivity |]. split; [reflexivity |]. split; [reflexivity |].
    intros; lia.
  - destruct (Topple_effect (fun _ _ => 1) n b row col v Hrect Hall Hv Hge)
      as [b' [E [[Hs Hp] Hw]]].
    exists b'. split; [exact E |]. split; [exact Hs |]. split; [intros; lia |].
    intros _. split; [exact Hp |].
    rewrite !total_wsum, Hw. unfold neighbours.
    destruct (row >? 0), (row <? Z.of_nat (length b) - 1), (col >? 0),
      (col <? Z.of_nat n - 1); ring.
Qed.

Lemma Topple_moves_coins_witness :
  rectangular 3 [[0; 1; 0]; [2; 5; 3]; [0; 0; 7]]
  /\ allCells (fun u => minInt <= u < maxInt) [[0; 1; 0]; [2; 5; 3]; [0; 0; 7]]
  /\ getCell [[0; 1; 0]; [2; 5; 3]; [0; 0; 7]] 1 1 = Some 5
  /\ exists b',
       Topple [[0; 1; 0]; [2; 5; 3]; [0; 0; 7]] 1 1 = Ok b'
       /\ map (@length Z) b' = map (@length Z) [[0; 1; 0]; [2; 5; 3]; [0; 0; 7]]
       /\ (5 < 4 -> b' = [[0; 1; 0]; [2; 5; 3]; [0; 0; 7]])
       /\ (4 <= 5 ->
           (forall r c u,
               getCell [[0; 1; 0]; [2; 5; 3]; [0; 0; 7]] r c = Some u ->
               getCell b' r c = Some (u + toppleDelta 1 1 r c))
           /\ total b'
              = total [[0; 1; 0]; [2; 5; 3]; [0; 0; 7]] - 4
                + neighbours
                    (Z.of_nat (length [[0; 1; 0]; [2; 5; 3]; [0; 0; 7]]))
                    (Z.of_nat 3) 1 1).
Proof.
  assert (H1 : rectangular 3 [[0; 1; 0]; [2; 5; 3]; [0; 0; 7]]).
  { repeat constructor. }
  assert (H2 : allCells (fun u => minInt <= u < maxInt)
                 [[0; 1; 0]; [2; 5; 3]; [0; 0; 7]]).
  { unfold allCells, minInt, maxInt. repeat (constructor; try lia). }
  assert (H3 : getCell [[0; 1; 0]; [2; 5; 3]; [0; 0; 7]] 1 1 = Some 5).
  { reflexivity. }
  split; [exact H1 |]. split; [exact H2 |]. split; [exact H3 |].
  exact (Topple_moves_coins 3 [[0; 1; 0]; [2; 5; 3]; [0; 0; 7]] 1 1 5 H1 H2 H3).
Defined.

(** *** A ragged board *)

Lemma addCell_cases (b : Board) r c d :
  addCell b r c d = Panic
  \/ exists b', addCell b r c d = Ok b' /\ map (@length Z) b' = map (@length Z) b.
Proof.
  unfold addCell. destruct (getCell b r c) as [u |]; cbn [orPanic bind].
  - right. eexists. split; [reflexivity |]. apply shape_setCell.
  - left. reflexivity.
Qed.

Lemma cond_cases (cond : bool) (b : Board) r c :
  (if cond then addCell b r c 1 else Ok b) = Panic
  \/ exists b',
       (if cond then addCell b r c 1 else Ok b) = Ok b'
       /\ map (@length Z) b' = map (@length Z) b.
Proof.
  destruct cond; [apply addCell_cases |]. right. eauto.
Qed.

(** X14. [Topple] reads the number of columns off row 0. On a ragged board,
    toppling the last cell of a row that is shorter than row 0 panics: the
    cell to its right is looked for and is not there. *)
Theorem Topple_short_row_panics (b : Board) (row col v : Z) (r0 rw : list Z) :
  getCell b row col = Some v ->
  4 <= v ->
  idx b 0 = Some r0 ->
  idx b row = Some rw ->
  Z.of_nat (length rw) = col + 1 ->
  col + 1 < Z.of_nat (length r0) ->
  Topple b row col = Panic.
Proof.
  intros Hv H4 Hr0 Hrw Hlen Hshort.
  assert (Hnone : forall b', map (@length Z) b' = map (@length Z) b ->
                    getCell b' row (col + 1) = None).
  { intros b' Hs. destruct (getCell b' row (col + 1)) as [u |] eqn:E; [| reflexivity].
    destruct (shape_getCell _ _ _ _ _ Hs E) as [u0 Hu0].
    unfold getCell in Hu0. rewrite Hrw in Hu0.
    rewrite idx_None in Hu0 by lia. discriminate. }
  assert (Hzero : forall b', map (@length Z) b' = map (@length Z) b ->
                    exists r0', idx b' 0 = Some r0' /\ length r0' = length r0).
  { intros b' Hs. destruct (idx_Some _ _ _ Hr0) as [Hb0 Hn0].
    pose proof (shape_length _ _ Hs) as Hl.
    destruct (idx_in_range b' 0) as [r0' Er0']; [lia |].
    exists r0'. split; [exact Er0' |].
    destruct (idx_Some _ _ _ Er0') as [_ Hn0'].
    pose proof (map_nth_error (@length Z) _ _ Hn0) as H1.
    pose proof (map_nth_error (@length Z) _ _ Hn0') as H2.
    rewrite Hs in H2. congruence. }
  unfold Topple. rewrite Hv. cbn [orPanic bind].
  destruct (Z.ltb_spec v 4) as [Hlt | _]; [lia |].
  destruct (addCell_cases b row col (- 4)) as [E1 | [b1 [E1 Hs1]]];
    rewrite E1; cbn [bind]; [reflexivity |].
  destruct (Hzero b1 Hs1) as [r0' [Er0' Hl0]]. rewrite Er0'. cbn [orPanic bind].
  destruct (cond_cases (row >? 0) b1 (row - 1) col) as [E2 | [b2 [E2 Hs2]]];
    rewrite E2; cbn [bind]; [reflexivity |].
  destruct (cond_cases (row <? Z.of_nat (length b1) - 1) b2 (row + 1) col)
    as [E3 | [b3 [E3 Hs3]]]; rewrite E3; cbn [bind]; [reflexivity |].
  destruct (cond_cases (col >? 0) b3 row (col - 1)) as [E4 | [b4 [E4 Hs4]]];
    rewrite E4; cbn [bind]; [reflexivity |].
  destruct (Z.ltb_spec col (Z.of_nat (length r0') - 1)) as [_ | Hge]; [| lia].
  unfold addCell. rewrite Hnone by congruence. reflexivity.
Qed.

Lemma Topple_short_row_panics_witness :
  getCell [[0; 0; 0]; [1; 4]] 1 1 = Some 4
  /\ 4 <= 4
  /\ idx [[0; 0; 0]; [1; 4]] 0 = Some [0; 0; 0]
  /\ idx [[0; 0; 0]; [1; 4]] 1 = Some [1; 4]
  /\ Z.of_nat (length [1; 4]) = 1 + 1
  /\ 1 + 1 < Z.of_nat (length [0; 0; 0])
  /\ Topple [[0; 0; 0]; [1; 4]] 1 1 = Panic.
Proof.
  assert (H1 : getCell [[0; 0; 0]; [1; 4]] 1 1 = Some 4) by reflexivity.
  assert (H2 : 4 <= 4) by lia.
  assert (H3 : idx [[0; 0; 0]; [1; 4]] 0 = Some [0; 0; 0]) by reflexivity.
  assert (H4 : idx [[0; 0; 0]; [1; 4]] 1 = Some [1; 4]) by reflexivity.
  assert (H5 : Z.of_nat (length [1; 4]) = 1 + 1) by reflexivity.
  assert (H6 : 1 + 1 < Z.of_nat (length [0; 0; 0])) by (simpl; lia).
  repeat (split; [assumption |]).
  exact (Topple_short_row_panics _ 1 1 4 _ _ H1 H2 H3 H4 H5 H6).
Defined.

(** *** Boards on which nothing overflows *)

Lemma fold_add_bounds (l : list Z) :
  Forall (fun u => 0 <= u) l ->
  0 <= fold_right Z.add 0 l
  /\ forall k u, nth_error l k = Some u -> u <= fold_right Z.add 0 l.
Proof.
  induction 1 as [| e l He Hl [IH0 IH]]; simpl.
  - split; [lia |]. intros [| k] u H; discriminate.
  - split; [lia |]. intros [| k] u H; simpl in H.
    + injection H as ->. lia.
    + specialize (IH k u H). lia.
Qed.

Lemma cell_le_total (b : Board) r c u :
  allCells (fun u => 0 <= u) b -> getCell b r c = Some u -> u <= total b.
Proof.
  intros Hb H. destruct (getCell_Some _ _ _ _ H) as [row [Er [Ec _]]].
  destruct (idx_Some _ _ _ Er) as [_ Hnr]. destruct (idx_Some _ _ _ Ec) as [_ Hnc].
  assert (Hrows : Forall (fun s => 0 <= s) (map rowSum b)).
  { apply (proj2 (Forall_map rowSum (fun s => 0 <= s) b)).
    unfold allCells in Hb. eapply Forall_impl; [| exact Hb].
    intros row0 H0. apply (fold_add_bounds row0 H0). }
  pose proof (proj2 (fold_add_bounds _ Hrows) _ _ (map_nth_error rowSum _ _ Hnr)) as H1.
  unfold allCells in Hb. rewrite Forall_forall in Hb.
  pose proof (proj2 (fold_add_bounds row (Hb row (nth_error_In _ _ Hnr))) _ _ Hnc) as H2.
  unfold total. unfold rowSum in H1 at 1. lia.
Qed.

Lemma sound_bounds n (b : Board) :
  sound n b -> allCells (fun u => minInt <= u < maxInt) b.
Proof.
  intros [_ [Hpos Htot]]. apply allCells_intro. intros r c u H.
  pose proof (allCells_getCell _ _ _ _ _ Hpos H) as H0. cbv beta in H0.
  pose proof (cell_le_total _ _ _ _ Hpos H). unfold minInt in *. lia.
Qed.

Lemma rowWeighted_nonneg w c (row : list Z) :
  Forall (fun u => 0 <= u) row ->
  (forall k, (c <= k < c + length row)%nat -> 0 <= w k) ->
  0 <= rowWeighted w c row.
Proof.
  intros Hrow. revert c. induction Hrow as [| e row He Hrow IH]; intros c Hw; simpl.
  - lia.
  - assert (0 <= w c) by (apply Hw; simpl; lia).
    assert (0 <= rowWeighted w (S c) row) by (apply IH; intros k Hk; apply Hw; simpl; lia).
    nia.
Qed.

Lemma weighted_nonneg w n r (b : Board) :
  allCells (fun u => 0 <= u) b -> rectangular n b ->
  (forall i j, (r <= i < r + length b)%nat -> (j < n)%nat -> 0 <= w i j) ->
  0 <= weighted w r b.
Proof.
  intros Hb. revert r. induction Hb as [| row b Hrow Hb IH]; intros r Hrect Hw; simpl.
  - lia.
  - inversion Hrect as [| ? ? Hlen Hrect']; subst.
    assert (0 <= rowWeighted (w r) 0 row).
    { apply rowWeighted_nonneg; [exact Hrow |]. intros k Hk. apply Hw; simpl; lia. }
    assert (0 <= weighted w (S r) b).
    { apply IH; [exact Hrect' |]. intros i j Hi Hj. apply Hw; simpl; lia. }
    lia.
Qed.

Lemma potential_nonneg n (b : Board) :
  sound n b -> 0 <= potential (Z.of_nat (length b)) (Z.of_nat n) b.
Proof.
  intros [Hrect [Hpos _]]. unfold potential, wsum.
  apply (weighted_nonneg _ n); [exact Hpos | exact Hrect |].
  intros i j Hi Hj. unfold slope. nia.
Qed.

Lemma Topple_sound n (b : Board) row col v :
  sound n b ->
  getCell b row col = Some v ->
  4 <= v ->
  exists b',
    Topple b row col = Ok b'
    /\ sound n b'
    /\ length b' = length b
    /\ total b' <= total b
    /\ potential (Z.of_nat (length b)) (Z.of_nat n) b' + 4
       <= potential (Z.of_nat (length b)) (Z.of_nat n) b.
Proof.
  intros Hsound Hv H4. pose proof Hsound as [Hrect [Hpos Htot]].
  pose proof (sound_bounds _ _ Hsound) as Hall.
  pose proof (getCell_bounds _ _ _ _ _ Hrect Hv) as [Hrow Hcol].
  destruct (Topple_effect (fun _ _ => 1) n b row col v Hrect Hall Hv H4)
    as [b' [E [[Hs Hp] Hw]]].
  destruct (Topple_effect (slope (Z.of_nat (length b)) (Z.of_nat n))
              n b row col v Hrect Hall Hv H4) as [b2 [E2 [_ Hw2]]].
  rewrite E in E2. injection E2 as <-.
  assert (Hle : total b' <= total b).
  { rewrite !total_wsum, Hw.
    destruct (row >? 0), (row <? Z.of_nat (length b) - 1), (col >? 0),
      (col <? Z.of_nat n - 1); lia. }
  exists b'. split; [exact E |]. split; [| split; [apply shape_length; exact Hs |]].
  - split; [exact (rectangular_shape _ _ _ Hs Hrect) |]. split; [| lia].
    apply allCells_intro. intros r c u' Hu'.
    destruct (shape_getCell _ _ _ _ _ Hs Hu') as [u Hu].
    pose proof (Hp _ _ _ Hu) as Hu2. rewrite Hu' in Hu2. injection Hu2 as ->.
    pose proof (allCells_getCell _ _ _ _ _ Hpos Hu) as H0. cbv beta in H0.
    unfold toppleDelta.
    destruct (Z.eqb_spec r row) as [-> | Hr]; cbn [andb].
    + destruct (Z.eqb_spec c col) as [-> | Hc].
      * rewrite Hv in Hu. injection Hu as <-. lia.
      * destruct (_ =? 1); lia.
    + destruct (_ =? 1); lia.
  - split; [exact Hle |].
    unfold potential. rewrite Hw2. unfold slope.
    set (m := Z.of_nat (length b)) in *. set (k := Z.of_nat n) in *.
    rewrite !Z.gtb_ltb.
    destruct (Z.ltb_spec 0 row), (Z.ltb_spec row (m - 1)), (Z.ltb_spec 0 col),
      (Z.ltb_spec col (k - 1)); nia.
Qed.

(** *** A sweep *)

Lemma sweepCells_sound n m (r : nat) (cols : list nat) :
  forall (b : Board) (stable : bool),
    sound n b -> length b = m -> (r < m)%nat ->
    Forall (fun c => (c < n)%nat) cols ->
    exists b' stable',
      sweepCells b r cols stable = Ok (b', stable')
      /\ sound n b' /\ length b' = m /\ total b' <= total b
      /\ potential (Z.of_nat m) (Z.of_nat n) b' + credit stable
         <= potential (Z.of_nat m) (Z.of_nat n) b + credit stable'
      /\ (stable' = true -> stable = true /\ b' = b).
Proof.
  induction cols as [| c cols IH]; intros b stable Hsound Hlen Hr Hcols.
  - exists b, stable. cbn [sweepCells].
    split; [reflexivity |]. split; [exact Hsound |]. split; [exact Hlen |].
    split; [lia |]. split; [lia |]. auto.
  - inversion Hcols as [| ? ? Hc Hcols']; subst.
    pose proof Hsound as [Hrect _].
    destruct (getCell_rect n b (Z.of_nat r) (Z.of_nat c) Hrect) as [v Hv]; [lia | lia |].
    cbn [sweepCells]. rewrite Hv. cbn [orPanic bind].
    destruct (Z.geb_spec v 4) as [Hge | Hlt].
    + destruct (Topple_sound n b _ _ v Hsound Hv) as [b1 [E1 [S1 [L1 [T1 P1]]]]]; [lia |].
      rewrite E1. cbn [bind].
      destruct (IH b1 false S1 L1 Hr Hcols') as [b' [st' [E [S' [L' [T' [P' Hst]]]]]]].
      exists b', st'. split; [exact E |]. split; [exact S' |]. split; [exact L' |].
      split; [lia |]. split.
      * unfold credit in *. destruct stable, st'; lia.
      * intros Hst'. destruct (Hst Hst') as [Hf _]. discriminate.
    + destruct (IH b stable Hsound eq_refl Hr Hcols')
        as [b' [st' [E [S' [L' [T' [P' Hst]]]]]]].
      exists b', st'. split; [exact E |]. split; [exact S' |]. split; [exact L' |].
      split; [exact T' |]. split; [exact P' |]. exact Hst.
Qed.

Lemma sweepRows_sound n m (rows : list nat) :
  forall (b : Board) (stable : bool),
    sound n b -> length b = m ->
    Forall (fun r => (r < m)%nat) rows ->
    exists b' stable',
      sweepRows b rows stable = Ok (b', stable')
      /\ sound n b' /\ length b' = m /\ total b' <= total b
      /\ potential (Z.of_nat m) (Z.of_nat n) b' + credit stable
         <= potential (Z.of_nat m) (Z.of_nat n) b + credit stable'
      /\ (stable' = true -> stable = true /\ b' = b).
Proof.
  induction rows as [| r rows IH]; intros b stable Hsound Hlen Hrows.
  - exists b, stable. cbn [sweepRows].
    split; [reflexivity |]. split; [exact Hsound |]. split; [exact Hlen |].
    split; [lia |]. split; [lia |]. auto.
  - inversion Hrows as [| ? ? Hr Hrows']; subst.
    pose proof Hsound as [Hrect _].
    destruct (nth_error b r) as [row |] eqn:Erow.
    2:{ apply nth_error_None in Erow. lia. }
    assert (Hrow : length row = n).
    { apply (rectangular_idx n b (Z.of_nat r)); [exact Hrect |].
      rewrite idx_of_nat. exact Erow. }
    cbn [sweepRows]. rewrite Erow. cbn [orPanic bind]. rewrite Hrow.
    destruct (sweepCells_sound n (length b) r (seq 0 n) b stable Hsound eq_refl Hr)
      as [b1 [st1 [E1 [S1 [L1 [T1 [P1 Hst1]]]]]]].
    { apply Forall_forall. intros c Hc. apply in_seq in Hc. lia. }
    rewrite E1. cbn [bind].
    destruct (IH b1 st1 S1 L1 Hrows') as [b' [st' [E [S' [L' [T' [P' Hst]]]]]]].
    exists b', st'. split; [exact E |]. split; [exact S' |]. split; [exact L' |].
    split; [lia |]. split; [lia |].
    intros Hst'. destruct (Hst Hst') as [H1 H2]. destruct (Hst1 H1) as [H3 H4].
    split; congruence.
Qed.

(** A sweep that found no cell to topple changed nothing and saw every
    cell below four. *)
Lemma sweepCells_true (r : nat) (cols : list nat) :
  forall (b b' : Board) (stable : bool),
    sweepCells b r cols stable = Ok (b', true) ->
    stable = true /\ b' = b
    /\ forall c u, In c cols -> getCell b (Z.of_nat r) (Z.of_nat c) = Some u -> u < 4.
Proof.
  induction cols as [| c0 cols IH]; intros b b' stable H.
  - cbn [sweepCells] in H. injection H as -> ->.
    split; [reflexivity |]. split; [reflexivity |]. intros c u [].
  - cbn [sweepCells] in H.
    destruct (getCell b (Z.of_nat r) (Z.of_nat c0)) as [v |] eqn:Hv;
      cbn [orPanic bind] in H; [| discriminate].
    destruct (Z.geb_spec v 4) as [Hge | Hlt].
    + destruct (Topple b (Z.of_nat r) (Z.of_nat c0)) as [b1 | |]; cbn [bind] in H;
        try discriminate.
      destruct (IH _ _ _ H) as [Hf _]. discriminate.
    + destruct (IH _ _ _ H) as [Hst [Hb Hall]].
      split; [exact Hst |]. split; [exact Hb |].
      intros c u [<- | Hin] Hu.
      * rewrite Hv in Hu. injection Hu as <-. exact Hlt.
      * exact (Hall c u Hin Hu).
Qed.

Lemma sweepRows_true (rows : list nat) :
  forall (b b' : Board) (stable : bool),
    sweepRows b rows stable = Ok (b', true) ->
    stable = true /\ b' = b
    /\ forall r c u, In r rows -> getCell b (Z.of_nat r) c = Some u -> u < 4.
Proof.
  induction rows as [| r0 rows IH]; intros b b' stable H.
  - cbn [sweepRows] in H. injection H as -> ->.
    split; [reflexivity |]. split; [reflexivity |]. intros r c u [].
  - cbn [sweepRows] in H.
    destruct (nth_error b r0) as [row |] eqn:Erow; cbn [orPanic bind] in H;
      [| discriminate].
    destruct (sweepCells b r0 (seq 0 (length row)) stable) as [[b1 st1] | |] eqn:E1;
      cbn [bind] in H; try discriminate.
    destruct (IH _ _ _ H) as [Hst1 [Hb Hall]]. subst st1 b'.
    destruct (sweepCells_true _ _ _ _ _ E1) as [Hst [Hb1 Hrow]]. subst b1.
    split; [exact Hst |]. split; [reflexivity |].
    intros r c u [<- | Hin] Hu.
    + destruct (getCell_Some _ _ _ _ Hu) as [row' [Er [Ec [_ Hc]]]].
      rewrite idx_of_nat, Erow in Er. injection Er as <-.
      apply (Hrow (Z.to_nat c) u).
      * apply in_seq. lia.
      * rewrite Z2Nat.id by lia. exact Hu.
    + exact (Hall r c u Hin Hu).
Qed.

Lemma sweep_true (b b' : Board) :
  sweep b = Ok (b', true) -> b' = b /\ allCells (fun u => u < 4) b.
Proof.
  unfold sweep. intros H. destruct (sweepRows_true _ _ _ _ H) as [_ [Hb Hall]].
  split; [exact Hb |]. apply allCells_intro. intros r c u Hu.
  destruct (getCell_Some _ _ _ _ Hu) as [row [_ [_ [Hr _]]]].
  apply (Hall (Z.to_nat r) c u).
  - apply in_seq. lia.
  - rewrite Z2Nat.id by lia. exact Hu.
Qed.

Lemma sweep_sound n (b : Board) :
  sound n b ->
  exists b' stable',
    sweep b = Ok (b', stable')
    /\ sound n b' /\ length b' = length b /\ total b' <= total b
    /\ (stable' = false ->
        potential (Z.of_nat (length b)) (Z.of_nat n) b' + 4
        <= potential (Z.of_nat (length b)) (Z.of_nat n) b).
Proof.
  intros Hsound. unfold sweep.
  destruct (sweepRows_sound n (length b) (seq 0 (length b)) b true Hsound eq_refl)
    as [b' [st' [E [S' [L' [T' [P' _]]]]]]].
  { apply Forall_forall. intros r Hr. apply in_seq in Hr. lia. }
  exists b', st'. split; [exact E |]. split; [exact S' |]. split; [exact L' |].
  split; [exact T' |]. intros ->. unfold credit in P'. lia.
Qed.

(** *** A stable board *)

Lemma sweepCells_stable (b : Board) (r : nat) (row : list Z) (cols : list nat) :
  allCells (fun u => u < 4) b ->
  nth_error b r = Some row ->
  Forall (fun c => (c < length row)%nat) cols ->
  forall stable, sweepCells b r cols stable = Ok (b, stable).
Proof.
  intros Hall Hrow Hcols stable. induction Hcols as [| c cols Hc Hcols IH].
  - reflexivity.
  - cbn [sweepCells].
    destruct (idx_in_range row (Z.of_nat c)) as [u Hu]; [lia |].
    assert (Hcell : getCell b (Z.of_nat r) (Z.of_nat c) = Some u).
    { unfold getCell. rewrite idx_of_nat, Hrow. exact Hu. }
    rewrite Hcell. cbn [orPanic bind].
    pose proof (allCells_getCell _ _ _ _ _ Hall Hcell) as Hlt. cbv beta in Hlt.
    destruct (Z.geb_spec u 4) as [Hge | _]; [lia |]. exact IH.
Qed.

Lemma sweepRows_stable (b : Board) (rows : list nat) :
  allCells (fun u => u < 4) b ->
  Forall (fun r => (r < length b)%nat) rows ->
  forall stable, sweepRows b rows stable = Ok (b, stable).
Proof.
  intros Hall Hrows stable. induction Hrows as [| r rows Hr Hrows IH].
  - reflexivity.
  - cbn [sweepRows].
    destruct (nth_error b r) as [row |] eqn:Erow.
    2:{ apply nth_error_None in Erow. lia. }
    cbn [orPanic bind].
    rewrite (sweepCells_stable b r row _ Hall Erow).
    + cbn [bind]. exact IH.
    + apply Forall_forall. intros c Hc. apply in_seq in Hc. lia.
Qed.

Lemma sweep_stable (b : Board) :
  allCells (fun u => u < 4) b -> sweep b = Ok (b, true).
Proof.
  intros Hall. unfold sweep. apply sweepRows_stable; [exact Hall |].
  apply Forall_forall. intros r Hr. apply in_seq in Hr. lia.
Qed.

Lemma copyBoard_id (b : Board) : copyBoard b = b.
Proof.
  unfold copyBoard. induction b as [| row b IH]; simpl; [reflexivity |].
  rewrite IH, map_id. reflexivity.
Qed.

(** X15. On a board that is stable already (no cell holds four coins or
    more; the rows may differ in length and the board may be empty)
    [SimulateSandpiles] makes one sweep, topples nothing, and returns two
    boards, both equal to the input, which it leaves as it was. *)
Theorem stable_board_two_copies (b : Board) (fuel : nat) :
  allCells (fun u => u < 4) b ->
  SimulateSandpiles (S fuel) b = Ok ([b; b], b).
Proof.
  intros Hall. unfold SimulateSandpiles. cbn [simulateLoop].
  rewrite (sweep_stable b Hall). cbn [bind].
  change (Z.rem (wrapInt (0 + 1)) 500 =? 0) with false. cbv iota.
  cbn [bind]. rewrite copyBoard_id. reflexivity.
Qed.

Lemma stable_board_two_copies_witness :
  allCells (fun u => u < 4) [[3; 0]; []; [1; 2; 3]]
  /\ SimulateSandpiles 1 [[3; 0]; []; [1; 2; 3]]
     = Ok ([[[3; 0]; []; [1; 2; 3]]; [[3; 0]; []; [1; 2; 3]]], [[3; 0]; []; [1; 2; 3]]).
Proof.
  assert (H : allCells (fun u => u < 4) [[3; 0]; []; [1; 2; 3]]).
  { unfold allCells. repeat (constructor; try lia). }
  split; [exact H |].
  exact (stable_board_two_copies [[3; 0]; []; [1; 2; 3]] 0 H).
Defined.

(** *** The simulation settles *)

Lemma simulateLoop_settles n m :
  forall (k : nat) (b : Board) (interval : Z) (finalBoards : list Board),
    sound n b -> length b = m ->
    potential (Z.of_nat m) (Z.of_nat n) b <= Z.of_nat k ->
    exists l b',
      (forall fuel, (k < fuel)%nat ->
         simulateLoop fuel b interval finalBoards = Ok (l, b'))
      /\ (exists mid, l = finalBoards ++ mid)
      /\ sound n b' /\ length b' = m /\ total b' <= total b
      /\ allCells (fun u => u < 4) b'.
Proof.
  induction k as [| k IH]; intros b interval fb Hsound Hlen Hpot.
  - destruct (sweep_sound n b Hsound) as [b1 [st [E [S1 [L1 [T1 P1]]]]]].
    destruct st.
    + destruct (sweep_true _ _ E) as [-> Hq].
      eexists. exists b. split.
      * intros [| fuel] Hf; [lia |]. cbn [simulateLoop]. rewrite E. cbn [bind].
        reflexivity.
      * split.
        { destruct (Z.rem (wrapInt (interval + 1)) 500 =? 0).
          - eexists. reflexivity.
          - exists []. rewrite app_nil_r. reflexivity. }
        split; [exact Hsound |]. split; [exact Hlen |]. split; [lia | exact Hq].
    + exfalso. specialize (P1 eq_refl). rewrite Hlen in P1.
      pose proof (potential_nonneg n b1 S1) as H0. rewrite L1, Hlen in H0. lia.
  - destruct (sweep_sound n b Hsound) as [b1 [st [E [S1 [L1 [T1 P1]]]]]].
    destruct st.
    + destruct (sweep_true _ _ E) as [-> Hq].
      eexists. exists b. split.
      * intros [| fuel] Hf; [lia |]. cbn [simulateLoop]. rewrite E. cbn [bind].
        reflexivity.
      * split.
        { destruct (Z.rem (wrapInt (interval + 1)) 500 =? 0).
          - eexists. reflexivity.
          - exists []. rewrite app_nil_r. reflexivity. }
        split; [exact Hsound |]. split; [exact Hlen |]. split; [lia | exact Hq].
    + specialize (P1 eq_refl). rewrite Hlen in P1.
      destruct (IH b1 (wrapInt (interval + 1))
                  (if Z.rem (wrapInt (interval + 1)) 500 =? 0
                   then fb ++ [copyBoard b1] else fb) S1)
        as [l [b' [Hrun [[mid Hmid] [S' [L' [T' Hq]]]]]]]; [lia | lia |].
      exists l, b'. split.
      * intros [| fuel] Hf; [lia |]. cbn [simulateLoop]. rewrite E. cbn [bind].
        apply Hrun. lia.
      * split.
        { rewrite Hmid. destruct (Z.rem (wrapInt (interval + 1)) 500 =? 0).
          - rewrite <- app_assoc. eexists. reflexivity.
          - eexists. reflexivity. }
        split; [exact S' |]. split; [exact L' |]. split; [lia | exact Hq].
Qed.

(** X16. On a rectangular board without negative cells that holds fewer
    coins than the largest [int], [SimulateSandpiles] terminates and does
    not panic: from some number of sweeps on it returns one and the same
    list of boards. The list starts with the input as it was and ends with
    the state the input is left in; that last board is stable (every cell
    holds 0 to 3 coins), has the shape of the input and no more coins than
    it. *)
Theorem sandpile_settles (n : nat) (b : Board) :
  rectangular n b ->
  allCells (fun u => 0 <= u) b ->
  total b < maxInt ->
  exists fuel l b',
    (forall fuel', (fuel <= fuel')%nat -> SimulateSandpiles fuel' b = Ok (l, b'))
    /\ (exists mid, l = b :: mid ++ [b'])
    /\ allCells (fun u => 0 <= u < 4) b'
    /\ rectangular n b' /\ length b' = length b
    /\ total b' <= total b.
Proof.
  intros Hrect Hpos Htot.
  assert (Hsound : sound n b) by (split; [exact Hrect | split; assumption]).
  pose proof (potential_nonneg n b Hsound) as H0.
  destruct (simulateLoop_settles n (length b)
              (Z.to_nat (potential (Z.of_nat (length b)) (Z.of_nat n) b))
              b 0 [copyBoard b] Hsound eq_refl)
    as [l [b' [Hrun [[mid Hmid] [[R' [P' _]] [L' [T' Hq]]]]]]]; [lia |].
  exists (S (Z.to_nat (potential (Z.of_nat (length b)) (Z.of_nat n) b))).
  exists (l ++ [copyBoard b']), b'. split.
  - intros fuel' Hf. unfold SimulateSandpiles. rewrite Hrun by lia. reflexivity.
  - split.
    { exists mid. rewrite Hmid, !copyBoard_id. reflexivity. }
    split.
    { apply allCells_intro. intros r c u Hu.
      pose proof (allCells_getCell _ _ _ _ _ P' Hu) as H1.
      pose proof (allCells_getCell _ _ _ _ _ Hq Hu) as H2. cbv beta in H1, H2. lia. }
    split; [exact R' |]. split; [exact L' | exact T'].
Qed.

Lemma sandpile_settles_witness :
  rectangular 3 [[0; 9; 0]; [4; 5; 3]]
  /\ allCells (fun u => 0 <= u) [[0; 9; 0]; [4; 5; 3]]
  /\ total [[0; 9; 0]; [4; 5; 3]] < maxInt
  /\ exists fuel l b',
       (forall fuel', (fuel <= fuel')%nat ->
          SimulateSandpiles fuel' [[0; 9; 0]; [4; 5; 3]] = Ok (l, b'))
       /\ (exists mid, l = [[0; 9; 0]; [4; 5; 3]] :: mid ++ [b'])
       /\ allCells (fun u => 0 <= u < 4) b'
       /\ rectangular 3 b' /\ length b' = length [[0; 9; 0]; [4; 5; 3]]
       /\ total b' <= total [[0; 9; 0]; [4; 5; 3]].
Proof.
  assert (H1 : rectangular 3 [[0; 9; 0]; [4; 5; 3]]).
  { repeat constructor. }
  assert (H2 : allCells (fun u => 0 <= u) [[0; 9; 0]; [4; 5; 3]]).
  { unfold allCells. repeat (constructor; try lia). }
  assert (H3 : total [[0; 9; 0]; [4; 5; 3]] < maxInt).
  { reflexivity. }
  split; [exact H1 |]. split; [exact H2 |]. split; [exact H3 |].
  exact (sandpile_settles 3 [[0; 9; 0]; [4; 5; 3]] H1 H2 H3).
Defined.
